(** * Ruth: coordination core of the federated seed-and-scalar protocol

    A shallow embedding of the Python sources under [src/ruth] and the
    properties of the natural-language specification that were checked
    against them.

    Modelling conventions.
    - A Python [float] is an IEEE-754 binary64 value: it is embedded as Rocq's
      primitive [float], whose operations round to nearest-even as CPython's do.
    - A Python [int] is unbounded: it is embedded as [Z].
    - A Python call that may raise returns a [result]: [Ok v] or [Raise e].
    - [bytes] is [list byte]; text that the code keeps within ASCII (store
      keys, hex digests, signing payloads) is a Rocq [string]; an arbitrary
      Python [str] is a list of Unicode code points.
    - The elements of a torch tensor (float32, with torch's own summation
      order) are kept abstract: the tensor code is embedded over a scalar
      type with the operations the source uses. *)

From Stdlib Require Import ZArith List String Ascii Bool Lia Floats.
From Stdlib.Strings Require Import Byte.
From Stdlib Require Import DecimalString DecimalZ Permutation Sorted.
From stdpp Require Import gmap strings list.

Set Warnings "-inexact-float,-register-all".

(* ===================================================================== *)
(** ** Python prelude: exceptions, results, integers and strings *)
(* ===================================================================== *)

Module Py.

(** The exception classes the sources raise or catch. *)
Inductive exn : Type :=
| ValueError
| IndexError
| KeyError
| TypeError
| ZeroDivisionError
| OverflowError
| UnicodeEncodeError
| UnicodeDecodeError
| RedisError
| OtherError.

Inductive result (A : Type) : Type :=
| Ok (a : A)
| Raise (e : exn).

Arguments Ok {A} a.
Arguments Raise {A} e.

Definition bind {A B : Type} (r : result A) (k : A -> result B) : result B :=
  match r with
  | Ok a => k a
  | Raise e => Raise e
  end.

Definition is_ok {A : Type} (r : result A) : bool :=
  match r with Ok _ => true | Raise _ => false end.

(** [str(n)] for an [int]: the decimal numeral, with a leading minus sign for
    negative numbers. *)
Definition str_int (z : Z) : string := NilZero.string_of_int (Z.to_int z).

(** ASCII whitespace ([Py_ISSPACE]), and with it the two code points from
    128 to 255 that [int] takes for whitespace in a [str]. *)
Definition is_space (c : ascii) : bool :=
  let n := nat_of_ascii c in
  orb (Nat.eqb n 32) (andb (Nat.leb 9 n) (Nat.leb n 13)).

Definition is_unicode_space (c : ascii) : bool :=
  let n := nat_of_ascii c in
  orb (is_space c) (orb (Nat.eqb n 133) (Nat.eqb n 160)).

Fixpoint lstrip (space : ascii -> bool) (s : string) : string :=
  match s with
  | String c s' => if space c then lstrip space s' else s
  | EmptyString => EmptyString
  end.

Definition rev_string (s : string) : string :=
  string_of_list_ascii (List.rev (list_ascii_of_string s)).

Definition strip (space : ascii -> bool) (s : string) : string :=
  rev_string (lstrip space (rev_string (lstrip space s))).

Definition is_digit (c : ascii) : bool :=
  andb (Nat.leb 48 (nat_of_ascii c)) (Nat.leb (nat_of_ascii c) 57).

(** The digits of an integer literal: a non-empty run of decimal digits in
    which single underscores may separate digits.  [prev] tells whether the
    previous character was a digit. *)
Fixpoint literal_digits (s : string) (prev : bool) : option string :=
  match s with
  | EmptyString => if prev then Some EmptyString else None
  | String c s' =>
      if is_digit c then option_map (String c) (literal_digits s' true)
      else if andb (Ascii.eqb c "_") prev then
        match s' with
        | String d _ => if is_digit d then literal_digits s' false else None
        | EmptyString => None
        end
      else None
  end.

(** An optional sign, then the digits. *)
Definition int_literal (t : string) : result Z :=
  let signed (neg : bool) (body : string) : result Z :=
    match literal_digits body false with
    | Some ds =>
        match NilZero.uint_of_string ds with
        | Some d => Ok (if neg then (- Z.of_uint d)%Z else Z.of_uint d)
        | None => Raise ValueError
        end
    | None => Raise ValueError
    end in
  match t with
  | EmptyString => Raise ValueError
  | String c rest =>
      if Ascii.eqb c "-" then signed true rest
      else if Ascii.eqb c "+" then signed false rest
      else signed false t
  end.

(** [int(s)] for a [str] of code points below 256, and for a [bytes]:
    surrounding whitespace is dropped, then an integer literal is read. *)
Definition int_of_str (s : string) : result Z := int_literal (strip is_unicode_space s).

Definition int_of_bytes (s : string) : result Z := int_literal (strip is_space s).

(** [s.split(sep)] for a one-character separator. *)
Fixpoint split_on (sep : ascii) (s : string) (cur : string) : list string :=
  match s with
  | EmptyString => [rev_string cur]
  | String c s' =>
      if Ascii.eqb c sep then rev_string cur :: split_on sep s' EmptyString
      else split_on sep s' (String c cur)
  end.

Definition split (sep : ascii) (s : string) : list string :=
  split_on sep s EmptyString.

(** [l[i]] for a non-negative literal index. *)
Definition index {A : Type} (l : list A) (i : nat) : result A :=
  match nth_error l i with
  | Some a => Ok a
  | None => Raise IndexError
  end.

(** [l[start:stop]] with Python's treatment of negative and out-of-range
    bounds (step 1). *)
Definition clamp_index (len i : Z) : Z :=
  if (i <? 0)%Z then Z.max 0 (len + i) else Z.min len i.

Definition slice {A : Type} (l : list A) (start stop : Z) : list A :=
  let len := Z.of_nat (List.length l) in
  let lo := clamp_index len start in
  let hi := clamp_index len stop in
  firstn (Z.to_nat (hi - lo)) (skipn (Z.to_nat lo) l).

(** [int(x)] for a [float]: truncation toward zero; infinities and NaN raise. *)
Definition int_of_float (x : float) : result Z :=
  match Prim2SF x with
  | S754_zero _ => Ok 0%Z
  | S754_finite s m e =>
      let mag :=
        match e with
        | Zneg p => (Zpos m / 2 ^ Zpos p)%Z
        | _ => (Zpos m * 2 ^ e)%Z
        end in
      Ok (if s then (- mag)%Z else mag)
  | S754_infinity _ => Raise OverflowError
  | S754_nan => Raise ValueError
  end.

(** [math.floor(x)] of a finite float, for stating properties. *)
Definition floor_of_float (x : float) : result Z :=
  match Prim2SF x with
  | S754_zero _ => Ok 0%Z
  | S754_finite s m e =>
      match e with
      | Zneg p =>
          Ok (if s then (- ((Zpos m + 2 ^ Zpos p - 1) / 2 ^ Zpos p))%Z
              else (Zpos m / 2 ^ Zpos p)%Z)
      | _ => Ok (if s then (- (Zpos m * 2 ^ e))%Z else (Zpos m * 2 ^ e)%Z)
      end
  | S754_infinity _ => Raise OverflowError
  | S754_nan => Raise ValueError
  end.

(** [float(n)] for an [int] within the 63-bit range (row counts, small
    literals). *)
Definition float_of_int (n : Z) : float :=
  if (n <? 0)%Z then PrimFloat.opp (PrimFloat.of_uint63 (Uint63.of_Z (- n)))
  else PrimFloat.of_uint63 (Uint63.of_Z n).

End Py.

Import Py.

(* ===================================================================== *)
(** ** [ruth/core/prng.py]: the seed cursor and the noise oracle *)
(* ===================================================================== *)

Module Prng.

(** The object state of [Xoshiro256StarStar]: [self.seeds] and
    [self.current_epoch]. *)
Record t : Type := mk {
  seeds : list Z;
  current_epoch : Z
}.

Definition init (sds : list Z) : t := mk sds 0.

(** [Xoshiro256StarStar.next_seed].  The result pairs what the call returns or
    raises with the object state it leaves. *)
Definition next_seed (p : t) : result Z * t :=
  match seeds p with
  | [] => (Raise ValueError, p)
  | _ :: _ =>
      let seed_idx := (current_epoch p mod Z.of_nat (List.length (seeds p)))%Z in
      let p' := mk (seeds p) (current_epoch p + 1) in
      (index (seeds p) (Z.to_nat seed_idx), p')
  end.

(** [n] successive calls of [next_seed], collecting the returned seeds. *)
Fixpoint draw (n : nat) (p : t) : list (result Z) * t :=
  match n with
  | O => ([], p)
  | S n' =>
      let '(r, p1) := next_seed p in
      let '(rs, p2) := draw n' p1 in
      (r :: rs, p2)
  end.

Section Noise.

(** Tensor elements, and numpy's generator: [standard_normal seed size] stands
    for [np.random.default_rng(seed).standard_normal(size, dtype=float32)]. *)
Variable F : Type.
Variable standard_normal : Z -> nat -> list F.

(** [Xoshiro256StarStar.generate_noise_vector] for a one-dimensional shape
    [(d,)], on which [flatten] is the identity. *)
Definition generate_noise_vector (seed_id : Z) (shape : nat) : list F :=
  let noise := standard_normal seed_id shape in
  noise.

End Noise.

End Prng.

(* ===================================================================== *)
(** ** [ruth/client/runtime.py]: the antithetic client step *)
(* ===================================================================== *)

Module Runtime.

Section ClientRuntime.

(** Tensor elements, batches and the zero-dimensional loss tensors the model
    returns; [item] is [Tensor.item()], which yields a Python [float]. *)
Variables F Batch Loss : Type.
Variable standard_normal : Z -> nat -> list F.
Variable item : Loss -> float.

(** What [step] uses of the model object: the element counts of the
    parameters of [lora_a] and [lora_b], and the two forward passes. *)
Record Model : Type := mkModel {
  lora_a_numel : list nat;
  lora_b_numel : list nat;
  forward_infer : Batch -> Batch -> Loss;
  forward_perturb : Batch -> Batch -> list F -> float -> Loss
}.

(** [epsilon_schedule : Union[float, Callable[[int], float]]]. *)
Inductive schedule : Type :=
| Constant (e : float)
| Callable (f : Z -> float).

Record t : Type := mk {
  model : Model;
  prng : Prng.t;
  epsilon_schedule : schedule;
  max_norm : float;
  step_count : Z;
  baseline : float;
  beta : float
}.

(** [ClientRuntime.__init__]. *)
Definition init (m : Model) (p : Prng.t) (s : schedule) (mn : float) : t :=
  mk m p s mn 0 0%float 0.9%float.

Definition _get_epsilon (rt : t) : float :=
  match epsilon_schedule rt with
  | Callable f => f (step_count rt)
  | Constant e => e
  end.

(** The dictionary [step] returns. *)
Record StepResult : Type := mkResult {
  seed_id : Z;
  scalar : float;
  loss : float;
  raw_rho : float;
  epsilon : float
}.

(** [a / b] on floats: a zero divisor raises, anything else is IEEE division. *)
Definition truediv (a b : float) : result float :=
  if PrimFloat.eqb b 0%float then Raise ZeroDivisionError
  else Ok (a / b)%float.

Definition sum_numel (l : list nat) : nat := fold_left Nat.add l O.

(** [ClientRuntime.step]: the returned dictionary (or the exception) and the
    object state after the call. *)
Definition step (rt : t) (batch_x batch_y : Batch) : result StepResult * t :=
  match Prng.next_seed (prng rt) with
  | (Raise e, p') =>
      (Raise e,
       mk (model rt) p' (epsilon_schedule rt) (max_norm rt) (step_count rt)
          (baseline rt) (beta rt))
  | (Ok sid, p') =>
      let total_params :=
        (sum_numel (lora_a_numel (model rt)) + sum_numel (lora_b_numel (model rt)))%nat in
      let v := Prng.generate_noise_vector F standard_normal sid total_params in
      let loss0 := forward_infer (model rt) batch_x batch_y in
      let eps := _get_epsilon rt in
      let lossP := forward_perturb (model rt) batch_x batch_y v eps in
      let lossM := forward_perturb (model rt) batch_x batch_y v (- eps)%float in
      match truediv (item lossP - item lossM)%float (2 * eps)%float with
      | Raise e =>
          (Raise e,
           mk (model rt) p' (epsilon_schedule rt) (max_norm rt) (step_count rt)
              (baseline rt) (beta rt))
      | Ok rho =>
          let baseline' := (beta rt * baseline rt + (1 - beta rt) * rho)%float in
          let rho_adj := (rho - baseline')%float in
          let rho_adj' :=
            if PrimFloat.ltb (max_norm rt) (PrimFloat.abs rho_adj)
            then (max_norm rt * (if PrimFloat.ltb 0 rho_adj then 1 else -1))%float
            else rho_adj in
          (Ok (mkResult sid rho_adj' (item loss0) rho eps),
           mk (model rt) p' (epsilon_schedule rt) (max_norm rt)
              (step_count rt + 1) baseline' (beta rt))
      end
  end.

End ClientRuntime.

End Runtime.

(* ===================================================================== *)
(** ** [ruth/core/export.py]: the perturbed forward pass of [RuthEdge] *)
(* ===================================================================== *)

Module EdgeModel.

Section RuthEdge.

(** Tensor elements with the two operations of [param + epsilon * v_param],
    batches and losses; [functional_loss] stands for
    [F.cross_entropy(functional_call(self, perturbed_params, (x,)), y)]. *)
Variables F Batch Loss : Type.
Variable fadd : F -> F -> F.
Variable fmul : float -> F -> F.
Variable functional_loss : gmap string (list F) -> Batch -> Batch -> Loss.

(** A parameter tensor: its elements in row-major order, the order in which
    [view_as] fills a tensor of its shape, and its [requires_grad] flag. *)
Record Param : Type := mkParam {
  data : list F;
  requires_grad : bool
}.

Definition numel (p : Param) : nat := List.length (data p).

(** [t.view_as(param)]: the elements of [t] in the shape of [param]; the
    element counts must agree. *)
Definition view_as (t : list F) (param : Param) : result (list F) :=
  if Nat.eqb (List.length t) (numel param) then Ok t else Raise OtherError.

(** [params[name]]. *)
Definition getitem (params : gmap string Param) (name : string) : result Param :=
  match params !! name with
  | Some p => Ok p
  | None => Raise KeyError
  end.

(** The loop over [trainable_names]: [offset] walks through [v_flat]. *)
Fixpoint perturb_loop (trainable_names : list string) (params : gmap string Param)
  (v_flat : list F) (epsilon : float) (offset : nat)
  (perturbed_params : gmap string (list F)) : result (gmap string (list F)) :=
  match trainable_names with
  | [] => Ok perturbed_params
  | name :: rest =>
      bind (getitem params name) (fun param =>
      let n := numel param in
      bind (view_as (slice v_flat (Z.of_nat offset) (Z.of_nat (offset + n))) param)
        (fun v_param =>
      let offset' := (offset + n)%nat in
      let w := List.map (fun ab => fadd (fst ab) (snd ab))
                 (combine (data param) (List.map (fmul epsilon) v_param)) in
      perturb_loop rest params v_flat epsilon offset' (<[name := w]> perturbed_params)))
  end.

(** The first part of [RuthEdge.forward_perturb]: the dictionary of perturbed
    parameters, from [self.named_parameters()] (a sequence of distinct names
    with their parameters). *)
Definition perturbed_parameters (named_parameters : list (string * Param))
  (v_flat : list F) (epsilon : float) : result (gmap string (list F)) :=
  let params : gmap string Param := list_to_map named_parameters in
  let trainable_names :=
    List.map fst (List.filter (fun np => requires_grad (snd np)) named_parameters) in
  let copied : gmap string (list F) := data <$> params in
  perturb_loop trainable_names params v_flat epsilon 0 copied.

(** [RuthEdge.forward_perturb]. *)
Definition forward_perturb (named_parameters : list (string * Param))
  (x y : Batch) (v_flat : list F) (epsilon : float) : result Loss :=
  bind (perturbed_parameters named_parameters v_flat epsilon) (fun perturbed_params =>
  Ok (functional_loss perturbed_params x y)).

(** The parameters [RuthEdge.__init__] registers, in the order of
    [named_parameters()]: the frozen base layer, the two trainable adapters
    (without bias), the frozen head. *)
Record RuthEdge : Type := mkRuthEdge {
  base_layer_weight : list F;
  base_layer_bias : list F;
  lora_a_weight : list F;
  lora_b_weight : list F;
  head_weight : list F;
  head_bias : list F
}.

Definition named_parameters (m : RuthEdge) : list (string * Param) :=
  [("base_layer.weight", mkParam (base_layer_weight m) false);
   ("base_layer.bias", mkParam (base_layer_bias m) false);
   ("lora_a.weight", mkParam (lora_a_weight m) true);
   ("lora_b.weight", mkParam (lora_b_weight m) true);
   ("head.weight", mkParam (head_weight m) false);
   ("head.bias", mkParam (head_bias m) false)].

End RuthEdge.

End EdgeModel.

(* ===================================================================== *)
(** ** [ruth/server/aggregator.py]: reconstruction and the trimmed mean *)
(* ===================================================================== *)

Module Aggregator.

Section RobustAggregator.

(** Tensor elements with the operations the aggregator applies to them:
    addition and division by a count (inside [torch.mean]), multiplication by
    a Python float, and the comparison [torch.sort] orders by. *)
Variable F : Type.
Variable fzero : F.
Variable fadd : F -> F -> F.
Variable fdiv : F -> nat -> F.
Variable fmul : float -> F -> F.
Variable fle : F -> F -> bool.
Variable standard_normal : Z -> nat -> list F.

(** A two-dimensional tensor of shape [(length rows, ncols)]. *)
Record Tensor2 : Type := mkTensor {
  ncols : nat;
  rows : list (list F)
}.

Definition nrows (T : Tensor2) : nat := List.length (rows T).

Definition numel (T : Tensor2) : nat := (nrows T * ncols T)%nat.


(** A payload dictionary with the two keys [reconstruct] reads; [None] is a
    missing key. *)
Record Payload : Type := mkPayload {
  seed_id : option Z;
  scalar : option float
}.

Definition getitem {A : Type} (field : option A) : result A :=
  match field with
  | Some a => Ok a
  | None => Raise KeyError
  end.

(** The aggregator object: [self.shape] is the one-element tuple [(d,)]. *)
Record t : Type := mk {
  shape : nat;
  trim_ratio : float
}.

(** [torch.stack] of one-dimensional tensors: all must have the length of the
    first. *)
Definition stack (gs : list (list F)) : result Tensor2 :=
  match gs with
  | [] => Raise OtherError
  | g :: _ =>
      if forallb (fun r => Nat.eqb (List.length r) (List.length g)) gs
      then Ok (mkTensor (List.length g) gs)
      else Raise OtherError
  end.

(** The loop of [reconstruct]: [gradients] grows by one row per payload. *)
Fixpoint reconstruct_loop (agg : t) (payloads : list Payload)
  (gradients : list (list F)) : result (list (list F)) :=
  match payloads with
  | [] => Ok gradients
  | payload :: rest =>
      bind (getitem (seed_id payload)) (fun sid =>
      bind (getitem (scalar payload)) (fun sc =>
      let v := Prng.generate_noise_vector F standard_normal sid (shape agg) in
      let g := List.map (fmul sc) v in
      reconstruct_loop agg rest (gradients ++ [g])))
  end.

(** [RobustAggregator.reconstruct]. *)
Definition reconstruct (agg : t) (payloads : list Payload) : result Tensor2 :=
  bind (reconstruct_loop agg payloads []) (fun gradients =>
  match gradients with
  | [] => Ok (mkTensor (shape agg) [])
  | _ :: _ => stack gradients
  end).

Definition column (j : nat) (rs : list (list F)) : list F :=
  List.map (fun r => nth j r fzero) rs.

(** [torch.mean(l)] of a one-dimensional list: the sum divided by the count. *)
Definition mean (l : list F) : F :=
  fdiv (fold_left fadd l fzero) (List.length l).

(** [torch.mean(T, dim=0)]. *)
Definition mean_dim0 (T : Tensor2) : list F :=
  List.map (fun j => mean (column j (rows T))) (seq 0 (ncols T)).

Fixpoint insert_sorted (x : F) (l : list F) : list F :=
  match l with
  | [] => [x]
  | y :: l' => if fle x y then x :: l else y :: insert_sorted x l'
  end.

(** Ascending sort of a one-dimensional list. *)
Fixpoint sort (l : list F) : list F :=
  match l with
  | [] => []
  | x :: l' => insert_sorted x (sort l')
  end.

(** The values of [torch.sort(T, dim=0)]: every column sorted on its own. *)
Definition sort_dim0 (T : Tensor2) : Tensor2 :=
  mkTensor (ncols T)
    (List.map
       (fun i => List.map (fun j => nth i (sort (column j (rows T))) fzero)
                   (seq 0 (ncols T)))
       (seq 0 (nrows T))).

(** [torch.zeros(self.shape)]. *)
Definition zeros (d : nat) : list F := repeat fzero d.

(** [RobustAggregator.aggregate]. *)
Definition aggregate (agg : t) (gradients : Tensor2) : result (list F) :=
  if Nat.eqb (numel gradients) 0 then Ok (zeros (shape agg))
  else
    let num_clients := nrows gradients in
    bind (int_of_float
            (float_of_int (Z.of_nat num_clients) * trim_ratio agg)%float) (fun k =>
    if (k =? 0)%Z then Ok (mean_dim0 gradients)
    else
      let sorted_grads := sort_dim0 gradients in
      let trimmed_grads :=
        mkTensor (ncols sorted_grads)
          (slice (rows sorted_grads) k (Z.of_nat num_clients - k)) in
      Ok (mean_dim0 trimmed_grads)).

End RobustAggregator.

End Aggregator.

(* ===================================================================== *)
(** ** Byte-level library functions the sources call:
       [bytes.hex], [str.encode], [bytes.decode], [base64], [hashlib.sha256] *)
(* ===================================================================== *)

Module Codec.

Definition byte_to_Z (b : byte) : Z := Z.of_N (Byte.to_N b).

Definition byte_of_Z (z : Z) : byte :=
  match Byte.of_N (Z.to_N (z mod 256)) with
  | Some b => b
  | None => Byte.x00
  end.

Definition bytes_of_string (s : string) : list byte := list_byte_of_string s.

Definition hex_digit (n : Z) : ascii :=
  if (n <? 10)%Z then ascii_of_nat (Z.to_nat (48 + n))
  else ascii_of_nat (Z.to_nat (87 + n)).

(** [bytes.hex()]: two lowercase hexadecimal digits per byte. *)
Fixpoint hex (bs : list byte) : string :=
  match bs with
  | [] => EmptyString
  | b :: bs' =>
      let n := byte_to_Z b in
      String (hex_digit (n / 16)) (String (hex_digit (n mod 16)) (hex bs'))
  end.

Definition is_lower_hex (c : ascii) : bool :=
  let n := nat_of_ascii c in
  orb (andb (Nat.leb 48 n) (Nat.leb n 57)) (andb (Nat.leb 97 n) (Nat.leb n 102)).

(** *** Unicode text *)

(** A Python [str]: a sequence of code points in [0, 0x10FFFF], lone
    surrogates included. *)
Definition ustr : Type := list Z.

Definition ustr_of_string (s : string) : ustr :=
  List.map (fun c => Z.of_nat (nat_of_ascii c)) (list_ascii_of_string s).

Definition is_surrogate (c : Z) : bool := andb (55296 <=? c)%Z (c <=? 57343)%Z.

(** [str.encode('utf-8')] with the default strict error handler: a surrogate
    code point raises [UnicodeEncodeError]. *)
Fixpoint utf8_encode (s : ustr) : result (list byte) :=
  match s with
  | [] => Ok []
  | c :: s' =>
      if (c <? 0)%Z then Raise UnicodeEncodeError
      else if (c <? 128)%Z then
        bind (utf8_encode s') (fun r => Ok (byte_of_Z c :: r))
      else if (c <? 2048)%Z then
        bind (utf8_encode s') (fun r =>
          Ok (byte_of_Z (192 + c / 64) :: byte_of_Z (128 + c mod 64) :: r))
      else if is_surrogate c then Raise UnicodeEncodeError
      else if (c <? 65536)%Z then
        bind (utf8_encode s') (fun r =>
          Ok (byte_of_Z (224 + c / 4096) :: byte_of_Z (128 + (c / 64) mod 64)
              :: byte_of_Z (128 + c mod 64) :: r))
      else if (c <? 1114112)%Z then
        bind (utf8_encode s') (fun r =>
          Ok (byte_of_Z (240 + c / 262144) :: byte_of_Z (128 + (c / 4096) mod 64)
              :: byte_of_Z (128 + (c / 64) mod 64) :: byte_of_Z (128 + c mod 64) :: r))
      else Raise UnicodeEncodeError
  end.

Definition is_cont (b : Z) : bool := andb (128 <=? b)%Z (b <? 192)%Z.

(** [bytes.decode('utf-8')], strict: overlong forms, surrogates, code points
    past 0x10FFFF and truncated sequences raise [UnicodeDecodeError]. *)
Fixpoint utf8_decode_fuel (fuel : nat) (bs : list Z) : result ustr :=
  match fuel with
  | O => match bs with [] => Ok [] | _ => Raise UnicodeDecodeError end
  | S fuel' =>
      match bs with
      | [] => Ok []
      | b0 :: r0 =>
          if (b0 <? 128)%Z then
            bind (utf8_decode_fuel fuel' r0) (fun s => Ok (b0 :: s))
          else if andb (194 <=? b0)%Z (b0 <? 224)%Z then
            match r0 with
            | b1 :: r1 =>
                if is_cont b1 then
                  bind (utf8_decode_fuel fuel' r1) (fun s =>
                    Ok (((b0 - 192) * 64 + (b1 - 128))%Z :: s))
                else Raise UnicodeDecodeError
            | _ => Raise UnicodeDecodeError
            end
          else if andb (224 <=? b0)%Z (b0 <? 240)%Z then
            match r0 with
            | b1 :: b2 :: r2 =>
                let c := ((b0 - 224) * 4096 + (b1 - 128) * 64 + (b2 - 128))%Z in
                if andb (andb (is_cont b1) (is_cont b2))
                        (andb (2048 <=? c)%Z (negb (is_surrogate c)))
                then bind (utf8_decode_fuel fuel' r2) (fun s => Ok (c :: s))
                else Raise UnicodeDecodeError
            | _ => Raise UnicodeDecodeError
            end
          else if andb (240 <=? b0)%Z (b0 <? 245)%Z then
            match r0 with
            | b1 :: b2 :: b3 :: r3 =>
                let c := ((b0 - 240) * 262144 + (b1 - 128) * 4096
                          + (b2 - 128) * 64 + (b3 - 128))%Z in
                if andb (andb (is_cont b1) (andb (is_cont b2) (is_cont b3)))
                        (andb (65536 <=? c)%Z (c <? 1114112)%Z)
                then bind (utf8_decode_fuel fuel' r3) (fun s => Ok (c :: s))
                else Raise UnicodeDecodeError
            | _ => Raise UnicodeDecodeError
            end
          else Raise UnicodeDecodeError
      end
  end.

Definition utf8_decode (bs : list byte) : result ustr :=
  utf8_decode_fuel (List.length bs) (List.map byte_to_Z bs).

(** *** Base64 *)

Definition b64_char (n : Z) : ascii :=
  if (n <? 26)%Z then ascii_of_nat (Z.to_nat (65 + n))
  else if (n <? 52)%Z then ascii_of_nat (Z.to_nat (97 + (n - 26)))
  else if (n <? 62)%Z then ascii_of_nat (Z.to_nat (48 + (n - 52)))
  else if (n =? 62)%Z then "+"%char
  else "/"%char.

(** [base64.b64encode], as text. *)
Fixpoint b64encode_Z (bs : list Z) : string :=
  match bs with
  | [] => EmptyString
  | [a] =>
      String (b64_char (a / 4)) (String (b64_char ((a mod 4) * 16))
        (String "="%char (String "="%char EmptyString)))
  | [a; b] =>
      String (b64_char (a / 4)) (String (b64_char ((a mod 4) * 16 + b / 16))
        (String (b64_char ((b mod 16) * 4)) (String "="%char EmptyString)))
  | a :: b :: c :: rest =>
      String (b64_char (a / 4)) (String (b64_char ((a mod 4) * 16 + b / 16))
        (String (b64_char ((b mod 16) * 4 + c / 64))
          (String (b64_char (c mod 64)) (b64encode_Z rest))))
  end.

Definition b64encode (bs : list byte) : string :=
  b64encode_Z (List.map byte_to_Z bs).

(** The value of a character of the standard alphabet; [None] otherwise. *)
Definition b64_value (c : Z) : option Z :=
  if andb (65 <=? c)%Z (c <=? 90)%Z then Some (c - 65)%Z
  else if andb (97 <=? c)%Z (c <=? 122)%Z then Some (c - 71)%Z
  else if andb (48 <=? c)%Z (c <=? 57)%Z then Some (c + 4)%Z
  else if (c =? 43)%Z then Some 62%Z
  else if (c =? 47)%Z then Some 63%Z
  else None.

(** The scanning loop of [binascii.a2b_base64] in its default, non-strict
    mode: characters outside the alphabet are skipped, and a pad character
    that completes a quad ends the input.  The state is the position in the
    current quad, the bits left over, the count of pads seen in a row and the
    bytes produced so far (most recent first). *)
Fixpoint a2b_loop (cs : list Z) (quad_pos leftchar pads : Z) (out : list Z)
  : result (list Z) :=
  match cs with
  | [] => if (quad_pos =? 0)%Z then Ok (List.rev out) else Raise ValueError
  | c :: cs' =>
      if (c =? 61)%Z then
        if andb (2 <=? quad_pos)%Z (4 <=? quad_pos + (pads + 1))%Z
        then Ok (List.rev out)
        else a2b_loop cs' quad_pos leftchar
               (if (2 <=? quad_pos)%Z then pads + 1 else pads)%Z out
      else
        match b64_value c with
        | None => a2b_loop cs' quad_pos leftchar pads out
        | Some v =>
            if (quad_pos =? 0)%Z then a2b_loop cs' 1 v 0 out
            else if (quad_pos =? 1)%Z then
              a2b_loop cs' 2 (v mod 16) 0 ((leftchar * 4 + v / 16)%Z :: out)
            else if (quad_pos =? 2)%Z then
              a2b_loop cs' 3 (v mod 4) 0 ((leftchar * 16 + v / 4)%Z :: out)
            else a2b_loop cs' 0 0 0 ((leftchar * 64 + v)%Z :: out)
        end
  end.

(** [base64.b64decode(s)] for a [str] argument: the text must be ASCII
    ([ValueError] otherwise), then [binascii.a2b_base64] decodes it. *)
Definition b64decode (s : ustr) : result (list byte) :=
  if forallb (fun c => andb (0 <=? c)%Z (c <? 128)%Z) s
  then bind (a2b_loop s 0 0 0 []) (fun zs => Ok (List.map byte_of_Z zs))
  else Raise ValueError.

End Codec.

(** *** SHA-256 (FIPS 180-4), which [hashlib.sha256] computes *)

Module Sha256.

Local Open Scope Z_scope.

Definition w32 (x : Z) : Z := x mod 4294967296.

Definition add32 (a b : Z) : Z := w32 (a + b).

Definition rotr (n x : Z) : Z :=
  Z.lor (Z.shiftr x n) (w32 (Z.shiftl x (32 - n))).

Definition Ch (x y z : Z) : Z :=
  Z.lxor (Z.land x y) (Z.land (Z.lxor x 4294967295) z).

Definition Maj (x y z : Z) : Z :=
  Z.lxor (Z.lxor (Z.land x y) (Z.land x z)) (Z.land y z).

Definition Sigma0 (x : Z) : Z := Z.lxor (Z.lxor (rotr 2 x) (rotr 13 x)) (rotr 22 x).
Definition Sigma1 (x : Z) : Z := Z.lxor (Z.lxor (rotr 6 x) (rotr 11 x)) (rotr 25 x).
Definition sigma0 (x : Z) : Z := Z.lxor (Z.lxor (rotr 7 x) (rotr 18 x)) (Z.shiftr x 3).
Definition sigma1 (x : Z) : Z := Z.lxor (Z.lxor (rotr 17 x) (rotr 19 x)) (Z.shiftr x 10).

(** The round constants: the first 32 bits of the fractional parts of the
    cube roots of the first 64 primes; the initial hash value takes the
    square roots of the first 8. *)
Definition is_prime (n : nat) : bool :=
  andb (Nat.leb 2 n)
       (forallb (fun d => negb (Nat.eqb (Nat.modulo n d) 0)) (seq 2 (n - 2))).

Definition primes : list Z :=
  List.map Z.of_nat (List.filter is_prime (seq 2 310)).

Fixpoint icbrt_bits (bit : nat) (n r : Z) : Z :=
  let r' :=
    let c := r + 2 ^ Z.of_nat bit in
    if c * c * c <=? n then c else r in
  match bit with
  | O => r'
  | S bit' => icbrt_bits bit' n r'
  end.

(** The integer cube root of a number below 2^120. *)
Definition icbrt (n : Z) : Z := icbrt_bits 40 n 0.

Definition K : list Z :=
  Eval vm_compute in List.map (fun p => w32 (icbrt (p * 2 ^ 96))) primes.

Definition H0_words : list Z :=
  Eval vm_compute in List.map (fun p => w32 (Z.sqrt (p * 2 ^ 64))) (firstn 8 primes).

(** The eight working words. *)
Record state : Type := mkState {
  ha : Z; hb : Z; hc : Z; hd : Z; he : Z; hf : Z; hg : Z; hh : Z
}.

Definition H0 : state :=
  mkState (nth 0 H0_words 0) (nth 1 H0_words 0) (nth 2 H0_words 0)
          (nth 3 H0_words 0) (nth 4 H0_words 0) (nth 5 H0_words 0)
          (nth 6 H0_words 0) (nth 7 H0_words 0).

(** Padding: a one bit, zeros up to 56 modulo 64, the bit length on 8 bytes. *)
Definition be_bytes (n : nat) (x : Z) : list Z :=
  List.map (fun i => (x / 256 ^ Z.of_nat i) mod 256) (List.rev (seq 0 n)).

Definition pad (msg : list Z) : list Z :=
  let len := Z.of_nat (List.length msg) in
  let zeros := Z.to_nat ((55 - len) mod 64) in
  msg ++ [128] ++ repeat 0 zeros ++ be_bytes 8 (8 * len).

Fixpoint chunks (fuel : nat) (l : list Z) : list (list Z) :=
  match fuel with
  | O => []
  | S fuel' =>
      match l with
      | [] => []
      | _ :: _ => firstn 64 l :: chunks fuel' (skipn 64 l)
      end
  end.

Fixpoint be_words (fuel : nat) (l : list Z) : list Z :=
  match fuel with
  | O => []
  | S fuel' =>
      match l with
      | a :: b :: c :: d :: rest =>
          (((a * 256 + b) * 256 + c) * 256 + d) :: be_words fuel' rest
      | _ => []
      end
  end.

(** The message schedule, most recent word first. *)
Fixpoint extend (n : nat) (ws : list Z) : list Z :=
  match n with
  | O => ws
  | S n' =>
      let w := add32 (add32 (sigma1 (nth 1 ws 0)) (nth 6 ws 0))
                     (add32 (sigma0 (nth 14 ws 0)) (nth 15 ws 0)) in
      extend n' (w :: ws)
  end.

Definition schedule (block : list Z) : list Z :=
  List.rev (extend 48 (List.rev (be_words 16 block))).

Definition round (s : state) (kw : Z * Z) : state :=
  let t1 := add32 (add32 (add32 (hh s) (Sigma1 (he s)))
                         (add32 (Ch (he s) (hf s) (hg s)) (fst kw))) (snd kw) in
  let t2 := add32 (Sigma0 (ha s)) (Maj (ha s) (hb s) (hc s)) in
  mkState (add32 t1 t2) (ha s) (hb s) (hc s) (add32 (hd s) t1) (he s) (hf s) (hg s).

Definition compress (s : state) (block : list Z) : state :=
  let r := fold_left round (combine K (schedule block)) s in
  mkState (add32 (ha s) (ha r)) (add32 (hb s) (hb r)) (add32 (hc s) (hc r))
          (add32 (hd s) (hd r)) (add32 (he s) (he r)) (add32 (hf s) (hf r))
          (add32 (hg s) (hg r)) (add32 (hh s) (hh r)).

Definition digest_Z (msg : list Z) : list Z :=
  let p := pad msg in
  let s := fold_left compress (chunks (List.length p) p) H0 in
  be_bytes 4 (ha s) ++ be_bytes 4 (hb s) ++ be_bytes 4 (hc s) ++ be_bytes 4 (hd s)
  ++ be_bytes 4 (he s) ++ be_bytes 4 (hf s) ++ be_bytes 4 (hg s) ++ be_bytes 4 (hh s).

(** [hashlib.sha256(msg).digest()]. *)
Definition digest (msg : list byte) : list byte :=
  List.map Codec.byte_of_Z (digest_Z (List.map Codec.byte_to_Z msg)).

(** [hashlib.sha256(msg).hexdigest()]. *)
Definition hexdigest (msg : list byte) : string := Codec.hex (digest msg).

End Sha256.

(* ===================================================================== *)
(** ** [ruth/client/attestation.py]: the binding hash *)
(* ===================================================================== *)

Module Attestation.

(** The values a payload dictionary may hold: what JSON-like data gives. *)
Inductive pyval : Type :=
| VNone
| VBool (b : bool)
| VInt (z : Z)
| VFloat (f : float)
| VStr (s : Codec.ustr).

Section BindingHash.

(** [repr] of a float, which [format] uses: an ASCII numeral. *)
Variable float_repr : float -> string.

(** What an f-string replacement field [{v}] yields. *)
Definition format_value (v : pyval) : Codec.ustr :=
  match v with
  | VNone => Codec.ustr_of_string "None"
  | VBool true => Codec.ustr_of_string "True"
  | VBool false => Codec.ustr_of_string "False"
  | VInt z => Codec.ustr_of_string (str_int z)
  | VFloat f => Codec.ustr_of_string (float_repr f)
  | VStr s => s
  end.

(** [payload.get(key, '')]. *)
Definition get (payload : gmap string pyval) (key : string) : pyval :=
  match payload !! key with
  | Some v => v
  | None => VStr []
  end.

Definition binding_str (payload : gmap string pyval) : Codec.ustr :=
  let seed_id := get payload "seed_id" in
  let scalar := get payload "scalar" in
  let model_hash := get payload "model_hash" in
  format_value seed_id ++ [58%Z] ++ format_value scalar ++ [58%Z]
  ++ format_value model_hash.

(** [generate_binding_hash]. *)
Definition generate_binding_hash (payload : gmap string pyval) : result string :=
  bind (Codec.utf8_encode (binding_str payload)) (fun bs =>
  Ok (Sha256.hexdigest bs)).

End BindingHash.

(** [s.startswith(prefix)]. *)
Fixpoint startswith (s prefix : Codec.ustr) : bool :=
  match prefix with
  | [] => true
  | p :: prefix' =>
      match s with
      | c :: s' => andb (c =? p)%Z (startswith s' prefix')
      | [] => false
      end
  end.

(** [verify_attestation]: the mock validation of a device token against the
    binding hash it is expected to carry. *)
Definition verify_attestation (token : Codec.ustr) (binding_hash : string) : bool :=
  if startswith token (Codec.ustr_of_string "valid_token") then true else false.

End Attestation.

(* ===================================================================== *)
(** ** [ruth/client/security.py] and [ruth/server/verifier.py] *)
(* ===================================================================== *)

(** The update record both sides exchange ([ruth_pb2.ClientUpdate]). *)
Record ClientUpdate : Type := mkUpdate {
  device_id : string;
  round_id : Z;
  seed_id : Z;
  scalar : float;
  loss : float;
  signature : list byte;
  attestation_token : list byte
}.

Module Security.

Section SecurityManager.

(** The Ed25519 primitives of the [cryptography] package on the signer's side. *)
Variables PrivateKey PublicKey : Type.
Variable ed_sign : PrivateKey -> list byte -> list byte.
Variable ed_public_key : PrivateKey -> PublicKey.
Variable ed_public_bytes : PublicKey -> list byte.
Variable float_repr : float -> string.

(** The manager holds [self.private_key]; [self.public_key] is derived. *)
Record t : Type := mk { private_key : PrivateKey }.

Definition public_key (m : t) : PublicKey := ed_public_key (private_key m).

Definition get_public_key_bytes (m : t) : list byte :=
  ed_public_bytes (public_key m).

(** [SecurityManager.sign_update].  The payload text
    ["{seed_id}:{scalar}:{round_id}"] is ASCII, so its UTF-8 encoding is the
    text's own bytes. *)
Definition sign_update (m : t) (sid : Z) (sc : float) (rid : Z) : list byte :=
  let payload :=
    Codec.bytes_of_string
      (str_int sid +:+ ":" +:+ float_repr sc +:+ ":" +:+ str_int rid) in
  ed_sign (private_key m) payload.

(** [SecurityManager.get_attestation_token]. *)
Definition get_attestation_token (m : t) (sid : Z) (sc : float) (rid : Z)
  : list byte :=
  Codec.bytes_of_string "mock_integrity_token_from_device".

End SecurityManager.

Section KeyLoading.

(** The Ed25519 primitives [__init__] uses: [from_private_bytes], which raises
    [ValueError] on anything but a 32-byte seed, and the key that
    [Ed25519PrivateKey.generate()] draws in this run. *)
Variable PrivateKey : Type.
Variable ed_from_private_bytes : list byte -> result PrivateKey.
Variable ed_generate : PrivateKey.

(** [SecurityManager.__init__], given what
    [os.environ.get("RUTH_CLIENT_PRIVATE_KEY")] returned: [None] or a [str]. *)
Definition init (private_key_bytes_b64 : option Codec.ustr) : t PrivateKey :=
  match private_key_bytes_b64 with
  | Some text =>
      if negb (Nat.eqb (List.length text) 0) then
        match bind (Codec.b64decode text) ed_from_private_bytes with
        | Ok key => mk PrivateKey key
        | Raise _ => mk PrivateKey ed_generate
        end
      else mk PrivateKey ed_generate
  | None => mk PrivateKey ed_generate
  end.

End KeyLoading.

End Security.

Module Verifier.

(** A decoded JSON document, as [json.loads] returns it. *)
Inductive json : Type :=
| JNull
| JBool (b : bool)
| JInt (z : Z)
| JFloat (f : float)
| JStr (s : Codec.ustr)
| JArr (items : list json)
| JObj (fields : list (string * json)).

(** Python truthiness, as [not v] tests it. *)
Definition truthy (v : json) : bool :=
  match v with
  | JNull => false
  | JBool b => b
  | JInt z => negb (z =? 0)%Z
  | JFloat f => negb (PrimFloat.eqb f 0%float)
  | JStr s => negb (Nat.eqb (List.length s) 0)
  | JArr l => negb (Nat.eqb (List.length l) 0)
  | JObj l => negb (Nat.eqb (List.length l) 0)
  end.

Fixpoint assoc (fields : list (string * json)) (key : string) : option json :=
  match fields with
  | [] => None
  | (k, v) :: rest => if String.eqb k key then Some v else assoc rest key
  end.

(** [d.get(key, default)] on a decoded JSON object. *)
Definition dict_get (fields : list (string * json)) (key : string) (dflt : json)
  : json :=
  match assoc fields key with
  | Some v => v
  | None => dflt
  end.

Definition ustr_eqb (a b : Codec.ustr) : bool :=
  andb (Nat.eqb (List.length a) (List.length b))
       (forallb (fun p => (fst p =? snd p)%Z) (combine a b)).

(** [v == s] for a decoded JSON value [v] and a [str] [s]. *)
Definition eq_str (v : json) (s : string) : bool :=
  match v with
  | JStr u => ustr_eqb u (Codec.ustr_of_string s)
  | _ => false
  end.

(** [base64.b64decode(v)]: only a [str] is accepted here, anything else that
    JSON can hold raises [TypeError]. *)
Definition b64decode_value (v : json) : result (list byte) :=
  match v with
  | JStr u => Codec.b64decode u
  | _ => Raise TypeError
  end.

(** The nonce test of [_verify_attestation]: [true] when the code falls
    through to the integrity check, [false] when it returns [False]. *)
Definition nonce_accepted (returned_nonce : json) (expected_nonce : string) : bool :=
  if negb (eq_str returned_nonce expected_nonce) then
    match b64decode_value returned_nonce with
    | Ok decoded =>
        let decoded_nonce := Codec.hex decoded in
        if negb (String.eqb decoded_nonce expected_nonce) then false else true
    | Raise _ =>
        if negb (eq_str returned_nonce expected_nonce) then false else true
    end
  else true.

(** What the verdict call can do: [urlopen] raises [HTTPError], [URLError] or
    another exception (a timeout of the 5-second deadline among them, also
    while reading the body), or a response arrives with a status and a body
    on which [json.loads] succeeds or raises. *)
Inductive http_outcome : Type :=
| HTTPError (code : Z)
| URLError
| OtherException
| Response (status : Z) (body : result json).

Section Gatekeeper.

(** The Ed25519 primitives on the verifier's side: [from_public_bytes] raises
    [ValueError] on malformed key bytes; [ed_verify] is [false] when
    [verify] raises [InvalidSignature]. *)
Variable PublicKey : Type.
Variable ed_from_public_bytes : list byte -> result PublicKey.
Variable ed_verify : PublicKey -> list byte -> list byte -> bool.
Variable float_repr : float -> string.

(** The attestation service, as a function of the API key and the token sent. *)
Variable urlopen : string -> Codec.ustr -> http_outcome.

Record t : Type := mk { api_key : string }.

(** [Gatekeeper._verify_attestation]. *)
Definition _verify_attestation (g : t) (token_bytes : list byte)
  (expected_nonce : string) : result bool :=
  bind (Codec.utf8_decode token_bytes) (fun token =>
  match urlopen (api_key g) token with
  | Response status body =>
      if negb (status =? 200)%Z then Ok false
      else
        match body with
        | Ok (JObj result) =>
            if negb (truthy (dict_get result "isValidSignature" (JBool false)))
            then Ok false
            else
              let returned_nonce := dict_get result "nonce" JNull in
              if negb (nonce_accepted returned_nonce expected_nonce) then Ok false
              else if negb (truthy (dict_get result "basicIntegrity" (JBool false)))
              then Ok false
              else Ok true
        | Ok _ => Ok false
        | Raise _ => Ok false
        end
  | HTTPError _ => Ok false
  | URLError => Ok false
  | OtherException => Ok false
  end).

(** The signature stage of [verify_update]: [Some payload] when the [try]
    block completes, [None] when it returns [False]. *)
Definition check_signature (update : ClientUpdate) (public_key_bytes : list byte)
  : option (list byte) :=
  match ed_from_public_bytes public_key_bytes with
  | Raise _ => None
  | Ok public_key =>
      let payload_str :=
        str_int (seed_id update) +:+ ":" +:+ float_repr (scalar update) +:+ ":"
        +:+ str_int (round_id update) in
      let payload := Codec.bytes_of_string payload_str in
      if ed_verify public_key (signature update) payload then Some payload
      else None
  end.

(** [Gatekeeper.verify_update]. *)
Definition verify_update (g : t) (update : ClientUpdate)
  (public_key_bytes : list byte) : result bool :=
  match check_signature update public_key_bytes with
  | None => Ok false
  | Some payload =>
      let expected_nonce := Sha256.hexdigest payload in
      bind (_verify_attestation g (attestation_token update) expected_nonce)
        (fun ok => if negb ok then Ok false else Ok true)
  end.

End Gatekeeper.

End Verifier.

(* ===================================================================== *)
(** ** [ruth/server/async_aggregator.py]: the round collector *)
(* ===================================================================== *)

Module Collector.

(** *** The durable store: the Redis commands the collector issues *)

(** A key holds a list of byte strings or a string. *)
Inductive rval : Type :=
| RList (items : list (list byte))
| RStr (s : string).

Inductive command : Type :=
| LPush (key : string) (v : list byte)
| Incr (key : string)
| Del (key : string).

(** The integer a string value denotes for [INCR]: a canonical decimal
    numeral.  (Redis also bounds it to 64 bits; counters stay far below.) *)
Definition redis_int (s : string) : option Z :=
  match NilZero.int_of_string s with
  | Some d => if String.eqb (str_int (Z.of_int d)) s then Some (Z.of_int d) else None
  | None => None
  end.

(** One command against the store; a command on a key of the wrong type
    fails and changes nothing. *)
Definition exec (st : gmap string rval) (c : command) : result Z * gmap string rval :=
  match c with
  | LPush key v =>
      match st !! key with
      | None => (Ok 1%Z, <[key := RList [v]]> st)
      | Some (RList l) =>
          (Ok (Z.of_nat (S (List.length l))), <[key := RList (v :: l)]> st)
      | Some (RStr _) => (Raise RedisError, st)
      end
  | Incr key =>
      match st !! key with
      | None => (Ok 1%Z, <[key := RStr (str_int 1)]> st)
      | Some (RStr s) =>
          match redis_int s with
          | Some n => (Ok (n + 1)%Z, <[key := RStr (str_int (n + 1))]> st)
          | None => (Raise RedisError, st)
          end
      | Some (RList _) => (Raise RedisError, st)
      end
  | Del key =>
      match st !! key with
      | None => (Ok 0%Z, st)
      | Some _ => (Ok 1%Z, delete key st)
      end
  end.

(** [pipe.execute()] of a [MULTI]/[EXEC] pipeline: the queued commands run
    back to back with no other client in between; every command runs even
    when an earlier one failed, and the call raises when one did.  [conn]
    tells whether the store can be reached at all. *)
Fixpoint exec_all (st : gmap string rval) (cmds : list command)
  : bool * gmap string rval :=
  match cmds with
  | [] => (true, st)
  | c :: rest =>
      let '(r, st1) := exec st c in
      let '(ok, st2) := exec_all st1 rest in
      (andb (is_ok r) ok, st2)
  end.

Definition pipeline_execute (conn : bool) (st : gmap string rval)
  (cmds : list command) : result unit * gmap string rval :=
  if conn then
    let '(ok, st') := exec_all st cmds in
    (if ok then Ok tt else Raise RedisError, st')
  else (Raise RedisError, st).

(** [GET key]. *)
Definition get (st : gmap string rval) (key : string) : result (option string) :=
  match st !! key with
  | None => Ok None
  | Some (RStr s) => Ok (Some s)
  | Some (RList _) => Raise RedisError
  end.

(** [LRANGE key 0 -1]. *)
Definition lrange_all (st : gmap string rval) (key : string)
  : result (list (list byte)) :=
  match st !! key with
  | None => Ok []
  | Some (RList l) => Ok l
  | Some (RStr _) => Raise RedisError
  end.

(** Whether a key matches the glob ["ruth:round:*:count"] of the [SCAN]. *)
Definition has_suffix (suf s : string) : bool :=
  String.prefix (rev_string suf) (rev_string s).

Definition glob_match (key : string) : bool :=
  andb (andb (String.prefix "ruth:round:" key) (has_suffix ":count" key))
       (Nat.leb 17 (String.length key)).

(** *** The collector *)

Definition updates_key (round_id : Z) : string :=
  "ruth:round:" +:+ str_int round_id +:+ ":updates".

Definition count_key (round_id : Z) : string :=
  "ruth:round:" +:+ str_int round_id +:+ ":count".

Section AsyncAggregator.

(** The codec of the update class: [SerializeToString] and [ParseFromString]. *)
Variable serialize : ClientUpdate -> list byte.
Variable parse : list byte -> result ClientUpdate.

(** [self.k_threshold]. *)
Variable k_threshold : Z.

(** The pipeline [submit_update] queues. *)
Definition submit_commands (update : ClientUpdate) : list command :=
  let rid := round_id update in
  let serialized_data := serialize update in
  [LPush (updates_key rid) serialized_data; Incr (count_key rid)].

(** [AsyncAggregator.submit_update]: the returned flag and the store after
    the call. *)
Definition submit_update (conn : bool) (st : gmap string rval)
  (update : ClientUpdate) : bool * gmap string rval :=
  match pipeline_execute conn st (submit_commands update) with
  | (Ok _, st') => (true, st')
  | (Raise _, st') => (false, st')
  end.

(** [int(key_str.split(':')[2])]. *)
Definition parse_round (key_str : string) : result Z :=
  bind (index (split ":"%char key_str) 2) int_of_str.

(** [int(value or 0)] for what [GET] returned: [None] or a [bytes]. *)
Definition count_of (value : option string) : result Z :=
  match value with
  | None => Ok 0%Z
  | Some EmptyString => Ok 0%Z
  | Some s => int_of_bytes s
  end.

Fixpoint parse_all (datas : list (list byte)) : result (list ClientUpdate) :=
  match datas with
  | [] => Ok []
  | data :: rest =>
      bind (parse data) (fun u => bind (parse_all rest) (fun us => Ok (u :: us)))
  end.

(** Where the worker task stands between two of its store calls: inside the
    [for key in keys] loop with the keys still to visit (none left: between
    two scans, or asleep), inside [_trigger_aggregation] before [LRANGE], or
    after the updates were loaded and parsed, before the cleanup pipeline. *)
Inductive worker : Type :=
| Scanning (keys : list string)
| Triggered (rid : Z) (keys : list string)
| Loaded (rid : Z) (updates : list ClientUpdate) (keys : list string).

(** The collector with its store, and three histories kept for stating
    properties: the rounds of the submissions that returned [True], the calls
    of [_trigger_aggregation] (round and the counter value read), and the
    rounds whose cleanup completed. *)
Record sys : Type := mkSys {
  store : gmap string rval;
  task : worker;
  accepted : list Z;
  invoked : list (Z * Z);
  completed : list Z
}.

Definition initial : sys := mkSys ∅ (Scanning []) [] [] [].

(** One store interaction of one task.  The ingress handlers run
    [submit_update]; the worker task runs the other four, in the order of
    [_worker_loop] and [_trigger_aggregation].  Store calls of the worker
    are taken to reach the store. *)
Inductive action : Type :=
| ASubmit (update : ClientUpdate)
| AScan (keys : list string)
| AGet
| ALoad
| ACleanup.

Definition present (st : gmap string rval) (key : string) : bool :=
  match st !! key with Some _ => true | None => false end.

Definition step (a : action) (s : sys) : option sys :=
  match a with
  | ASubmit update =>
      let '(ok, st') := submit_update true (store s) update in
      Some (mkSys st' (task s)
              (if ok then accepted s ++ [round_id update] else accepted s)
              (invoked s) (completed s))
  | AScan keys =>
      match task s with
      | Scanning [] =>
          if forallb (fun k => andb (glob_match k) (present (store s) k)) keys
          then Some (mkSys (store s) (Scanning keys) (accepted s) (invoked s)
                       (completed s))
          else None
      | _ => None
      end
  | AGet =>
      match task s with
      | Scanning (key_str :: rest) =>
          let continue_ :=
            mkSys (store s) (Scanning rest) (accepted s) (invoked s) (completed s) in
          match parse_round key_str with
          | Raise _ => Some continue_
          | Ok rid =>
              match get (store s) key_str with
              | Raise _ =>
                  Some (mkSys (store s) (Scanning []) (accepted s) (invoked s)
                          (completed s))
              | Ok value =>
                  match count_of value with
                  | Raise _ => Some continue_
                  | Ok count =>
                      if (k_threshold <=? count)%Z
                      then Some (mkSys (store s) (Triggered rid rest) (accepted s)
                                   (invoked s ++ [(rid, count)]) (completed s))
                      else Some continue_
                  end
              end
          end
      | _ => None
      end
  | ALoad =>
      match task s with
      | Triggered rid rest =>
          let back :=
            mkSys (store s) (Scanning rest) (accepted s) (invoked s) (completed s) in
          match lrange_all (store s) (updates_key rid) with
          | Raise _ => Some back
          | Ok serialized_updates =>
              match parse_all serialized_updates with
              | Raise _ => Some back
              | Ok parsed_updates =>
                  Some (mkSys (store s) (Loaded rid parsed_updates rest)
                          (accepted s) (invoked s) (completed s))
              end
          end
      | _ => None
      end
  | ACleanup =>
      match task s with
      | Loaded rid _ rest =>
          match pipeline_execute true (store s)
                  [Del (updates_key rid); Del (count_key rid)] with
          | (Ok _, st') =>
              Some (mkSys st' (Scanning rest) (accepted s) (invoked s)
                      (completed s ++ [rid]))
          | (Raise _, st') =>
              Some (mkSys st' (Scanning rest) (accepted s) (invoked s) (completed s))
          end
      | _ => None
      end
  end.

(** A schedule of store interactions, run from a state. *)
Fixpoint run (acts : list action) (s : sys) : option sys :=
  match acts with
  | [] => Some s
  | a :: rest =>
      match step a s with
      | Some s' => run rest s'
      | None => None
      end
  end.

(** One full visit of the worker to a round's counter key. *)
Definition poll_round (rid : Z) : list action :=
  [AScan [count_key rid]; AGet; ALoad; ACleanup].

End AsyncAggregator.

(** How often a round occurs in a history: the aggregations invoked for it,
    its accepted submissions, its completed cleanups. *)
Definition occurrences (rid : Z) (l : list Z) : Z :=
  Z.of_nat (List.length (List.filter (Z.eqb rid) l)).

Definition invocations (rid : Z) (s : sys) : Z :=
  occurrences rid (List.map fst (invoked s)).

Definition submissions (rid : Z) (s : sys) : Z := occurrences rid (accepted s).

Definition completions (rid : Z) (s : sys) : Z := occurrences rid (completed s).

End Collector.

(* ===================================================================== *)
(** ** [scripts/update_redis_config.py]: publishing a round's model *)
(* ===================================================================== *)

Module ConfigScript.

Definition model_url_key (round_id : Z) : string :=
  "ruth:round:" +:+ str_int round_id +:+ ":model_url".

(** [SET key value]: the value replaces whatever the key held. *)
Definition set (st : gmap string Collector.rval) (key : string) (value : list byte)
  : gmap string Collector.rval :=
  <[key := Collector.RStr (string_of_list_byte value)]> st.

(** [update_redis]: the store after the call, or the exception that ends the
    script.  The client connects, then encodes the [str] it is given as
    UTF-8 and sends the command. *)
Definition update_redis (conn : bool) (st : gmap string Collector.rval)
  (round_id : Z) (model_url : Codec.ustr) : result (gmap string Collector.rval) :=
  let key := model_url_key round_id in
  if conn then
    bind (Codec.utf8_encode model_url) (fun value => Ok (set st key value))
  else Raise RedisError.

End ConfigScript.

(* ===================================================================== *)
(** * Properties *)
(* ===================================================================== *)

(** ** The seed cursor *)

Module PrngProps.

Import Prng.

Local Open Scope Z_scope.

Lemma index_in_range (l : list Z) (e : Z) :
  l <> [] ->
  (Z.to_nat (e mod Z.of_nat (List.length l)) < List.length l)%nat.
Proof.
  intros Hne.
  assert (0 < Z.of_nat (List.length l)) by (destruct l; [congruence | simpl; lia]).
  pose proof (Z.mod_pos_bound e (Z.of_nat (List.length l)) H). lia.
Qed.

Lemma next_seed_nonempty (p : t) :
  seeds p <> [] ->
  next_seed p =
    (Ok (nth (Z.to_nat (current_epoch p mod Z.of_nat (List.length (seeds p))))
             (seeds p) 0),
     mk (seeds p) (current_epoch p + 1)).
Proof.
  intros Hne. unfold next_seed.
  pose proof (index_in_range (seeds p) (current_epoch p) Hne) as Hlt.
  destruct (seeds p) as [|s0 rest] eqn:Hs; [congruence|].
  unfold index.
  destruct (nth_error (s0 :: rest) _) as [a|] eqn:Hn.
  - f_equal. f_equal. symmetry. now apply nth_error_nth.
  - apply nth_error_None in Hn. lia.
Qed.

Lemma next_seed_empty (p : t) :
  seeds p = [] -> next_seed p = (Raise ValueError, p).
Proof. intros Hs. unfold next_seed. now rewrite Hs. Qed.

Lemma draw_from (n : nat) : forall p,
  seeds p <> [] ->
  draw n p =
    (List.map
       (fun i => Ok (nth (Z.to_nat ((current_epoch p + Z.of_nat i)
                                   mod Z.of_nat (List.length (seeds p))))
                         (seeds p) 0))
       (seq 0 n),
     mk (seeds p) (current_epoch p + Z.of_nat n)).
Proof.
  induction n as [|n IH]; intros p Hne.
  - simpl. destruct p; simpl. now rewrite Z.add_0_r.
  - cbn [draw]. rewrite (next_seed_nonempty p Hne).
    rewrite IH by exact Hne. cbn [seeds current_epoch].
    change (seq 0 (S n)) with (0%nat :: seq 1 n).
    rewrite <- seq_shift. cbn [List.map]. rewrite List.map_map.
    rewrite Z.add_0_r. f_equal.
    + f_equal. apply List.map_ext. intros i.
      replace (current_epoch p + 1 + Z.of_nat i) with (current_epoch p + Z.of_nat (S i))
        by lia.
      reflexivity.
    + f_equal. lia.
Qed.

(** C6.  On a cursor with a non-empty seed list, [next_seed] returns
    [seeds[epoch mod |seeds|]] and leaves the epoch incremented by exactly
    one, so that successive calls walk the list cyclically in order; on a
    cursor with an empty seed list it raises (the [ValueError] that is the
    specification's ConfigError) and leaves the cursor, epoch included,
    unchanged. *)
Theorem next_seed_cycles (p : t) :
  (seeds p <> [] ->
     (exists s,
        nth_error (seeds p)
          (Z.to_nat (current_epoch p mod Z.of_nat (List.length (seeds p)))) = Some s
        /\ fst (next_seed p) = Ok s)
     /\ seeds (snd (next_seed p)) = seeds p
     /\ current_epoch (snd (next_seed p)) = current_epoch p + 1
     /\ forall n,
          fst (draw n p) =
          List.map
            (fun i => Ok (nth (Z.to_nat ((current_epoch p + Z.of_nat i)
                                        mod Z.of_nat (List.length (seeds p))))
                              (seeds p) 0))
            (seq 0 n))
  /\ (seeds p = [] ->
        fst (next_seed p) = Raise ValueError /\ snd (next_seed p) = p).
Proof.
  split.
  - intros Hne. rewrite (next_seed_nonempty p Hne). cbn [fst snd seeds current_epoch].
    repeat split.
    + eexists. split; [|reflexivity].
      apply nth_error_nth'. now apply index_in_range.
    + intros n. now rewrite (draw_from n p Hne).
  - intros Hs. now rewrite (next_seed_empty p Hs).
Qed.

Lemma next_seed_cycles_witness :
  ((exists s,
      nth_error [10; 20; 30] (Z.to_nat (4 mod 3)) = Some s
      /\ fst (next_seed (mk [10; 20; 30] 4)) = Ok s)
   /\ fst (draw 4 (mk [10; 20; 30] 0)) = [Ok 10; Ok 20; Ok 30; Ok 10])
  /\ fst (next_seed (mk [] 7)) = Raise ValueError
  /\ snd (next_seed (mk [] 7)) = mk [] 7.
Proof.
  pose proof (next_seed_cycles (mk [10; 20; 30] 4)) as [H4 _].
  pose proof (next_seed_cycles (mk [10; 20; 30] 0)) as [H0 _].
  pose proof (next_seed_cycles (mk [] 7)) as [_ He].
  split; [split|].
  - apply H4. discriminate.
  - destruct H0 as (_ & _ & _ & Hd); [discriminate|]. rewrite Hd. reflexivity.
  - apply He. reflexivity.
Defined.

End PrngProps.

(** ** The client step *)

Module RuntimeProps.

Import Runtime.

(** A model whose perturbed loss is 1.0 for a positive perturbation scale and
    0.0 for a negative one, run with the step size 1e-320 and the clipping
    bound 5.0. *)
Definition probe_model : Model unit unit float :=
  mkModel unit unit float [4%nat] [4%nat]
    (fun _ _ => 0.5%float)
    (fun _ _ _ eps => if PrimFloat.ltb 0 eps then 1%float else 0%float).

Definition probe_runtime : t unit unit float :=
  init unit unit float probe_model (Prng.init [42%Z]) (Constant 1e-320%float) 5%float.

Definition probe_step : result StepResult * t unit unit float :=
  step unit unit float (fun _ d => repeat tt d) (fun x => x) probe_runtime tt tt.

Definition is_finite (x : float) : bool :=
  match Prim2SF x with
  | S754_zero _ | S754_finite _ _ _ => true
  | _ => false
  end.

(** C5 (evaluation at the failing input).  With the finite losses 1.0 and
    0.0, the finite step size 1e-320 > 0 and the bound 5.0 > 0, the division
    overflows to infinity, the baseline becomes infinite, the adjusted value
    is NaN, the clipping test [abs(rho_adj) > max_norm] is false on it, and
    the step emits NaN as its scalar: [abs(scalar) <= max_norm] does not
    hold. *)
Theorem step_emits_nan_on_overflow :
  exists r rt',
    probe_step = (Ok r, rt')
    /\ is_finite 1%float = true /\ is_finite 0%float = true
    /\ is_finite 1e-320%float = true /\ PrimFloat.ltb 0 1e-320%float = true
    /\ PrimFloat.ltb 0 (max_norm _ _ _ probe_runtime) = true
    /\ raw_rho r = infinity
    /\ PrimFloat.is_nan (scalar r) = true
    /\ PrimFloat.leb (PrimFloat.abs (scalar r)) (max_norm _ _ _ probe_runtime) = false.
Proof.
  eexists. eexists. split; [vm_compute; reflexivity|].
  repeat split; vm_compute; reflexivity.
Qed.

End RuntimeProps.

(** ** Reconstruction and the coordinate-wise trimmed mean *)

Module AggregatorProps.

Import Aggregator.


Section Facts.

Variable F : Type.
Variable fzero : F.
Variable fadd : F -> F -> F.
Variable fdiv : F -> nat -> F.
Variable fmul : float -> F -> F.
Variable fle : F -> F -> bool.
Variable standard_normal : Z -> nat -> list F.

Local Abbreviation ascending := (Sorted (fun a b => fle a b = true)).
Local Abbreviation sort := (sort F fle).
Local Abbreviation insert_sorted := (insert_sorted F fle).
Local Abbreviation column := (column F fzero).
Local Abbreviation mean := (mean F fzero fadd fdiv).
Local Abbreviation mean_dim0 := (mean_dim0 F fzero fadd fdiv).
Local Abbreviation aggregate := (aggregate F fzero fadd fdiv fle).
Local Abbreviation reconstruct := (reconstruct F fmul standard_normal).
Local Abbreviation reconstruct_loop := (reconstruct_loop F fmul standard_normal).

(** *** The sort *)

Lemma insert_sorted_perm (x : F) (l : list F) :
  Permutation (x :: l) (insert_sorted x l).
Proof.
  induction l as [|y l IH]; cbn; [reflexivity|].
  destruct (fle x y); [reflexivity|].
  etransitivity; [apply perm_swap|]. now constructor.
Qed.

Lemma sort_perm (l : list F) : Permutation l (sort l).
Proof.
  induction l as [|x l IH]; cbn; [constructor|].
  etransitivity; [|apply insert_sorted_perm]. now constructor.
Qed.

Lemma sort_length (l : list F) : List.length (sort l) = List.length l.
Proof. symmetry. apply Permutation_length, sort_perm. Qed.

Section Ordered.

(** [torch.sort] orders values that are comparable (no NaN among them). *)
Hypothesis fle_total : forall a b, fle a b = true \/ fle b a = true.

Lemma insert_sorted_hd (x a : F) (l : list F) :
  fle a x = true -> HdRel (fun a b => fle a b = true) a l ->
  HdRel (fun a b => fle a b = true) a (insert_sorted x l).
Proof.
  intros Hax Hl. destruct l as [|y l]; cbn; [now constructor|].
  destruct (fle x y); constructor; [exact Hax|].
  now inversion Hl.
Qed.

Lemma insert_sorted_ascending (x : F) (l : list F) :
  ascending l -> ascending (insert_sorted x l).
Proof.
  induction l as [|y l IH]; intros Hs; cbn.
  - repeat constructor.
  - inversion Hs as [|? ? Hs' Hhd]; subst.
    destruct (fle x y) eqn:Hxy.
    + constructor; [exact Hs|]. now constructor.
    + constructor; [now apply IH|].
      apply insert_sorted_hd; [|exact Hhd].
      destruct (fle_total x y) as [H|H]; congruence.
Qed.

Lemma sort_ascending (l : list F) : ascending (sort l).
Proof.
  induction l as [|x l IH]; cbn; [constructor|].
  now apply insert_sorted_ascending.
Qed.

End Ordered.

(** *** Columns of the sorted and sliced tensor *)

Lemma column_firstn (j n : nat) (rs : list (list F)) :
  column j (firstn n rs) = firstn n (column j rs).
Proof. unfold Aggregator.column. now rewrite firstn_map. Qed.

Lemma column_skipn (j n : nat) (rs : list (list F)) :
  column j (skipn n rs) = skipn n (column j rs).
Proof. unfold Aggregator.column. now rewrite skipn_map. Qed.

Lemma map_nth_seq (l : list F) :
  List.map (fun i => nth i l fzero) (seq 0 (List.length l)) = l.
Proof.
  induction l as [|x l IH]; [reflexivity|].
  cbn [List.length]. change (seq 0 (S (List.length l))) with (0%nat :: seq 1 (List.length l)).
  rewrite <- seq_shift. cbn [List.map nth]. rewrite List.map_map. cbn [nth].
  now rewrite IH.
Qed.

Lemma column_sort_dim0 (T : Tensor2 F) (j : nat) :
  (j < ncols F T)%nat ->
  column j (rows F (sort_dim0 F fzero fle T)) = sort (column j (rows F T)).
Proof.
  intros Hj. unfold sort_dim0. cbn [rows]. unfold Aggregator.column at 1.
  rewrite List.map_map.
  transitivity (List.map (fun i => nth i (sort (column j (rows F T))) fzero)
                  (seq 0 (nrows F T))).
  - apply List.map_ext. intros i.
    rewrite (nth_indep _ fzero (nth i (sort (column j (rows F T))) fzero))
      by (now rewrite List.length_map, List.length_seq).
    rewrite (List.map_nth (fun j' => nth i (sort (column j' (rows F T))) fzero)
               (seq 0 (ncols F T)) j).
    now rewrite seq_nth.
  - replace (nrows F T) with (List.length (sort (column j (rows F T)))).
    + apply map_nth_seq.
    + rewrite sort_length. unfold Aggregator.column, nrows. apply List.length_map.
Qed.

Lemma column_length (j : nat) (rs : list (list F)) :
  List.length (column j rs) = List.length rs.
Proof. apply List.length_map. Qed.

Lemma mean_dim0_length (T : Tensor2 F) : List.length (mean_dim0 T) = ncols F T.
Proof. unfold Aggregator.mean_dim0. now rewrite List.length_map, List.length_seq. Qed.

Lemma mean_dim0_nth (T : Tensor2 F) (j : nat) :
  (j < ncols F T)%nat -> nth j (mean_dim0 T) fzero = mean (column j (rows F T)).
Proof.
  intros Hj. unfold Aggregator.mean_dim0.
  rewrite (nth_indep _ fzero (mean (column 0 (rows F T))))
    by (now rewrite List.length_map, List.length_seq).
  rewrite (List.map_nth (fun j' => mean (column j' (rows F T))) (seq 0 (ncols F T)) 0%nat).
  now rewrite seq_nth.
Qed.

Lemma slice_middle {A : Type} (l : list A) (k : Z) :
  (0 < k)%Z -> (1 <= Z.of_nat (List.length l) - 2 * k)%Z ->
  slice l k (Z.of_nat (List.length l) - k) =
  firstn (List.length l - 2 * Z.to_nat k) (skipn (Z.to_nat k) l).
Proof.
  intros Hk Hn. unfold slice, clamp_index.
  destruct (Z.ltb_spec k 0); [lia|].
  destruct (Z.ltb_spec (Z.of_nat (List.length l) - k) 0); [lia|].
  f_equal; [|f_equal]; lia.
Qed.


(** *** The aggregate *)


Lemma aggregate_nonempty (agg : t) (G : Tensor2 F) (k : Z) :
  (1 <= nrows F G)%nat -> (1 <= ncols F G)%nat ->
  int_of_float (float_of_int (Z.of_nat (nrows F G)) * trim_ratio agg)%float = Ok k ->
  aggregate agg G =
  Ok (if (k =? 0)%Z then mean_dim0 G
      else mean_dim0
             (mkTensor F (ncols F (sort_dim0 F fzero fle G))
                (slice (rows F (sort_dim0 F fzero fle G)) k
                   (Z.of_nat (nrows F G) - k)))).
Proof.
  intros Hn Hd Hk. unfold Aggregator.aggregate.
  replace (Nat.eqb (numel F G) 0) with false.
  - rewrite Hk. cbn [bind]. now destruct (k =? 0)%Z.
  - symmetry. apply Nat.eqb_neq. unfold numel. nia.
Qed.

Section Trimmed.

Hypothesis fle_total : forall a b, fle a b = true \/ fle b a = true.


End Trimmed.

(** *** Reconstruction *)

Local Abbreviation noise := (Prng.generate_noise_vector F standard_normal).

Definition payload_of (sc : Z * float) : Payload :=
  mkPayload (Some (fst sc)) (Some (snd sc)).



Section Oracle.

(** The generator returns as many samples as it is asked for. *)
Hypothesis standard_normal_length :
  forall seed d, List.length (standard_normal seed d) = d.



End Oracle.

End Facts.

(** *** The theorems at concrete inputs: integer elements, the data of
    [tests/test_aggregator.py] on one coordinate *)

Definition zdiv (a : Z) (n : nat) : Z := (a / Z.of_nat n)%Z.

Definition zscale (c : float) (x : Z) : Z :=
  match int_of_float c with
  | Ok k => (k * x)%Z
  | Raise _ => 0%Z
  end.

Definition znoise (seed : Z) (d : nat) : list Z :=
  List.map (fun i => (seed + Z.of_nat i)%Z) (seq 0 d).

Definition ten_clients : Tensor2 Z :=
  mkTensor Z 1 [[1]; [1]; [1]; [1]; [1]; [1]; [1]; [1]; [-100]; [100]]%Z.

Definition trim_tenth : t := mk 1 0.1%float.



End AggregatorProps.

(** ** Byte-level facts: hexadecimal text, digests, UTF-8 *)

Module CodecProps.

Import Codec.

Local Open Scope Z_scope.

Lemma byte_to_Z_range (b : byte) : 0 <= byte_to_Z b < 256.
Proof.
  unfold byte_to_Z. pose proof (Byte.to_N_bounded b). lia.
Qed.

Lemma hex_digit_lower (n : Z) : 0 <= n < 16 -> is_lower_hex (hex_digit n) = true.
Proof.
  intros Hn.
  assert (Hall : forallb (fun k => is_lower_hex (hex_digit (Z.of_nat k))) (seq 0 16) = true)
    by reflexivity.
  rewrite forallb_forall in Hall.
  specialize (Hall (Z.to_nat n)). rewrite Z2Nat.id in Hall by lia.
  apply Hall, in_seq. lia.
Qed.

Lemma hex_length (bs : list byte) :
  String.length (hex bs) = (2 * List.length bs)%nat.
Proof.
  induction bs as [|b bs IH]; cbn [hex String.length List.length]; [reflexivity|].
  rewrite IH. lia.
Qed.

Lemma hex_lower (bs : list byte) :
  forallb is_lower_hex (list_ascii_of_string (hex bs)) = true.
Proof.
  induction bs as [|b bs IH]; cbn [hex list_ascii_of_string forallb]; [reflexivity|].
  pose proof (byte_to_Z_range b) as Hb.
  rewrite !hex_digit_lower, IH; [reflexivity| |].
  - apply Z.mod_pos_bound. lia.
  - split; [apply Z.div_pos; lia | apply Z.div_lt_upper_bound; lia].
Qed.

Lemma be_bytes_length (n : nat) (x : Z) : List.length (Sha256.be_bytes n x) = n.
Proof.
  unfold Sha256.be_bytes. now rewrite List.length_map, List.length_rev, List.length_seq.
Qed.

Lemma digest_length (msg : list byte) : List.length (Sha256.digest msg) = 32%nat.
Proof.
  unfold Sha256.digest, Sha256.digest_Z.
  rewrite List.length_map, !List.length_app, !be_bytes_length. reflexivity.
Qed.

(** A SHA-256 hex digest is 64 lowercase hexadecimal characters. *)
Lemma hexdigest_shape (msg : list byte) :
  String.length (Sha256.hexdigest msg) = 64%nat
  /\ forallb is_lower_hex (list_ascii_of_string (Sha256.hexdigest msg)) = true.
Proof.
  unfold Sha256.hexdigest. rewrite hex_length, digest_length.
  split; [reflexivity | apply hex_lower].
Qed.

(** The code points UTF-8 can encode: Unicode scalar values. *)
Definition scalar_value (c : Z) : Prop :=
  0 <= c < 1114112 /\ is_surrogate c = false.

Definition encodable (s : ustr) : Prop := Forall scalar_value s.


Lemma utf8_encode_surrogate (s t : ustr) (c : Z) :
  encodable s -> is_surrogate c = true ->
  utf8_encode (s ++ c :: t) = Raise UnicodeEncodeError.
Proof.
  intros Hs Hc. induction Hs as [|a s [Ha Hsa] _ IH]; cbn [app utf8_encode].
  - unfold is_surrogate in Hc. apply andb_true_iff in Hc as [H1 H2].
    apply Z.leb_le in H1, H2.
    destruct (Z.ltb_spec c 0); [lia|].
    destruct (Z.ltb_spec c 128); [lia|].
    destruct (Z.ltb_spec c 2048); [lia|].
    unfold is_surrogate.
    destruct (Z.leb_spec 55296 c); [|lia]. destruct (Z.leb_spec c 57343); [|lia].
    reflexivity.
  - rewrite IH. cbn [bind].
    destruct (a <? 0); [reflexivity|]. destruct (a <? 128); [reflexivity|].
    destruct (a <? 2048); [reflexivity|]. rewrite Hsa.
    destruct (a <? 65536); [reflexivity|]. now destruct (a <? 1114112).
Qed.


End CodecProps.

(** ** The binding hash *)

Module AttestationProps.

Import Attestation CodecProps.

Section BindingHash.

Variable float_repr : float -> string.

Local Abbreviation format_value := (format_value float_repr).
Local Abbreviation binding_str := (binding_str float_repr).
Local Abbreviation generate_binding_hash := (generate_binding_hash float_repr).

(** What a key contributes to the binding string: its formatted value, or
    nothing when the key is missing. *)
Definition field (payload : gmap string pyval) (key : string) : Codec.ustr :=
  match payload !! key with
  | Some v => format_value v
  | None => []
  end.




End BindingHash.

(** A payload as the specification's example gives it, and one whose model
    hash is the lone surrogate U+D800 (as [json.loads] yields for the JSON
    text ["\ud800"]). *)
Definition sample_payload : gmap string pyval :=
  <["seed_id" := VInt 123]> (<["model_hash" := VStr (Codec.ustr_of_string "abc")]> ∅).


Definition repr_stub (f : float) : string := "0.5".



End AttestationProps.

(** ** Signing and the gatekeeper *)

Module VerifierProps.

Import Verifier CodecProps.

(** *** Comparing and decoding nonces *)

Lemma ustr_eqb_eq (a b : Codec.ustr) : ustr_eqb a b = true <-> a = b.
Proof.
  unfold ustr_eqb. revert b.
  induction a as [|x a IH]; intros [|y b]; cbn; split; try congruence; try reflexivity.
  - intros H. apply andb_true_iff in H as [Hlen H].
    apply andb_true_iff in H as [Hxy Hrest]. apply Z.eqb_eq in Hxy. subst y.
    f_equal. apply IH. now rewrite Hlen, Hrest.
  - intros [= -> ->]. rewrite Z.eqb_refl. cbn.
    destruct (IH b) as [_ H]. specialize (H eq_refl).
    apply andb_true_iff in H as [Hlen Hrest]. now rewrite Hlen, Hrest.
Qed.

Lemma eq_str_iff (v : json) (s : string) :
  eq_str v s = true <-> v = JStr (Codec.ustr_of_string s).
Proof.
  destruct v; cbn; try (split; [discriminate | congruence]).
  rewrite ustr_eqb_eq. split; [now intros -> | now intros [= ->]].
Qed.

(** The nonce test passes exactly on the expected text itself and on any
    text whose lenient base64 decoding is the bytes the expected text spells
    in hexadecimal. *)
Lemma nonce_accepted_iff (v : json) (expected : string) :
  nonce_accepted v expected = true <->
  v = JStr (Codec.ustr_of_string expected)
  \/ exists s bs, v = JStr s /\ Codec.b64decode s = Ok bs /\ Codec.hex bs = expected.
Proof.
  unfold nonce_accepted. rewrite <- eq_str_iff.
  destruct (eq_str v expected) eqn:Heq; cbn [negb].
  - split; [now left | reflexivity].
  - split.
    + destruct v; cbn [b64decode_value]; try discriminate.
      destruct (Codec.b64decode s) as [bs|e] eqn:Hd; [|discriminate].
      destruct (String.eqb (Codec.hex bs) expected) eqn:Hh; [|discriminate].
      intros _. right. exists s, bs. apply String.eqb_eq in Hh. auto.
    + intros [H | (s & bs & -> & Hd & Hh)]; [discriminate|].
      cbn [b64decode_value]. rewrite Hd, Hh, String.eqb_refl. reflexivity.
Qed.

(** *** Hexadecimal text spells its bytes *)

Definition unhex_digit (c : ascii) : Z :=
  let n := Z.of_nat (nat_of_ascii c) in
  if (n <? 58)%Z then (n - 48)%Z else (n - 87)%Z.

Lemma unhex_hex_digit (n : Z) : (0 <= n < 16)%Z -> unhex_digit (Codec.hex_digit n) = n.
Proof.
  intros Hn.
  assert (Hall : forallb (fun k => (unhex_digit (Codec.hex_digit (Z.of_nat k)) =? Z.of_nat k)%Z)
                   (seq 0 16) = true) by reflexivity.
  rewrite forallb_forall in Hall.
  specialize (Hall (Z.to_nat n)). rewrite Z2Nat.id in Hall by lia.
  apply Z.eqb_eq, Hall, in_seq. lia.
Qed.

Lemma byte_to_Z_inj (a b : byte) : Codec.byte_to_Z a = Codec.byte_to_Z b -> a = b.
Proof.
  unfold Codec.byte_to_Z. intros H. apply N2Z.inj in H.
  apply (f_equal Byte.of_N) in H. rewrite !Byte.of_to_N in H. congruence.
Qed.

Lemma hex_inj (a : list byte) : forall b, Codec.hex a = Codec.hex b -> a = b.
Proof.
  induction a as [|x a IH]; intros [|y b]; cbn [Codec.hex]; try discriminate;
    [reflexivity|].
  intros [= H1 H2 Hrest].
  pose proof (byte_to_Z_range x) as Hx. pose proof (byte_to_Z_range y) as Hy.
  apply (f_equal unhex_digit) in H1, H2.
  rewrite !unhex_hex_digit in H1, H2;
    try (apply Z.mod_pos_bound; lia);
    try (split; [apply Z.div_pos; lia | apply Z.div_lt_upper_bound; lia]).
  f_equal; [|now apply IH].
  apply byte_to_Z_inj.
  rewrite (Z.div_mod (Codec.byte_to_Z x) 16), (Z.div_mod (Codec.byte_to_Z y) 16) by lia.
  now rewrite H1, H2.
Qed.

(** *** Hexadecimal text read as base64 *)

Definition hex_code (c : Z) : Prop := (48 <= c <= 57)%Z \/ (97 <= c <= 102)%Z.

Lemma hex_code_b64 (c : Z) :
  hex_code c -> (c =? 61)%Z = false /\ exists v, Codec.b64_value c = Some v.
Proof.
  intros Hc. split; [destruct Hc; apply Z.eqb_neq; lia|].
  unfold Codec.b64_value.
  destruct (Z.leb_spec 65 c), (Z.leb_spec c 90), (Z.leb_spec 97 c), (Z.leb_spec c 122),
    (Z.leb_spec 48 c), (Z.leb_spec c 57); cbn; eauto; destruct Hc; lia.
Qed.

Lemma a2b_loop_hex (n : nat) : forall cs out,
  List.length cs = (4 * n)%nat -> Forall hex_code cs ->
  exists zs, Codec.a2b_loop cs 0 0 0 out = Ok (List.rev out ++ zs)
             /\ List.length zs = (3 * n)%nat.
Proof.
  induction n as [|n IH]; intros cs out Hlen Hall.
  - destruct cs; [|discriminate]. exists []. cbn. now rewrite app_nil_r.
  - destruct cs as [|a [|b [|c [|d rest]]]]; cbn in Hlen; try lia.
    inversion Hall as [|? ? Ha Hall1]; subst.
    inversion Hall1 as [|? ? Hb Hall2]; subst.
    inversion Hall2 as [|? ? Hc Hall3]; subst.
    inversion Hall3 as [|? ? Hd Hall4]; subst.
    destruct (hex_code_b64 a Ha) as [Ea [va Va]].
    destruct (hex_code_b64 b Hb) as [Eb [vb Vb]].
    destruct (hex_code_b64 c Hc) as [Ec [vc Vc]].
    destruct (hex_code_b64 d Hd) as [Ed [vd Vd]].
    cbn [Codec.a2b_loop]. rewrite Ea, Va. cbn [Z.eqb].
    rewrite Eb, Vb. cbn [Z.eqb]. rewrite Ec, Vc. cbn [Z.eqb Pos.eqb].
    rewrite Ed, Vd. cbn [Z.eqb Pos.eqb].
    destruct (IH rest ((vc mod 4 * 64 + vd)%Z :: (vb mod 16 * 16 + vc / 4)%Z
                       :: (va * 4 + vb / 16)%Z :: out)) as (zs & Hzs & Hzlen);
      [lia | exact Hall4 |].
    rewrite Hzs. cbn [List.rev]. rewrite <- !app_assoc. cbn [app].
    eexists. split; [reflexivity|]. cbn [List.length]. lia.
Qed.

Lemma lower_hex_code (c : ascii) :
  Codec.is_lower_hex c = true -> hex_code (Z.of_nat (nat_of_ascii c)).
Proof.
  unfold Codec.is_lower_hex, hex_code. intros H.
  apply orb_true_iff in H as [H|H]; apply andb_true_iff in H as [H1 H2];
    apply Nat.leb_le in H1, H2; lia.
Qed.

Lemma ustr_of_string_length (s : string) :
  List.length (Codec.ustr_of_string s) = String.length s.
Proof.
  unfold Codec.ustr_of_string. rewrite List.length_map.
  induction s; cbn; congruence.
Qed.

Lemma codes_back (l : list ascii) :
  List.map (fun x => ascii_of_nat (Z.to_nat (Z.of_nat (nat_of_ascii x)))) l = l.
Proof.
  induction l as [|c l IH]; cbn; [reflexivity|].
  now rewrite IH, Nat2Z.id, ascii_nat_embedding.
Qed.

Lemma ustr_of_string_inj (a b : string) :
  Codec.ustr_of_string a = Codec.ustr_of_string b -> a = b.
Proof.
  intros H.
  apply (f_equal (List.map (fun z => ascii_of_nat (Z.to_nat z)))) in H.
  unfold Codec.ustr_of_string in H. rewrite !List.map_map, !codes_back in H.
  apply (f_equal string_of_list_ascii) in H.
  now rewrite !string_of_list_ascii_of_string in H.
Qed.

(** A 64-character hexadecimal text is itself valid base64: it decodes to 48
    bytes, never to the 32 bytes of a digest. *)
Lemma hex_text_decodes_long (h : string) :
  String.length h = 64%nat ->
  forallb Codec.is_lower_hex (list_ascii_of_string h) = true ->
  exists bs, Codec.b64decode (Codec.ustr_of_string h) = Ok bs
             /\ List.length bs = 48%nat.
Proof.
  intros Hlen Hhex.
  assert (Hcodes : Forall hex_code (Codec.ustr_of_string h)).
  { unfold Codec.ustr_of_string. apply List.Forall_forall. intros c Hc.
    apply in_map_iff in Hc as (a & <- & Ha). apply lower_hex_code.
    rewrite forallb_forall in Hhex. now apply Hhex. }
  unfold Codec.b64decode.
  replace (forallb _ (Codec.ustr_of_string h)) with true.
  - destruct (a2b_loop_hex 16 (Codec.ustr_of_string h) []) as (zs & Hzs & Hzlen);
      [now rewrite ustr_of_string_length, Hlen | exact Hcodes |].
    rewrite Hzs. cbn [bind List.rev app]. eexists. split; [reflexivity|].
    now rewrite List.length_map.
  - symmetry. apply forallb_forall. intros c Hc.
    rewrite List.Forall_forall in Hcodes. specialize (Hcodes c Hc).
    unfold hex_code in Hcodes.
    destruct (Z.leb_spec 0 c), (Z.ltb_spec c 128); cbn; try reflexivity; lia.
Qed.

(** A nonce that is the hex digest of some other payload fails the test. *)
Lemma other_digest_rejected (other payload : list byte) :
  Sha256.hexdigest other <> Sha256.hexdigest payload ->
  nonce_accepted (JStr (Codec.ustr_of_string (Sha256.hexdigest other)))
    (Sha256.hexdigest payload) = false.
Proof.
  intros Hne.
  destruct (nonce_accepted _ _) eqn:Hacc; [|reflexivity]. exfalso.
  apply nonce_accepted_iff in Hacc as [H | (s & bs & Hs & Hd & Hh)].
  - apply Hne, ustr_of_string_inj. congruence.
  - assert (s = Codec.ustr_of_string (Sha256.hexdigest other)) as -> by congruence.
    destruct (hexdigest_shape other) as [Hlen Hhex].
    destruct (hex_text_decodes_long _ Hlen Hhex) as (bs' & Hbs' & Hlen').
    assert (bs' = bs) as -> by congruence.
    apply (f_equal String.length) in Hh.
    rewrite hex_length, Hlen' in Hh.
    destruct (hexdigest_shape payload) as [Hp _]. rewrite Hp in Hh. discriminate.
Qed.

Section Gatekeeper.

Variable PublicKey : Type.
Variable ed_from_public_bytes : list byte -> result PublicKey.
Variable ed_verify : PublicKey -> list byte -> list byte -> bool.
Variable float_repr : float -> string.
Variable urlopen : string -> Codec.ustr -> http_outcome.

Local Abbreviation check_signature :=
  (check_signature PublicKey ed_from_public_bytes ed_verify float_repr).
Local Abbreviation verify_update :=
  (verify_update PublicKey ed_from_public_bytes ed_verify float_repr urlopen).
Local Abbreviation _verify_attestation := (_verify_attestation urlopen).

(** The bytes the gatekeeper verifies the signature over. *)
Definition payload_of (update : ClientUpdate) : list byte :=
  Codec.bytes_of_string
    (str_int (seed_id update) +:+ ":" +:+ float_repr (scalar update) +:+ ":"
     +:+ str_int (round_id update)).

Lemma check_signature_payload (update : ClientUpdate) (pkb payload : list byte) :
  check_signature update pkb = Some payload -> payload = payload_of update.
Proof.
  unfold Verifier.check_signature.
  destruct (ed_from_public_bytes pkb); [|discriminate].
  destruct (ed_verify _ _ _); [|discriminate]. now intros [= <-].
Qed.

Lemma verify_update_signed (g : t) (update : ClientUpdate) (pkb payload : list byte) :
  check_signature update pkb = Some payload ->
  verify_update g update pkb =
  _verify_attestation g (attestation_token update) (Sha256.hexdigest (payload_of update)).
Proof.
  intros Hsig. unfold Verifier.verify_update.
  rewrite Hsig, (check_signature_payload _ _ _ Hsig).
  destruct (_verify_attestation _ _ _) as [[]|]; reflexivity.
Qed.

(** With a valid attestation signature and a passing integrity verdict, the
    outcome is the outcome of the nonce test. *)
Lemma verify_attestation_nonce (g : t) (token_bytes : list byte) (token : Codec.ustr)
  (fields : list (string * json)) (expected : string) :
  Codec.utf8_decode token_bytes = Ok token ->
  urlopen (api_key g) token = Response 200 (Ok (JObj fields)) ->
  truthy (dict_get fields "isValidSignature" (JBool false)) = true ->
  truthy (dict_get fields "basicIntegrity" (JBool false)) = true ->
  _verify_attestation g token_bytes expected =
  Ok (nonce_accepted (dict_get fields "nonce" JNull) expected).
Proof.
  intros Htok Hresp Hsig Hint. unfold Verifier._verify_attestation.
  rewrite Htok. cbn [bind]. rewrite Hresp. cbn [Z.eqb Pos.eqb negb].
  rewrite Hsig, Hint. cbn [negb].
  now destruct (nonce_accepted _ _).
Qed.

(** C3 (amended).  For an update whose Ed25519 signature over
    ["{seed_id}:{scalar}:{round_id}"] is valid, the gatekeeper takes
    [expected_nonce = sha256_hex(payload)]; when the attestation service
    answers with a valid attestation signature and a passing integrity
    verdict, the update is accepted if and only if the returned nonce is
    [expected_nonce] itself, or a text whose base64 decoding (Python's
    lenient [b64decode]) is the 32-byte digest that [expected_nonce] spells.
    Every other nonce rejects the update; in particular a nonce that is the
    hex digest of another payload with another digest does, so an
    attestation replayed with a different scalar is rejected. *)
Theorem nonce_binding (g : t) (update : ClientUpdate) (pkb payload : list byte)
  (token : Codec.ustr) (fields : list (string * json)) :
  check_signature update pkb = Some payload ->
  Codec.utf8_decode (attestation_token update) = Ok token ->
  urlopen (api_key g) token = Response 200 (Ok (JObj fields)) ->
  truthy (dict_get fields "isValidSignature" (JBool false)) = true ->
  truthy (dict_get fields "basicIntegrity" (JBool false)) = true ->
  payload = payload_of update
  /\ (verify_update g update pkb = Ok true <->
      dict_get fields "nonce" JNull
        = JStr (Codec.ustr_of_string (Sha256.hexdigest payload))
      \/ exists s,
           dict_get fields "nonce" JNull = JStr s
           /\ Codec.b64decode s = Ok (Sha256.digest payload))
  /\ (verify_update g update pkb <> Ok true -> verify_update g update pkb = Ok false)
  /\ (forall other,
        dict_get fields "nonce" JNull
          = JStr (Codec.ustr_of_string (Sha256.hexdigest other)) ->
        Sha256.hexdigest other <> Sha256.hexdigest payload ->
        verify_update g update pkb = Ok false).
Proof.
  intros Hsig Htok Hresp Hvalid Hint.
  pose proof (check_signature_payload _ _ _ Hsig) as Hpay.
  pose proof (verify_update_signed g _ _ _ Hsig) as Hv.
  rewrite (verify_attestation_nonce g _ _ _ _ Htok Hresp Hvalid Hint) in Hv.
  rewrite <- Hpay in Hv. rewrite Hv.
  split; [exact Hpay|]. split; [|split].
  - split.
    + intros [= Hacc]. apply nonce_accepted_iff in Hacc as [H | (s & bs & Hs & Hd & Hh)].
      * now left.
      * right. exists s. split; [exact Hs|]. rewrite Hd. f_equal.
        now apply hex_inj.
    + intros [H | (s & Hs & Hd)]; f_equal; apply nonce_accepted_iff.
      * now left.
      * right. exists s, (Sha256.digest payload). auto.
  - destruct (nonce_accepted _ _); [congruence | reflexivity].
  - intros other Hnonce Hne. rewrite Hnonce. f_equal.
    now apply other_digest_rejected.
Qed.

(** The verdict call did not produce a response. *)
Definition unreachable (o : http_outcome) : Prop :=
  match o with
  | Response _ _ => False
  | _ => True
  end.

(** C4.  When the verdict call fails (HTTP error, network error, the
    5-second timeout or any other exception), [verify_update] never accepts:
    it returns [False] whenever it returns, that is, whenever the attestation
    token is valid UTF-8 or the signature check already failed. *)
Theorem unreachable_verdict_rejects (g : t) (update : ClientUpdate) (pkb : list byte) :
  (forall token, unreachable (urlopen (api_key g) token)) ->
  verify_update g update pkb <> Ok true
  /\ (is_ok (Codec.utf8_decode (attestation_token update)) = true ->
      verify_update g update pkb = Ok false)
  /\ (check_signature update pkb = None -> verify_update g update pkb = Ok false).
Proof.
  intros Hdown.
  assert (Hatt : forall tb e, _verify_attestation g tb e = Ok false
                              \/ exists x, Codec.utf8_decode tb = Raise x
                                           /\ _verify_attestation g tb e = Raise x).
  { intros tb e. unfold Verifier._verify_attestation.
    destruct (Codec.utf8_decode tb) as [token|x]; cbn [bind]; [left|right; eauto].
    specialize (Hdown token). now destruct (urlopen (api_key g) token). }
  unfold Verifier.verify_update.
  destruct (check_signature update pkb) as [payload|] eqn:Hsig.
  - destruct (Hatt (attestation_token update) (Sha256.hexdigest payload))
      as [H | (x & Hx & H)]; rewrite H; cbn [bind negb].
    + repeat split; congruence.
    + rewrite Hx. cbn [is_ok]. repeat split; congruence.
  - repeat split; congruence.
Qed.

End Gatekeeper.

(** *** Concrete runs *)

(** A stand-in signature scheme with the interface and the correctness of
    Ed25519 (and none of its security): there are two key pairs, a public key
    is encoded as 32 equal bytes, and a signature is the encoded public key
    followed by the message. *)
Definition bytes_eqb (a b : list byte) : bool :=
  ustr_eqb (List.map Codec.byte_to_Z a) (List.map Codec.byte_to_Z b).

Definition toy_public_bytes (pk : bool) : list byte :=
  repeat (if pk then Byte.x01 else Byte.x00) 32.

Definition toy_from_public_bytes (pkb : list byte) : result bool :=
  if bytes_eqb pkb (toy_public_bytes true) then Ok true
  else if bytes_eqb pkb (toy_public_bytes false) then Ok false
  else Raise ValueError.

Definition toy_sign (sk : bool) (msg : list byte) : list byte :=
  toy_public_bytes sk ++ msg.

Definition toy_verify (pk : bool) (sig msg : list byte) : bool :=
  bytes_eqb sig (toy_public_bytes pk ++ msg).

Lemma bytes_eqb_refl (a : list byte) : bytes_eqb a a = true.
Proof. unfold bytes_eqb. now apply ustr_eqb_eq. Qed.

Definition toy_key : list byte := toy_public_bytes true.

(** The scenario of the specification: seed 42, scalar 0.1, round 7. *)
Definition repr_tenth (f : float) : string := "0.1".

Definition spec_payload : list byte := Codec.bytes_of_string "42:0.1:7".

Definition spec_nonce : string := Sha256.hexdigest spec_payload.

Definition mock_token : list byte :=
  Codec.bytes_of_string "mock_integrity_token_from_device".

Definition spec_update : ClientUpdate :=
  mkUpdate "device1" 7 42 0.1%float 0.5%float (toy_sign true spec_payload) mock_token.

(** The attestation service answering with a valid signature, a passing
    integrity verdict and the given nonce. *)
Definition answer (nonce : json) (key : string) (token : Codec.ustr) : http_outcome :=
  Response 200
    (Ok (JObj [("isValidSignature", JBool true); ("basicIntegrity", JBool true);
               ("nonce", nonce)])).

(** Two nonces: the base64 text of the digest bytes followed by a blank, and
    the base64 text of the ASCII bytes of the hexadecimal nonce. *)
Definition lenient_nonce : json :=
  JStr (Codec.ustr_of_string (Codec.b64encode (Sha256.digest spec_payload) +:+ " ")).

Definition hex_bytes_nonce : json :=
  JStr (Codec.ustr_of_string (Codec.b64encode (Codec.bytes_of_string spec_nonce))).

Definition gate : t := mk "mock_api_key".

Lemma nonce_binding_witness :
  (check_signature bool toy_from_public_bytes toy_verify repr_tenth
     spec_update toy_key = Some spec_payload
   /\ Codec.utf8_decode (attestation_token spec_update)
      = Ok (Codec.ustr_of_string "mock_integrity_token_from_device")
   /\ truthy (JBool true) = true)
  /\ verify_update bool toy_from_public_bytes toy_verify repr_tenth
       (answer (JStr (Codec.ustr_of_string spec_nonce))) gate spec_update toy_key
     = Ok true.
Proof.
  assert (Hsig : check_signature bool toy_from_public_bytes toy_verify
                   repr_tenth spec_update toy_key = Some spec_payload)
    by (vm_compute; reflexivity).
  assert (Htok : Codec.utf8_decode (attestation_token spec_update)
                 = Ok (Codec.ustr_of_string "mock_integrity_token_from_device"))
    by (vm_compute; reflexivity).
  split; [repeat split; assumption|].
  destruct (nonce_binding bool toy_from_public_bytes toy_verify repr_tenth
              (answer (JStr (Codec.ustr_of_string spec_nonce))) gate spec_update
              toy_key spec_payload _ _ Hsig Htok eq_refl eq_refl eq_refl)
    as (_ & Hiff & _).
  apply Hiff. left. reflexivity.
Defined.

(** C3 as stated fails in both directions of its second form: a nonce that is
    neither the hexadecimal text nor a base64 encoding is accepted, and the
    base64 encoding of the bytes of the hexadecimal text is rejected. *)
Lemma nonce_forms_differ :
  _verify_attestation (answer lenient_nonce) gate mock_token spec_nonce = Ok true
  /\ lenient_nonce <> JStr (Codec.ustr_of_string spec_nonce)
  /\ lenient_nonce
     <> JStr (Codec.ustr_of_string (Codec.b64encode (Sha256.digest spec_payload)))
  /\ lenient_nonce <> hex_bytes_nonce
  /\ _verify_attestation (answer hex_bytes_nonce) gate mock_token spec_nonce = Ok false.
Proof.
  split; [vm_compute; reflexivity|].
  split; [intros H; vm_compute in H; discriminate H|].
  split; [intros H; vm_compute in H; discriminate H|].
  split; [intros H; vm_compute in H; discriminate H|].
  vm_compute. reflexivity.
Qed.

Lemma unreachable_verdict_rejects_witness :
  (forall token : Codec.ustr, unreachable ((fun _ _ => URLError) (api_key gate) token))
  /\ verify_update bool toy_from_public_bytes toy_verify repr_tenth
       (fun _ _ => URLError) gate spec_update toy_key = Ok false.
Proof.
  assert (Hdown : forall token : Codec.ustr,
             unreachable ((fun _ _ => URLError) (api_key gate) token))
    by (intros token; exact I).
  split; [exact Hdown|].
  destruct (unreachable_verdict_rejects bool toy_from_public_bytes toy_verify
              repr_tenth (fun _ _ => URLError) gate spec_update toy_key Hdown)
    as (_ & Hrej & _).
  apply Hrej. vm_compute. reflexivity.
Defined.

End VerifierProps.

(** ** Signing, then verifying *)

Module SecurityProps.

Section RoundTrip.

Variables PrivateKey PublicKey : Type.
Variable ed_sign : PrivateKey -> list byte -> list byte.
Variable ed_public_key : PrivateKey -> PublicKey.
Variable ed_public_bytes : PublicKey -> list byte.
Variable ed_from_public_bytes : list byte -> result PublicKey.
Variable ed_verify : PublicKey -> list byte -> list byte -> bool.

(** Both sides format the float scalar with the same [repr]. *)
Variable float_repr : float -> string.

(** Ed25519: the raw encoding of a public key loads back as that key, and a
    signature made with a private key verifies under its public key. *)
Hypothesis public_bytes_load :
  forall pk, ed_from_public_bytes (ed_public_bytes pk) = Ok pk.
Hypothesis signature_verifies :
  forall sk msg, ed_verify (ed_public_key sk) (ed_sign sk msg) msg = true.

(** C9.  A signature that [sign_update] produces for [(seed_id, scalar,
    round_id)] passes the gatekeeper's signature check on an update carrying
    the same three values, under the signer's public key: the verifier
    rebuilds the very bytes that were signed. *)
Theorem sign_then_verify (m : Security.t PrivateKey) (update : ClientUpdate)
  (sid rid : Z) (sc : float) :
  seed_id update = sid -> scalar update = sc -> round_id update = rid ->
  signature update =
    Security.sign_update PrivateKey ed_sign float_repr m sid sc rid ->
  Verifier.check_signature PublicKey ed_from_public_bytes ed_verify float_repr
    update
    (Security.get_public_key_bytes PrivateKey PublicKey ed_public_key
       ed_public_bytes m)
  = Some (Codec.bytes_of_string
            (str_int sid +:+ ":" +:+ float_repr sc +:+ ":" +:+ str_int rid)).
Proof.
  intros <- <- <- Hsig.
  unfold Verifier.check_signature, Security.get_public_key_bytes, Security.public_key.
  rewrite public_bytes_load, Hsig. unfold Security.sign_update.
  now rewrite signature_verifies.
Qed.

End RoundTrip.

Import VerifierProps.

Lemma sign_then_verify_witness :
  ((forall pk, toy_from_public_bytes (toy_public_bytes pk) = Ok pk)
   /\ (forall sk msg, toy_verify sk (toy_sign sk msg) msg = true))
  /\ Verifier.check_signature bool toy_from_public_bytes toy_verify repr_tenth
       (mkUpdate "device1" 7 42 0.1%float 0.5%float
          (Security.sign_update bool toy_sign repr_tenth (Security.mk bool true)
             42 0.1%float 7)
          mock_token)
       (Security.get_public_key_bytes bool bool (fun sk => sk) toy_public_bytes
          (Security.mk bool true))
     = Some spec_payload.
Proof.
  assert (Hload : forall pk, toy_from_public_bytes (toy_public_bytes pk) = Ok pk)
    by (intros []; reflexivity).
  assert (Hver : forall sk msg, toy_verify sk (toy_sign sk msg) msg = true)
    by (intros sk msg; apply bytes_eqb_refl).
  split; [split; assumption|].
  apply (sign_then_verify bool bool toy_sign (fun sk => sk) toy_public_bytes
           toy_from_public_bytes toy_verify repr_tenth Hload Hver
           (Security.mk bool true) _ 42%Z 7%Z 0.1%float); reflexivity.
Defined.

End SecurityProps.

(** ** Store keys and decimal numerals *)

Module KeyProps.

Import Collector.

#[local] Arguments String.append !s1 s2 : simpl nomatch.

(** *** Strings *)

Lemma list_ascii_app (a b : string) :
  list_ascii_of_string (a +:+ b) = list_ascii_of_string a ++ list_ascii_of_string b.
Proof. induction a as [|c a IH]; cbn; [reflexivity | now rewrite IH]. Qed.

Lemma string_of_list_app (a b : list ascii) :
  string_of_list_ascii (a ++ b) = string_of_list_ascii a +:+ string_of_list_ascii b.
Proof. induction a as [|c a IH]; cbn; [reflexivity | now rewrite IH]. Qed.

Lemma rev_string_app (a b : string) :
  rev_string (a +:+ b) = rev_string b +:+ rev_string a.
Proof.
  unfold rev_string. now rewrite list_ascii_app, rev_app_distr, string_of_list_app.
Qed.

Lemma rev_string_involutive (s : string) : rev_string (rev_string s) = s.
Proof.
  unfold rev_string.
  now rewrite list_ascii_of_string_of_list_ascii, rev_involutive,
    string_of_list_ascii_of_string.
Qed.

Lemma rev_string_cons (c : ascii) (s : string) :
  rev_string (String c s) = rev_string s +:+ String c EmptyString.
Proof. unfold rev_string. cbn. now rewrite string_of_list_app. Qed.

Lemma append_inv_tail (a b c : string) : a +:+ c = b +:+ c -> a = b.
Proof.
  intros H. apply (f_equal list_ascii_of_string) in H.
  rewrite !list_ascii_app in H. apply app_inv_tail in H.
  apply (f_equal string_of_list_ascii) in H.
  now rewrite !string_of_list_ascii_of_string in H.
Qed.

Lemma append_assoc (a b c : string) : (a +:+ b) +:+ c = a +:+ (b +:+ c).
Proof. induction a as [|x a IH]; cbn; [reflexivity | now rewrite IH]. Qed.

Lemma prefix_append (p q : string) : String.prefix p (p +:+ q) = true.
Proof.
  induction p as [|c p IH]; cbn; [now destruct q|].
  destruct (ascii_dec c c); [exact IH | congruence].
Qed.

Lemma length_append (a b : string) :
  String.length (a +:+ b) = (String.length a + String.length b)%nat.
Proof. induction a as [|c a IH]; cbn; [reflexivity | now rewrite IH]. Qed.

(** *** Decimal numerals *)

Fixpoint all_digits (s : string) : bool :=
  match s with
  | EmptyString => true
  | String c s' => andb (is_digit c) (all_digits s')
  end.

(** Every character is a digit or the minus sign. *)
Fixpoint numeral_chars (s : string) : bool :=
  match s with
  | EmptyString => true
  | String c s' => andb (orb (is_digit c) (Ascii.eqb c "-")) (numeral_chars s')
  end.

Lemma all_digits_numeral (s : string) : all_digits s = true -> numeral_chars s = true.
Proof.
  induction s as [|c s IH]; [reflexivity|]. cbn. intros H.
  apply andb_true_iff in H as [Hc Hs]. now rewrite Hc, IH.
Qed.

Lemma uint_digits (d : Decimal.uint) : all_digits (NilEmpty.string_of_uint d) = true.
Proof. induction d; cbn; try reflexivity; exact IHd. Qed.

Lemma nilzero_digits (d : Decimal.uint) : all_digits (NilZero.string_of_uint d) = true.
Proof. destruct d; try reflexivity; apply (uint_digits _). Qed.

Lemma str_int_chars (z : Z) : numeral_chars (str_int z) = true.
Proof.
  unfold str_int, NilZero.string_of_int.
  destruct (Z.to_int z) as [d|d]; cbn [numeral_chars];
    now rewrite ?all_digits_numeral by apply nilzero_digits.
Qed.

Lemma to_int_nonnil (z : Z) :
  Z.to_int z <> Decimal.Pos Decimal.Nil /\ Z.to_int z <> Decimal.Neg Decimal.Nil.
Proof.
  destruct z as [|p|p]; cbn; split; try discriminate;
    intros [= H]; now apply (DecimalPos.Unsigned.to_uint_nonnil p).
Qed.

Lemma int_of_string_str_int (z : Z) :
  NilZero.int_of_string (str_int z) = Some (Z.to_int z).
Proof.
  unfold str_int. destruct (to_int_nonnil z). now apply NilZero.isi.
Qed.

Lemma str_int_inj (a b : Z) : str_int a = str_int b -> a = b.
Proof.
  intros H. apply DecimalZ.to_int_inj.
  apply (f_equal NilZero.int_of_string) in H.
  rewrite !int_of_string_str_int in H. congruence.
Qed.

Lemma str_int_nonempty (z : Z) : str_int z <> EmptyString.
Proof.
  intros H. pose proof (int_of_string_str_int z) as Hi. rewrite H in Hi. discriminate.
Qed.

Lemma numeral_not_space (c : ascii) :
  orb (is_digit c) (Ascii.eqb c "-") = true -> is_unicode_space c = false.
Proof.
  intros H. apply orb_true_iff in H as [H|H].
  - unfold is_digit in H. apply andb_true_iff in H as [H1 H2].
    apply Nat.leb_le in H1, H2. unfold is_unicode_space, is_space.
    repeat (apply orb_false_iff; split); try (apply Nat.eqb_neq; lia).
    apply andb_false_iff. right. apply Nat.leb_gt. lia.
  - apply Ascii.eqb_eq in H. subst c. reflexivity.
Qed.

(** Both whitespace classes leave a numeral alone. *)
Definition spares_numerals (space : ascii -> bool) : Prop :=
  forall c, orb (is_digit c) (Ascii.eqb c "-") = true -> space c = false.

Lemma unicode_space_spares : spares_numerals is_unicode_space.
Proof. exact numeral_not_space. Qed.

Lemma space_spares : spares_numerals is_space.
Proof.
  intros c H. apply numeral_not_space in H. unfold is_unicode_space in H.
  now apply orb_false_iff in H as [H _].
Qed.

Lemma lstrip_numeral (space : ascii -> bool) (s : string) :
  spares_numerals space -> numeral_chars s = true -> lstrip space s = s.
Proof.
  intros Hsp. destruct s as [|c s]; [reflexivity|]. cbn [numeral_chars lstrip].
  intros H. apply andb_true_iff in H as [H _]. now rewrite (Hsp c H).
Qed.

Lemma numeral_chars_app (a b : string) :
  numeral_chars (a +:+ b) = andb (numeral_chars a) (numeral_chars b).
Proof. induction a as [|c a IH]; cbn; [reflexivity | now rewrite IH, andb_assoc]. Qed.

Lemma numeral_chars_rev (s : string) :
  numeral_chars s = true -> numeral_chars (rev_string s) = true.
Proof.
  induction s as [|c s IH]; [reflexivity|]. cbn [numeral_chars]. intros H.
  apply andb_true_iff in H as [Hc Hs].
  rewrite rev_string_cons, numeral_chars_app, IH by exact Hs. cbn. now rewrite Hc.
Qed.

Lemma strip_numeral (space : ascii -> bool) (s : string) :
  spares_numerals space -> numeral_chars s = true -> strip space s = s.
Proof.
  intros Hsp H. unfold strip.
  rewrite (lstrip_numeral space s Hsp H),
    (lstrip_numeral space _ Hsp (numeral_chars_rev s H)).
  apply rev_string_involutive.
Qed.

Lemma literal_digits_all (s : string) : forall prev,
  all_digits s = true -> s <> EmptyString \/ prev = true ->
  literal_digits s prev = Some s.
Proof.
  induction s as [|c s IH]; intros prev Hs Hne; cbn.
  - destruct Hne as [Hne | ->]; [congruence | reflexivity].
  - cbn in Hs. apply andb_true_iff in Hs as [Hc Hs]. rewrite Hc.
    now rewrite (IH true Hs) by now right.
Qed.

Lemma digit_not_sign (c : ascii) :
  is_digit c = true -> Ascii.eqb c "-" = false /\ Ascii.eqb c "+" = false.
Proof.
  intros H. split; apply Ascii.eqb_neq; intros ->; vm_compute in H; discriminate H.
Qed.

Lemma int_literal_str_int (z : Z) : int_literal (str_int z) = Ok z.
Proof.
  rewrite <- (DecimalZ.of_to z) at 2. unfold str_int.
  destruct (to_int_nonnil z) as [Hp Hn].
  destruct (Z.to_int z) as [d|d]; cbn [NilZero.string_of_int Z.of_int].
  - assert (Hd : d <> Decimal.Nil) by congruence.
    pose proof (nilzero_digits d) as Hall. pose proof (NilZero.usu d Hd) as Hu.
    destruct (NilZero.string_of_uint d) as [|c s] eqn:Hs; [discriminate|].
    unfold int_literal. cbn in Hall. apply andb_true_iff in Hall as [Hc Hrest].
    destruct (digit_not_sign c Hc) as [-> ->].
    rewrite literal_digits_all; [now rewrite Hu | cbn; now rewrite Hc | now left].
  - assert (Hd : d <> Decimal.Nil) by congruence.
    pose proof (nilzero_digits d) as Hall. pose proof (NilZero.usu d Hd) as Hu.
    unfold int_literal. cbn [Ascii.eqb Bool.eqb].
    assert (Hne : NilZero.string_of_uint d <> EmptyString)
      by (intros H; rewrite H in Hu; discriminate).
    rewrite literal_digits_all; [now rewrite Hu | exact Hall | now left].
Qed.

(** [int(str(z)) == z], for the text and for its bytes. *)
Lemma int_of_str_str_int (z : Z) : int_of_str (str_int z) = Ok z.
Proof.
  unfold int_of_str.
  rewrite (strip_numeral _ _ unicode_space_spares (str_int_chars z)).
  apply int_literal_str_int.
Qed.

Lemma int_of_bytes_str_int (z : Z) : int_of_bytes (str_int z) = Ok z.
Proof.
  unfold int_of_bytes.
  rewrite (strip_numeral _ _ space_spares (str_int_chars z)).
  apply int_literal_str_int.
Qed.

Lemma redis_int_str_int (z : Z) : redis_int (str_int z) = Some z.
Proof.
  unfold redis_int. rewrite int_of_string_str_int, DecimalZ.of_to.
  now rewrite String.eqb_refl.
Qed.

Lemma count_of_str_int (z : Z) : count_of (Some (str_int z)) = Ok z.
Proof.
  unfold count_of. pose proof (str_int_nonempty z) as Hne.
  pose proof (int_of_bytes_str_int z) as Hi.
  destruct (str_int z); [congruence | exact Hi].
Qed.

(** *** Keys *)

Fixpoint last_ascii (s : string) : ascii :=
  match s with
  | EmptyString => Ascii.zero
  | String c EmptyString => c
  | String _ s' => last_ascii s'
  end.

Lemma last_ascii_app (a b : string) :
  b <> EmptyString -> last_ascii (a +:+ b) = last_ascii b.
Proof.
  intros Hb. induction a as [|c a IH]; [reflexivity|].
  cbn [String.append last_ascii]. rewrite IH.
  destruct (a +:+ b) eqn:Hab; [|reflexivity].
  destruct a; cbn in Hab; congruence.
Qed.

Lemma updates_ne_count (r r' : Z) : updates_key r <> count_key r'.
Proof.
  intros H. apply (f_equal last_ascii) in H. unfold updates_key, count_key in H.
  rewrite <- !append_assoc, !last_ascii_app in H by discriminate. discriminate.
Qed.

Lemma count_key_inj (r r' : Z) : count_key r = count_key r' -> r = r'.
Proof.
  unfold count_key. intros H. cbn [String.append] in H.
  injection H as H. now apply append_inv_tail, str_int_inj in H.
Qed.

Lemma updates_key_inj (r r' : Z) : updates_key r = updates_key r' -> r = r'.
Proof.
  unfold updates_key. intros H. cbn [String.append] in H.
  injection H as H. now apply append_inv_tail, str_int_inj in H.
Qed.

Lemma no_colon (s : string) :
  numeral_chars s = true ->
  forall cur b,
    split_on ":"%char (s +:+ String ":"%char b) cur =
    (rev_string cur +:+ s) :: split_on ":"%char b EmptyString.
Proof.
  induction s as [|c s IH]; intros Hs cur b.
  - cbn. f_equal. induction (rev_string cur); cbn; congruence.
  - cbn [numeral_chars] in Hs. apply andb_true_iff in Hs as [Hc Hs].
    cbn [String.append split_on].
    replace (Ascii.eqb c ":") with false.
    + rewrite IH by exact Hs. f_equal.
      rewrite rev_string_cons, append_assoc. reflexivity.
    + symmetry. apply Ascii.eqb_neq. intros ->. discriminate.
Qed.

(** The round a counter key names is read back from it. *)
Lemma parse_round_count_key (r : Z) : parse_round (count_key r) = Ok r.
Proof.
  unfold parse_round, count_key, split. cbn [String.append].
  cbn -[String.append str_int int_of_str index rev_string].
  cbn [rev_string list_ascii_of_string List.rev app string_of_list_ascii].
  change (str_int r +:+ ":count") with (str_int r +:+ String ":"%char "count").
  rewrite (no_colon _ (str_int_chars r)). cbn [index nth_error bind rev_string
    list_ascii_of_string List.rev string_of_list_ascii String.append].
  apply int_of_str_str_int.
Qed.

Lemma glob_match_count_key (r : Z) : glob_match (count_key r) = true.
Proof.
  unfold glob_match, count_key, has_suffix.
  rewrite prefix_append.
  rewrite <- append_assoc, rev_string_app.
  change (rev_string ":count") with ("tnuoc:"%string) at 2.
  rewrite prefix_append, !length_append. cbn [andb String.length].
  apply Nat.leb_le.
  pose proof (str_int_nonempty r). destruct (str_int r); [congruence|cbn; lia].
Qed.

End KeyProps.

(** ** The round collector *)

Module CollectorProps.

Import Collector KeyProps.

Local Open Scope Z_scope.

(** *** The store as a family of rounds *)

(** The staged updates of a round, and how many there are. *)
Definition items (st : gmap string rval) (rid : Z) : list (list byte) :=
  match st !! updates_key rid with
  | Some (RList l) => l
  | _ => []
  end.

Definition pending (st : gmap string rval) (rid : Z) : Z :=
  Z.of_nat (List.length (items st rid)).

(** Writing a round's list with its counter, and deleting both. *)
Definition put (st : gmap string rval) (rid : Z) (l : list (list byte))
  : gmap string rval :=
  <[count_key rid := RStr (str_int (Z.of_nat (List.length l)))]>
    (<[updates_key rid := RList l]> st).

Definition drop (st : gmap string rval) (rid : Z) : gmap string rval :=
  delete (count_key rid) (delete (updates_key rid) st).

Lemma occurrences_snoc (rid x : Z) (l : list Z) :
  occurrences rid (l ++ [x]) = occurrences rid l + (if rid =? x then 1 else 0).
Proof.
  unfold occurrences. rewrite List.filter_app, List.length_app. cbn [List.filter].
  destruct (rid =? x); cbn [List.length]; lia.
Qed.

Lemma occurrences_nonneg (rid : Z) (l : list Z) : 0 <= occurrences rid l.
Proof. unfold occurrences. lia. Qed.

Lemma pending_nonneg (st : gmap string rval) (rid : Z) : 0 <= pending st rid.
Proof. unfold pending. lia. Qed.

Ltac keys_differ :=
  match goal with
  | H : updates_key _ = count_key _ |- _ => now apply updates_ne_count in H
  | H : count_key _ = updates_key _ |- _ => symmetry in H; now apply updates_ne_count in H
  | H : count_key ?a = count_key ?b |- _ => apply count_key_inj in H; congruence
  | H : updates_key ?a = updates_key ?b |- _ => apply updates_key_inj in H; congruence
  end.

Lemma lookup_put_updates (st : gmap string rval) (rid r : Z) (l : list (list byte)) :
  put st rid l !! updates_key r =
  if decide (r = rid) then Some (RList l) else st !! updates_key r.
Proof.
  unfold put. rewrite lookup_insert_ne by (intros H; keys_differ).
  destruct (decide (r = rid)) as [->|Hne].
  - apply lookup_insert_eq.
  - apply lookup_insert_ne. intros H. keys_differ.
Qed.

Lemma lookup_put_count (st : gmap string rval) (rid r : Z) (l : list (list byte)) :
  put st rid l !! count_key r =
  if decide (r = rid) then Some (RStr (str_int (Z.of_nat (List.length l))))
  else st !! count_key r.
Proof.
  unfold put. destruct (decide (r = rid)) as [->|Hne].
  - apply lookup_insert_eq.
  - rewrite lookup_insert_ne by (intros H; keys_differ).
    apply lookup_insert_ne. intros H. keys_differ.
Qed.

Lemma lookup_drop_updates (st : gmap string rval) (rid r : Z) :
  drop st rid !! updates_key r =
  if decide (r = rid) then None else st !! updates_key r.
Proof.
  unfold drop. rewrite lookup_delete_ne by (intros H; keys_differ).
  destruct (decide (r = rid)) as [->|Hne].
  - apply lookup_delete_eq.
  - apply lookup_delete_ne. intros H. keys_differ.
Qed.

Lemma lookup_drop_count (st : gmap string rval) (rid r : Z) :
  drop st rid !! count_key r =
  if decide (r = rid) then None else st !! count_key r.
Proof.
  unfold drop. destruct (decide (r = rid)) as [->|Hne].
  - apply lookup_delete_eq.
  - rewrite lookup_delete_ne by (intros H; keys_differ).
    apply lookup_delete_ne. intros H. keys_differ.
Qed.

Lemma items_put (st : gmap string rval) (rid r : Z) (l : list (list byte)) :
  items (put st rid l) r = if decide (r = rid) then l else items st r.
Proof. unfold items. rewrite lookup_put_updates. now destruct (decide (r = rid)). Qed.

Lemma items_drop (st : gmap string rval) (rid r : Z) :
  items (drop st rid) r = if decide (r = rid) then [] else items st r.
Proof. unfold items. rewrite lookup_drop_updates. now destruct (decide (r = rid)). Qed.

Section Invariant.

Variable serialize : ClientUpdate -> list byte.
Variable parse : list byte -> result ClientUpdate.
Variable k_threshold : Z.

(** What the class's own serializer writes, its parser reads. *)
Hypothesis parse_serialize : forall u, is_ok (parse (serialize u)) = true.

Local Abbreviation step := (step serialize parse k_threshold).
Local Abbreviation run := (run serialize parse k_threshold).
Local Abbreviation submit_update := (submit_update serialize).

Definition parsable (l : list (list byte)) : Prop :=
  Forall (fun data => is_ok (parse data) = true) l.

(** A round is either absent from the store, or staged: a non-empty list of
    parsable updates under its list key and their number under its counter
    key. *)
Definition round_ok (st : gmap string rval) (rid : Z) : Prop :=
  match st !! updates_key rid, st !! count_key rid with
  | None, None => True
  | Some (RList l), Some (RStr c) =>
      l <> [] /\ c = str_int (Z.of_nat (List.length l)) /\ parsable l
  | _, _ => False
  end.

Definition keys_ok (st : gmap string rval) : Prop :=
  forall key, is_Some (st !! key) ->
              exists rid, key = updates_key rid \/ key = count_key rid.

Definition store_ok (st : gmap string rval) : Prop :=
  keys_ok st /\ forall rid, round_ok st rid.

Lemma store_ok_empty : store_ok ∅.
Proof.
  split.
  - intros key [v Hv]. now rewrite lookup_empty in Hv.
  - intros rid. unfold round_ok. now rewrite !lookup_empty.
Qed.

Lemma put_ok (st : gmap string rval) (rid : Z) (l : list (list byte)) :
  store_ok st -> l <> [] -> parsable l -> store_ok (put st rid l).
Proof.
  intros [Hkeys Hrounds] Hne Hparse. split.
  - intros key [v Hv]. unfold put in Hv.
    destruct (decide (key = count_key rid)) as [->|H1]; [eauto|].
    rewrite lookup_insert_ne in Hv by congruence.
    destruct (decide (key = updates_key rid)) as [->|H2]; [eauto|].
    rewrite lookup_insert_ne in Hv by congruence. apply Hkeys. eauto.
  - intros r. unfold round_ok. rewrite lookup_put_updates, lookup_put_count.
    destruct (decide (r = rid)); [auto | apply Hrounds].
Qed.

Lemma drop_ok (st : gmap string rval) (rid : Z) : store_ok st -> store_ok (drop st rid).
Proof.
  intros [Hkeys Hrounds]. split.
  - intros key [v Hv]. unfold drop in Hv.
    apply lookup_delete_Some in Hv as [_ Hv].
    apply lookup_delete_Some in Hv as [_ Hv]. apply Hkeys. eauto.
  - intros r. unfold round_ok. rewrite lookup_drop_updates, lookup_drop_count.
    destruct (decide (r = rid)); [auto | apply Hrounds].
Qed.

Lemma items_parsable (st : gmap string rval) (rid : Z) :
  store_ok st -> parsable (items st rid).
Proof.
  intros [_ Hrounds]. specialize (Hrounds rid). unfold round_ok, items in *.
  destruct (st !! updates_key rid) as [[l|c]|]; try constructor.
  destruct (st !! count_key rid) as [[|]|]; try tauto.
Qed.

(** *** The two pipelines on a well-formed store *)

Lemma submit_update_store (st : gmap string rval) (u : ClientUpdate) :
  store_ok st ->
  submit_update true st u =
  (true, put st (round_id u) (serialize u :: items st (round_id u))).
Proof.
  intros [_ Hrounds]. specialize (Hrounds (round_id u)).
  unfold Collector.submit_update, submit_commands, pipeline_execute, round_ok, items in *.
  cbn [exec_all exec].
  destruct (st !! updates_key (round_id u)) as [[l|c]|] eqn:Hu;
    destruct (st !! count_key (round_id u)) as [[l'|c']|] eqn:Hc; try tauto.
  - destruct Hrounds as (_ & -> & _).
    rewrite lookup_insert_ne by (intros H; keys_differ). rewrite Hc.
    rewrite redis_int_str_int. cbn [is_ok andb].
    unfold put.
    replace (Z.of_nat (List.length (serialize u :: l)))
      with (Z.of_nat (List.length l) + 1) by (cbn [List.length]; lia).
    reflexivity.
  - rewrite lookup_insert_ne by (intros H; keys_differ). rewrite Hc.
    cbn [is_ok andb]. reflexivity.
Qed.

Lemma cleanup_store (st : gmap string rval) (rid : Z) :
  pipeline_execute true st [Del (updates_key rid); Del (count_key rid)] =
  (Ok tt, drop st rid).
Proof.
  unfold pipeline_execute, drop. cbn [exec_all exec].
  destruct (st !! updates_key rid) eqn:Hu.
  - destruct (delete (updates_key rid) st !! count_key rid) eqn:Hc; cbn [is_ok andb].
    + reflexivity.
    + now rewrite (delete_id _ _ Hc).
  - rewrite (delete_id _ _ Hu).
    destruct (st !! count_key rid) eqn:Hc; cbn [is_ok andb].
    + reflexivity.
    + now rewrite (delete_id _ _ Hc).
Qed.

(** What the worker reads under a key never exceeds what is staged for the
    round it takes the key to name. *)
Lemma count_read_bound (st : gmap string rval) (key : string) (rid count : Z)
  (value : option string) :
  store_ok st ->
  parse_round key = Ok rid -> get st key = Ok value -> count_of value = Ok count ->
  count <= pending st rid
  /\ (st !! key <> None -> key = count_key rid /\ count = pending st rid).
Proof.
  intros [Hkeys Hrounds] Hparse Hget Hcount. unfold get in Hget.
  destruct (st !! key) as [[l|c]|] eqn:Hk; try discriminate.
  - injection Hget as <-.
    destruct (Hkeys key) as [r [-> | ->]]; [eauto | |].
    + specialize (Hrounds r). unfold round_ok in Hrounds. rewrite Hk in Hrounds.
      tauto.
    + rewrite parse_round_count_key in Hparse. injection Hparse as ->.
      specialize (Hrounds rid). unfold round_ok in Hrounds. rewrite Hk in Hrounds.
      unfold pending, items.
      destruct (st !! updates_key rid) as [[l|c']|]; try tauto.
      destruct Hrounds as (_ & -> & _).
      rewrite count_of_str_int in Hcount. injection Hcount as <-.
      split; [lia | auto].
  - injection Hget as <-. cbn in Hcount. injection Hcount as <-.
    split; [apply pending_nonneg | congruence].
Qed.

(** *** The invariant of the collector *)

Definition in_flight (rid : Z) (w : worker) : Z :=
  match w with
  | Scanning _ => 0
  | Triggered r _ | Loaded r _ _ => if rid =? r then 1 else 0
  end.

Definition quorum_held (st : gmap string rval) (w : worker) : Prop :=
  match w with
  | Scanning _ => True
  | Triggered r _ | Loaded r _ _ => k_threshold <= pending st r
  end.

(** The store is well formed; each completed aggregation of a round used up
    a quorum of its accepted submissions, and what is staged is accepted too;
    every invocation is completed or is the one in flight; the round in
    flight holds a quorum; every invocation read a counter at the quorum. *)
Definition inv (s : sys) : Prop :=
  store_ok (store s)
  /\ (forall rid,
        k_threshold * completions rid s + pending (store s) rid <= submissions rid s)
  /\ (forall rid, invocations rid s = completions rid s + in_flight rid (task s))
  /\ quorum_held (store s) (task s)
  /\ Forall (fun e => k_threshold <= snd e) (invoked s).

Lemma inv_initial : inv initial.
Proof.
  split; [apply store_ok_empty|]. repeat split; cbn; try constructor.
  intros rid. unfold pending, items, completions, submissions, occurrences.
  rewrite lookup_empty. cbn. lia.
Qed.

Lemma parse_all_ok (l : list (list byte)) :
  parsable l -> exists us, parse_all parse l = Ok us.
Proof.
  induction 1 as [|data l Hd _ [us IH]]; cbn; [eauto|].
  destruct (parse data); [|discriminate]. rewrite IH. cbn. eauto.
Qed.

Lemma lrange_all_items (st : gmap string rval) (rid : Z) :
  store_ok st -> lrange_all st (updates_key rid) = Ok (items st rid).
Proof.
  intros [_ Hrounds]. specialize (Hrounds rid). unfold round_ok, lrange_all, items in *.
  destruct (st !! updates_key rid) as [[l|c]|]; tauto.
Qed.

Lemma pending_put (st : gmap string rval) (rid r : Z) (l : list (list byte)) :
  pending (put st rid l) r =
  if decide (r = rid) then Z.of_nat (List.length l) else pending st r.
Proof. unfold pending. rewrite items_put. now destruct (decide (r = rid)). Qed.

Lemma pending_drop (st : gmap string rval) (rid r : Z) :
  pending (drop st rid) r = if decide (r = rid) then 0 else pending st r.
Proof. unfold pending. rewrite items_drop. now destruct (decide (r = rid)). Qed.

Lemma inv_submit (s : sys) (u : ClientUpdate) :
  inv s ->
  step (ASubmit u) s =
    Some (mkSys (put (store s) (round_id u) (serialize u :: items (store s) (round_id u)))
            (task s) (accepted s ++ [round_id u]) (invoked s) (completed s))
  /\ forall s', step (ASubmit u) s = Some s' -> inv s'.
Proof.
  intros (Hst & Hled & Hinv & Hq & Hall).
  assert (Hstep : step (ASubmit u) s =
            Some (mkSys (put (store s) (round_id u)
                           (serialize u :: items (store s) (round_id u)))
                    (task s) (accepted s ++ [round_id u]) (invoked s) (completed s))).
  { unfold Collector.step. now rewrite (submit_update_store _ _ Hst). }
  split; [exact Hstep|]. intros s'. rewrite Hstep. intros [= <-].
  split; [|split; [|split; [|split]]]; cbn [store task accepted invoked completed].
  - apply put_ok; [exact Hst | discriminate |].
    constructor; [apply parse_serialize | now apply items_parsable].
  - intros rid. unfold submissions, completions in *.
    cbn [accepted completed]. rewrite occurrences_snoc, pending_put.
    specialize (Hled rid).
    destruct (decide (rid = round_id u)) as [->|Hne].
    + rewrite Z.eqb_refl. unfold pending in Hled. cbn [List.length]. lia.
    + destruct (Z.eqb_spec rid (round_id u)); [congruence|]. lia.
  - exact Hinv.
  - destruct (task s); cbn [quorum_held] in *; try exact I;
      rewrite pending_put; destruct (decide _) as [->|]; try assumption;
      unfold pending in Hq; cbn [List.length]; lia.
  - exact Hall.
Qed.

Lemma inv_rescan (s : sys) (keys keys' : list string) :
  inv s -> task s = Scanning keys ->
  inv (mkSys (store s) (Scanning keys') (accepted s) (invoked s) (completed s)).
Proof.
  intros (Hst & Hled & Hinv & Hq & Hall) Ht.
  split; [exact Hst|]. split; [exact Hled|]. split; [|split; [exact I | exact Hall]].
  intros rid. specialize (Hinv rid). rewrite Ht in Hinv. exact Hinv.
Qed.

Lemma inv_step (a : action) (s s' : sys) : inv s -> step a s = Some s' -> inv s'.
Proof.
  intros Hs Hstep. destruct a as [u|keys| | |].
  - now apply (proj2 (inv_submit s u Hs)).
  - unfold Collector.step in Hstep.
    destruct (task s) as [[|k ks]| |] eqn:Ht; try discriminate.
    destruct (forallb _ keys); [|discriminate]. injection Hstep as <-.
    now apply (inv_rescan s []).
  - unfold Collector.step in Hstep.
    destruct (task s) as [[|key rest]| |] eqn:Ht; try discriminate.
    assert (Hsame : forall keys',
              inv (mkSys (store s) (Scanning keys') (accepted s) (invoked s)
                     (completed s)))
      by (intros keys'; now apply (inv_rescan s (key :: rest))).
    destruct Hs as (Hst & Hled & Hinv & Hq & Hall).
    destruct (parse_round key) as [rid|] eqn:Hp; [|injection Hstep as <-; apply Hsame].
    destruct (get (store s) key) as [value|] eqn:Hg;
      [|injection Hstep as <-; apply Hsame].
    destruct (count_of value) as [count|] eqn:Hc;
      [|injection Hstep as <-; apply Hsame].
    destruct (Z.leb_spec k_threshold count) as [Hk|Hk];
      [|injection Hstep as <-; apply Hsame].
    injection Hstep as <-.
    destruct (count_read_bound _ _ _ _ _ Hst Hp Hg Hc) as [Hbound _].
    split; [exact Hst|]. split; [exact Hled|].
    split; [|split]; cbn [store task accepted invoked completed].
    + intros r. unfold invocations, completions in *. cbn [invoked completed].
      rewrite List.map_app. cbn [List.map fst]. rewrite occurrences_snoc.
      rewrite Hinv, Ht. cbn [in_flight]. destruct (r =? rid); lia.
    + cbn [quorum_held]. lia.
    + apply Forall_app. split; [exact Hall|]. now repeat constructor.
  - destruct Hs as (Hst & Hled & Hinv & Hq & Hall).
    unfold Collector.step in Hstep.
    destruct (task s) as [| rid rest |] eqn:Ht; try discriminate.
    rewrite (lrange_all_items _ _ Hst) in Hstep.
    destruct (parse_all_ok _ (items_parsable _ rid Hst)) as [us Hus].
    rewrite Hus in Hstep. injection Hstep as <-.
    split; [exact Hst|]. split; [exact Hled|].
    split; [|split; [exact Hq | exact Hall]].
    intros r. exact (Hinv r).
  - destruct Hs as (Hst & Hled & Hinv & Hq & Hall).
    unfold Collector.step in Hstep.
    destruct (task s) as [| | rid ups rest] eqn:Ht; try discriminate.
    rewrite cleanup_store in Hstep. injection Hstep as <-.
    cbn [quorum_held] in Hq.
    split; [|split; [|split; [|split]]]; cbn [store task accepted invoked completed].
    + now apply drop_ok.
    + intros r. unfold submissions, completions in *. cbn [accepted completed].
      rewrite occurrences_snoc, pending_drop. specialize (Hled r).
      destruct (decide (r = rid)) as [->|Hne].
      * rewrite Z.eqb_refl. lia.
      * destruct (Z.eqb_spec r rid); [congruence|]. lia.
    + intros r. unfold invocations, completions in *. cbn [invoked completed].
      rewrite occurrences_snoc, Hinv. cbn [in_flight]. destruct (r =? rid); lia.
    + exact I.
    + exact Hall.
Qed.

Lemma inv_run (acts : list action) : forall s s',
  inv s -> run acts s = Some s' -> inv s'.
Proof.
  induction acts as [|a acts IH]; intros s s' Hs Hrun; cbn in Hrun.
  - now injection Hrun as <-.
  - destruct (step a s) as [s1|] eqn:Hstep; [|discriminate].
    eapply IH; [|exact Hrun]. eapply inv_step; eauto.
Qed.

(** A visit of the worker to a staged round that holds a quorum. *)
Lemma poll_round_runs (s : sys) (rid : Z) :
  inv s -> task s = Scanning [] ->
  1 <= pending (store s) rid -> k_threshold <= pending (store s) rid ->
  run (poll_round rid) s =
  Some (mkSys (drop (store s) rid) (Scanning []) (accepted s)
          (invoked s ++ [(rid, pending (store s) rid)]) (completed s ++ [rid])).
Proof.
  intros (Hst & Hled & Hinv & Hq & Hall) Ht Hone Hk.
  assert (Hcount : store s !! count_key rid
                   = Some (RStr (str_int (pending (store s) rid)))).
  { destruct Hst as [_ Hrounds]. specialize (Hrounds rid).
    unfold round_ok, pending, items in *.
    destruct (store s !! updates_key rid) as [[l|c]|]; cbn in Hone; try lia.
    destruct (store s !! count_key rid) as [[l'|c]|]; try tauto.
    now destruct Hrounds as (_ & -> & _). }
  destruct (parse_all_ok _ (items_parsable _ rid Hst)) as [ups Hups].
  unfold poll_round. cbn [Collector.run].
  unfold Collector.step at 1. rewrite Ht. cbn [forallb].
  rewrite glob_match_count_key. unfold present. rewrite Hcount. cbn [andb].
  unfold Collector.step at 1. cbn [task store accepted invoked completed].
  rewrite parse_round_count_key. unfold get. rewrite Hcount, count_of_str_int.
  destruct (Z.leb_spec k_threshold (pending (store s) rid)); [|lia].
  unfold Collector.step at 1. cbn [task store accepted invoked completed].
  rewrite (lrange_all_items _ _ Hst), Hups.
  unfold Collector.step at 1. cbn [task store accepted invoked completed].
  rewrite cleanup_store. reflexivity.
Qed.

(** *** The quorum trigger *)

Lemma counter_is_pending (s : sys) (rid n : Z) :
  inv s -> store s !! count_key rid = Some (RStr (str_int n)) ->
  n = pending (store s) rid /\ 1 <= n.
Proof.
  intros ([_ Hrounds] & _) Hc. specialize (Hrounds rid).
  unfold round_ok, pending, items in *. rewrite Hc in Hrounds.
  destruct (store s !! updates_key rid) as [[l|c]|]; try tauto.
  destruct Hrounds as (Hne & Hn & _). apply str_int_inj in Hn. subst n.
  split; [reflexivity|]. destruct l; [congruence | cbn; lia].
Qed.

(** C7 (amended).  Along every interleaving of accepted submissions with the
    worker's store calls, for every round [r]:
    the worker invokes aggregation only on reading a counter that has
    reached the quorum [K];
    [K] times the number of invocations for [r] never exceeds the number of
    accepted submissions for [r], so that with fewer than [K] accepted
    submissions none is invoked and with fewer than [2K] at most one
    (further quorums of submissions to the same round are aggregated again);
    at most one invocation for [r] is in flight;
    when an aggregation completes, both the list key and the counter key of
    [r] are deleted;
    and a visit of the idle worker to a counter at the quorum invokes the
    aggregation of [r] once and deletes both keys. *)
Theorem quorum_trigger (acts : list action) (s : sys) (rid : Z) :
  run acts initial = Some s ->
  Forall (fun e => k_threshold <= snd e) (invoked s)
  /\ k_threshold * invocations rid s <= submissions rid s
  /\ (0 < k_threshold -> submissions rid s < k_threshold -> invocations rid s = 0)
  /\ (0 < k_threshold -> submissions rid s < 2 * k_threshold ->
      invocations rid s <= 1)
  /\ completions rid s <= invocations rid s <= completions rid s + 1
  /\ (forall ups rest s',
        task s = Loaded rid ups rest -> step ACleanup s = Some s' ->
        store s' !! updates_key rid = None
        /\ store s' !! count_key rid = None
        /\ completions rid s' = completions rid s + 1)
  /\ (forall n,
        task s = Scanning [] ->
        store s !! count_key rid = Some (RStr (str_int n)) ->
        k_threshold <= n ->
        exists s',
          run (poll_round rid) s = Some s'
          /\ invocations rid s' = invocations rid s + 1
          /\ completions rid s' = completions rid s + 1
          /\ store s' !! updates_key rid = None
          /\ store s' !! count_key rid = None).
Proof.
  intros Hrun. pose proof (inv_run acts _ _ inv_initial Hrun) as Hs.
  pose proof Hs as (Hst & Hled & Hinv & Hq & Hall).
  assert (Hflight : 0 <= in_flight rid (task s) <= 1
                    /\ (in_flight rid (task s) = 1 -> k_threshold <= pending (store s) rid)).
  { destruct (task s) as [keys|r keys|r ups keys]; cbn [in_flight quorum_held] in *;
      try (split; [lia | intros; lia]);
      destruct (Z.eqb_spec rid r) as [->|]; split; try lia; auto; intros; lia. }
  destruct Hflight as [Hf01 Hfk].
  pose proof (Hled rid) as Hl. pose proof (Hinv rid) as Hi.
  pose proof (pending_nonneg (store s) rid) as Hp.
  pose proof (occurrences_nonneg rid (completed s)) as Hc0.
  fold (completions rid s) in Hc0.
  assert (Hbound : k_threshold * invocations rid s <= submissions rid s).
  { rewrite Hi. destruct (Z.eq_dec (in_flight rid (task s)) 1) as [H1|H1].
    - rewrite H1. specialize (Hfk H1). lia.
    - assert (in_flight rid (task s) = 0) as -> by lia. lia. }
  split; [exact Hall|]. split; [exact Hbound|].
  split; [intros; nia|]. split; [intros; nia|]. split; [lia|]. split.
  - intros ups rest s' Ht Hstep. unfold Collector.step in Hstep. rewrite Ht in Hstep.
    rewrite cleanup_store in Hstep. injection Hstep as <-.
    cbn [store]. rewrite lookup_drop_updates, lookup_drop_count.
    destruct (decide (rid = rid)); [|congruence]. repeat split.
    unfold completions. cbn [completed]. rewrite occurrences_snoc, Z.eqb_refl. lia.
  - intros n Ht Hcount Hk.
    destruct (counter_is_pending s rid n Hs Hcount) as [-> Hone].
    eexists. split; [apply (poll_round_runs s rid Hs Ht Hone Hk)|].
    unfold invocations, completions. cbn [invoked completed store].
    rewrite List.map_app. cbn [List.map fst].
    rewrite !occurrences_snoc, Z.eqb_refl, lookup_drop_updates, lookup_drop_count.
    destruct (decide (rid = rid)); [|congruence]. repeat split; lia.
Qed.

End Invariant.

(** *** Submission checks nothing *)

(** Two updates that agree on everything but the signature and the
    attestation token. *)
Definition same_but_credentials (u1 u2 : ClientUpdate) : Prop :=
  device_id u1 = device_id u2 /\ round_id u1 = round_id u2
  /\ seed_id u1 = seed_id u2 /\ scalar u1 = scalar u2 /\ loss u1 = loss u2.

Definition accepts_lpush (st : gmap string rval) (key : string) : bool :=
  match st !! key with Some (RStr _) => false | _ => true end.

Definition accepts_incr (st : gmap string rval) (key : string) : bool :=
  match st !! key with
  | None => true
  | Some (RStr c) => match redis_int c with Some _ => true | None => false end
  | Some (RList _) => false
  end.

Lemma submit_update_flag (serialize : ClientUpdate -> list byte) (conn : bool)
  (st : gmap string rval) (u : ClientUpdate) :
  fst (submit_update serialize conn st u) =
  andb conn (andb (accepts_lpush st (updates_key (round_id u)))
                  (accepts_incr st (count_key (round_id u)))).
Proof.
  unfold submit_update, pipeline_execute, submit_commands, accepts_lpush, accepts_incr.
  destruct conn; [|reflexivity]. cbn [exec_all exec andb].
  destruct (st !! updates_key (round_id u)) as [[l|c]|] eqn:Hu;
    try rewrite lookup_insert_ne by (intros H; keys_differ);
    destruct (st !! count_key (round_id u)) as [[l'|c']|] eqn:Hc;
    try destruct (redis_int c'); reflexivity.
Qed.

(** C8 (amended).  [submit_update] verifies nothing: for two updates that
    differ only in signature and attestation token it queues the same two
    commands on the same keys, the pushed element being each update's own
    serialization; it returns the same flag for both, [True] exactly when the
    atomic append-plus-increment succeeds; and the store writes coincide
    whenever the two serializations do. *)
Theorem submit_update_ignores_credentials (serialize : ClientUpdate -> list byte)
  (conn : bool) (st : gmap string rval) (u1 u2 : ClientUpdate) :
  same_but_credentials u1 u2 ->
  submit_commands serialize u1 =
    [LPush (updates_key (round_id u1)) (serialize u1); Incr (count_key (round_id u1))]
  /\ submit_commands serialize u2 =
       [LPush (updates_key (round_id u1)) (serialize u2); Incr (count_key (round_id u1))]
  /\ fst (submit_update serialize conn st u1) = fst (submit_update serialize conn st u2)
  /\ (fst (submit_update serialize conn st u1) = true <->
      fst (pipeline_execute conn st (submit_commands serialize u1)) = Ok tt)
  /\ (serialize u1 = serialize u2 ->
      submit_update serialize conn st u1 = submit_update serialize conn st u2).
Proof.
  intros (_ & Hr & _). split; [reflexivity|].
  split; [unfold submit_commands; now rewrite Hr|].
  split; [now rewrite !submit_update_flag, Hr|]. split.
  - unfold submit_update.
    destruct (pipeline_execute conn st (submit_commands serialize u1)) as [[[]|e] st'];
      cbn [fst]; split; congruence.
  - intros Hser. unfold submit_update, submit_commands. now rewrite Hser, Hr.
Qed.

(** *** Concrete runs *)

(** The fallback update class of the source: [SerializeToString] returns the
    empty byte string and [ParseFromString] does nothing. *)
Definition stub_serialize (u : ClientUpdate) : list byte := [].

Definition stub_parse (data : list byte) : result ClientUpdate :=
  Ok (mkUpdate "" 0 0 0%float 0%float [] []).

(** A serializer that writes the identifiers and the credentials, as a
    message class that encodes every field does. *)
Definition wire_serialize (u : ClientUpdate) : list byte :=
  Codec.bytes_of_string
    (device_id u +:+ ":" +:+ str_int (round_id u) +:+ ":" +:+ str_int (seed_id u) +:+ ":")
  ++ signature u ++ attestation_token u.

Definition genuine : ClientUpdate :=
  mkUpdate "device1" 1 42 0.5%float 0.25%float
    (Codec.bytes_of_string "signature-by-the-device") (Codec.bytes_of_string "token").

Definition forged : ClientUpdate :=
  mkUpdate "device1" 1 42 0.5%float 0.25%float
    (Codec.bytes_of_string "not-a-signature") (Codec.bytes_of_string "token").

Lemma submit_update_ignores_credentials_witness :
  same_but_credentials genuine forged
  /\ fst (submit_update stub_serialize true ∅ genuine)
     = fst (submit_update stub_serialize true ∅ forged)
  /\ submit_update stub_serialize true ∅ genuine
     = submit_update stub_serialize true ∅ forged.
Proof.
  assert (Hsame : same_but_credentials genuine forged) by (repeat split).
  split; [exact Hsame|].
  destruct (submit_update_ignores_credentials stub_serialize true ∅ genuine forged Hsame)
    as (_ & _ & Hflag & _ & Hstore).
  split; [exact Hflag | apply Hstore; reflexivity].
Defined.

(** C8 as stated fails: with a serializer that encodes the credentials, the
    two submissions are both accepted and write different elements. *)
Lemma forged_update_written_differently :
  same_but_credentials genuine forged
  /\ fst (submit_update wire_serialize true ∅ genuine) = true
  /\ fst (submit_update wire_serialize true ∅ forged) = true
  /\ submit_commands wire_serialize genuine <> submit_commands wire_serialize forged
  /\ snd (submit_update wire_serialize true ∅ genuine) !! updates_key 1
     <> snd (submit_update wire_serialize true ∅ forged) !! updates_key 1.
Proof.
  split; [repeat split|]. split; [vm_compute; reflexivity|].
  split; [vm_compute; reflexivity|].
  split; intros H; vm_compute in H; discriminate H.
Qed.

(** Quorum 2, round 1: two submissions and a visit of the worker, then two
    more submissions and another visit. *)
Definition one_quorum : list action :=
  [ASubmit genuine; ASubmit genuine] ++ poll_round 1.

Definition two_quorums : list action := one_quorum ++ one_quorum.

Definition after_one_quorum : sys :=
  match run stub_serialize stub_parse 2 one_quorum initial with
  | Some s => s
  | None => initial
  end.

Lemma quorum_trigger_witness :
  ((forall u, is_ok (stub_parse (stub_serialize u)) = true)
   /\ run stub_serialize stub_parse 2 one_quorum initial = Some after_one_quorum)
  /\ 2 * invocations 1 after_one_quorum <= submissions 1 after_one_quorum.
Proof.
  assert (Hparse : forall u, is_ok (stub_parse (stub_serialize u)) = true)
    by (intros u; reflexivity).
  assert (Hrun : run stub_serialize stub_parse 2 one_quorum initial
                 = Some after_one_quorum) by (vm_compute; reflexivity).
  split; [split; assumption|].
  apply (quorum_trigger stub_serialize stub_parse 2 Hparse one_quorum
           after_one_quorum 1 Hrun).
Defined.

(** C7 as stated fails: a round that receives two quorums of submissions is
    aggregated twice. *)
Lemma aggregated_twice_in_a_round :
  exists s,
    run stub_serialize stub_parse 2 two_quorums initial = Some s
    /\ submissions 1 s = 4
    /\ invocations 1 s = 2
    /\ completions 1 s = 2.
Proof.
  eexists. split; [vm_compute; reflexivity|].
  repeat split; vm_compute; reflexivity.
Qed.

End CollectorProps.

(* ===================================================================== *)
(** * Further properties of the code *)
(* ===================================================================== *)

(** ** Binary64 facts the client step relies on *)

Module FloatProps.

Local Open Scope Z_scope.

Lemma SFcompare_antisym (x y : spec_float) :
  SFcompare y x = option_map CompOpp (SFcompare x y).
Proof.
  destruct x as [sx|sx| |sx mx ex], y as [sy|sy| |sy my ey]; cbn;
    try reflexivity;
    try (destruct sx; reflexivity); try (destruct sy; reflexivity);
    try (destruct sx, sy; reflexivity).
  destruct sx, sy; try reflexivity; f_equal;
    rewrite (Z.compare_antisym ey ex); destruct (ey ?= ex); cbn; try reflexivity;
    fold (Pos.compare mx my); fold (Pos.compare my mx);
    rewrite (Pos.compare_antisym my mx); now destruct (my ?= mx)%positive.
Qed.

Lemma SFcompare_refl (x : spec_float) :
  x <> S754_nan -> SFcompare x x = Some Eq.
Proof.
  destruct x as [s|s| |s m e]; cbn; try congruence; intros _.
  - now destruct s.
  - rewrite Z.compare_refl. fold (Pos.compare m m). rewrite Pos.compare_refl.
    now destruct s.
Qed.

Lemma SFcompare_nan (x y : spec_float) :
  SFcompare x y = None <-> x = S754_nan \/ y = S754_nan.
Proof.
  destruct x as [sx|sx| |sx mx ex], y as [sy|sy| |sy my ey]; cbn;
    split; intros H; try discriminate; auto;
    destruct H as [H|H]; discriminate.
Qed.

Lemma is_nan_spec (x : float) : is_nan x = true <-> Prim2SF x = S754_nan.
Proof.
  unfold is_nan. rewrite FloatAxioms.eqb_spec. unfold SFeqb. split.
  - intros H. destruct (Prim2SF x) eqn:Hx; try reflexivity;
      rewrite SFcompare_refl in H by discriminate; discriminate.
  - intros ->. reflexivity.
Qed.

Lemma is_nan_false (x : float) : is_nan x = false <-> Prim2SF x <> S754_nan.
Proof.
  rewrite <- is_nan_spec. destruct (is_nan x); split; congruence.
Qed.

(** Among numbers, [a > m] failing means [a <= m]. *)
Lemma not_ltb_leb (m a : float) :
  is_nan m = false -> is_nan a = false ->
  PrimFloat.ltb m a = false -> PrimFloat.leb a m = true.
Proof.
  rewrite !is_nan_false, FloatAxioms.ltb_spec, FloatAxioms.leb_spec. unfold SFltb, SFleb.
  intros Hm Ha. rewrite (SFcompare_antisym (Prim2SF m) (Prim2SF a)).
  destruct (SFcompare (Prim2SF m) (Prim2SF a)) as [[]|] eqn:Hc; cbn; try congruence.
  apply SFcompare_nan in Hc. tauto.
Qed.

Lemma leb_not_nan (a b : float) :
  PrimFloat.leb a b = true -> is_nan a = false /\ is_nan b = false.
Proof.
  rewrite FloatAxioms.leb_spec, !is_nan_false. unfold SFleb. intros H.
  split; intros Hn; rewrite Hn in H;
    [|destruct (Prim2SF a)]; discriminate.
Qed.

Lemma ltb_not_nan (a b : float) :
  PrimFloat.ltb a b = true -> is_nan a = false /\ is_nan b = false.
Proof.
  rewrite FloatAxioms.ltb_spec, !is_nan_false. unfold SFltb. intros H.
  split; intros Hn; rewrite Hn in H;
    [|destruct (Prim2SF a)]; discriminate.
Qed.

(** Multiplying by 1.0 or by -1.0 is exact. *)
Lemma shift_back (m : positive) :
  SpecFloat.iter_pos shr_1 52%positive
    {| shr_m := Z.pos (4503599627370496 * m); shr_r := false; shr_s := false |}
  = {| shr_m := Z.pos m; shr_r := false; shr_s := false |}.
Proof. reflexivity. Qed.

Lemma digits_shifted (m : positive) :
  Z.pos (digits2_pos (4503599627370496 * m)) = Z.pos (digits2_pos m) + 52.
Proof.
  assert (H : forall p, Z.pos (digits2_pos p~0) = Z.pos (digits2_pos p) + 1).
  { intros p. cbn [digits2_pos]. exact (Pos2Z.inj_succ (digits2_pos p)). }
  change (4503599627370496 * m)%positive with (Nat.iter 52 xO m).
  assert (Hn : forall n, Z.pos (digits2_pos (Nat.iter n xO m))
                         = Z.pos (digits2_pos m) + Z.of_nat n).
  { induction n as [|n IH]; [change (Nat.iter 0 xO m) with m; lia|].
    change (Nat.iter (S n) xO m) with (Nat.iter n xO m)~0%positive.
    rewrite H, IH. lia. }
  rewrite Hn. reflexivity.
Qed.

Lemma SFmul_unit (x : spec_float) (s : bool) :
  valid_binary x = true ->
  SF64mul x (S754_finite s 4503599627370496 (-52)) = if s then SFopp x else x.
Proof.
  destruct x as [sx|sx| |sx mx ex]; intros Hv.
  - destruct sx, s; reflexivity.
  - destruct sx, s; reflexivity.
  - destruct s; reflexivity.
  - cbn in Hv. unfold bounded, canonical_mantissa in Hv.
    apply andb_prop in Hv as [Hc He]. apply Z.eqb_eq in Hc.
    unfold SF64mul, SFmul, binary_round_aux.
    rewrite (Pos.mul_comm mx).
    assert (H1 : shr_fexp prec emax (Z.pos (4503599627370496 * mx)) (ex + -52) loc_Exact
                 = ({| shr_m := Z.pos mx; shr_r := false; shr_s := false |}, ex)).
    { unfold shr_fexp. cbn [Zdigits2 shr_record_of_loc]. rewrite digits_shifted.
      replace (Z.pos (digits2_pos mx) + 52 + (ex + -52)) with (Z.pos (digits2_pos mx) + ex)
        by lia.
      rewrite Hc. replace (ex - (ex + -52)) with 52 by lia.
      unfold shr. rewrite shift_back. f_equal. lia. }
    rewrite H1. cbn [shr_m loc_of_shr_record round_nearest_even].
    assert (H2 : shr_fexp prec emax (Z.pos mx) ex loc_Exact
                 = ({| shr_m := Z.pos mx; shr_r := false; shr_s := false |}, ex)).
    { unfold shr_fexp. cbn [Zdigits2 shr_record_of_loc]. rewrite Hc, Z.sub_diag.
      reflexivity. }
    rewrite H2. cbn [shr_m]. rewrite He. destruct sx, s; reflexivity.
Qed.

Lemma mul_one (x : float) : (x * 1)%float = x.
Proof.
  apply Prim2SF_inj. rewrite FloatAxioms.mul_spec.
  change (Prim2SF 1) with (S754_finite false 4503599627370496 (-52)).
  now rewrite SFmul_unit by apply Prim2SF_valid.
Qed.

Lemma mul_minus_one (x : float) : (x * -1)%float = (- x)%float.
Proof.
  apply Prim2SF_inj. rewrite FloatAxioms.mul_spec, FloatAxioms.opp_spec.
  change (Prim2SF (-1)) with (S754_finite true 4503599627370496 (-52)).
  now rewrite SFmul_unit by apply Prim2SF_valid.
Qed.

Lemma abs_opp (x : float) : abs (- x) = abs x.
Proof.
  apply Prim2SF_inj. rewrite !FloatAxioms.abs_spec, FloatAxioms.opp_spec. now destruct (Prim2SF x).
Qed.

(** A bound that is not negative is its own absolute value, up to the sign
    of zero. *)
Lemma abs_leb_self (m : float) :
  PrimFloat.leb 0 m = true -> PrimFloat.leb (abs m) m = true.
Proof.
  rewrite !FloatAxioms.leb_spec, FloatAxioms.abs_spec. change (Prim2SF 0) with (S754_zero false).
  unfold SFleb. destruct (Prim2SF m) as [s|s| |s mm e] eqn:Hm; cbn; try discriminate.
  - reflexivity.
  - now destruct s.
  - destruct s; [discriminate|]. intros _.
    rewrite Z.compare_refl. fold (Pos.compare mm mm). now rewrite Pos.compare_refl.
Qed.


End FloatProps.

(** ** The client step: clipping, failure, and the two counters *)

Module StepProps.

Import Runtime FloatProps.

Section ClientRuntime.

Variables F Batch Loss : Type.
Variable standard_normal : Z -> nat -> list F.
Variable item : Loss -> float.

Local Abbreviation t := (Runtime.t F Batch Loss).
Local Abbreviation step := (Runtime.step F Batch Loss standard_normal item).

(** X1.  Whenever [step] returns, with a clipping bound that is a number not
    below zero, the scalar it emits is within the bound unless it is NaN, and
    it is NaN exactly when the centred estimate [raw_rho - baseline] is, the
    baseline being the one the step has just stored. *)
Theorem step_scalar_within_bound (rt rt' : t) (batch_x batch_y : Batch)
  (r : StepResult) :
  step rt batch_x batch_y = (Ok r, rt') ->
  PrimFloat.leb 0 (max_norm _ _ _ rt) = true ->
  is_nan (scalar r) = is_nan (raw_rho r - baseline _ _ _ rt')%float
  /\ (is_nan (scalar r) = false ->
      PrimFloat.leb (abs (scalar r)) (max_norm _ _ _ rt) = true).
Proof.
  unfold Runtime.step. intros Hstep Hmax.
  destruct (Prng.next_seed (prng _ _ _ rt)) as [[sid|e] p']; [|discriminate].
  destruct (truediv _ _) as [rho|e]; [|discriminate].
  injection Hstep as <- <-. cbn [scalar raw_rho baseline].
  set (m := max_norm _ _ _ rt) in *.
  set (adj := (rho - _)%float).
  destruct (leb_not_nan _ _ Hmax) as [_ Hm].
  destruct (PrimFloat.ltb m (abs adj)) eqn:Hclip.
  - destruct (ltb_not_nan _ _ Hclip) as [_ Habs].
    assert (Hadj : is_nan adj = false).
    { apply is_nan_false. apply is_nan_false in Habs. rewrite FloatAxioms.abs_spec in Habs.
      intros E. rewrite E in Habs. now apply Habs. }
    assert (Hbound : PrimFloat.leb (abs (m * (if PrimFloat.ltb 0 adj then 1 else -1))) m
                     = true).
    { destruct (PrimFloat.ltb 0 adj).
      - rewrite mul_one. now apply abs_leb_self.
      - rewrite mul_minus_one, abs_opp. now apply abs_leb_self. }
    split; [|intros _; exact Hbound].
    rewrite Hadj. apply leb_not_nan in Hbound as [Hn _].
    apply is_nan_false. apply is_nan_false in Hn. rewrite FloatAxioms.abs_spec in Hn.
    intros E. rewrite E in Hn. now apply Hn.
  - split; [reflexivity|]. intros Hadj. apply not_ltb_leb; [exact Hm | | exact Hclip].
    apply is_nan_false. apply is_nan_false in Hadj. rewrite FloatAxioms.abs_spec.
    destruct (Prim2SF adj); cbn; congruence.
Qed.



(** *** A run of steps *)

(** Successive calls of [step], one per batch. *)
Fixpoint steps (batches : list (Batch * Batch)) (rt : t) : list (result StepResult) * t :=
  match batches with
  | [] => ([], rt)
  | (batch_x, batch_y) :: rest =>
      let '(r, rt1) := step rt batch_x batch_y in
      let '(rs, rt2) := steps rest rt1 in
      (r :: rs, rt2)
  end.

Definition returned (rs : list (result StepResult)) : Z :=
  Z.of_nat (List.length (List.filter is_ok rs)).

Definition epsilon_at (s : schedule) (k : Z) : float :=
  match s with
  | Callable f => f k
  | Constant e => e
  end.

Lemma step_state (rt : t) (batch_x batch_y : Batch) :
  Prng.seeds (prng _ _ _ rt) <> [] ->
  let out := step rt batch_x batch_y in
  model _ _ _ (snd out) = model _ _ _ rt
  /\ epsilon_schedule _ _ _ (snd out) = epsilon_schedule _ _ _ rt
  /\ max_norm _ _ _ (snd out) = max_norm _ _ _ rt
  /\ Prng.seeds (prng _ _ _ (snd out)) = Prng.seeds (prng _ _ _ rt)
  /\ Prng.current_epoch (prng _ _ _ (snd out))
     = (Prng.current_epoch (prng _ _ _ rt) + 1)%Z
  /\ step_count _ _ _ (snd out)
     = (step_count _ _ _ rt + (if is_ok (fst out) then 1 else 0))%Z
  /\ forall r, fst out = Ok r ->
       seed_id r
       = nth (Z.to_nat (Prng.current_epoch (prng _ _ _ rt)
                        mod Z.of_nat (List.length (Prng.seeds (prng _ _ _ rt)))))
             (Prng.seeds (prng _ _ _ rt)) 0%Z
       /\ epsilon r = epsilon_at (epsilon_schedule _ _ _ rt) (step_count _ _ _ rt).
Proof.
  intros Hne. unfold Runtime.step. rewrite (PrngProps.next_seed_nonempty _ Hne).
  destruct (truediv _ _) as [rho|e]; cbn.
  - repeat split; try lia. all: injection H as <-; reflexivity.
  - repeat split; try lia. discriminate. discriminate.
Qed.

(** X3.  In a run of steps on a non-empty seed list, the call number [i] (from
    zero) draws the seed [seeds[(epoch + i) mod |seeds|]] whether or not
    earlier calls returned, while the step size it uses is the schedule's
    value at the number of earlier calls that did return. *)
Theorem steps_seed_and_schedule (batches : list (Batch * Batch)) :
  forall (rt : t) (i : nat) (r : StepResult),
    Prng.seeds (prng _ _ _ rt) <> [] ->
    nth_error (fst (steps batches rt)) i = Some (Ok r) ->
    seed_id r
    = nth (Z.to_nat ((Prng.current_epoch (prng _ _ _ rt) + Z.of_nat i)
                     mod Z.of_nat (List.length (Prng.seeds (prng _ _ _ rt)))))
          (Prng.seeds (prng _ _ _ rt)) 0%Z
    /\ epsilon r
       = epsilon_at (epsilon_schedule _ _ _ rt)
           (step_count _ _ _ rt + returned (firstn i (fst (steps batches rt))))%Z.
Proof.
  induction batches as [|[bx by_] rest IH]; intros rt i r Hne Hi.
  - destruct i; discriminate.
  - cbn [steps] in *.
    pose proof (step_state rt bx by_ Hne) as Hs. cbv zeta in Hs.
    destruct (step rt bx by_) as [r0 rt1] eqn:Hstep. cbn [fst snd] in Hs.
    destruct Hs as (_ & Hsch & _ & Hseeds & Hep & Hcnt & Hres).
    destruct (steps rest rt1) as [rs rt2] eqn:Hrest. cbn [fst] in *.
    destruct i as [|i].
    + injection Hi as ->. destruct (Hres r eq_refl) as [-> ->].
      rewrite Z.add_0_r. cbn. now rewrite Z.add_0_r.
    + cbn [nth_error firstn] in *.
      assert (Hne1 : Prng.seeds (prng _ _ _ rt1) <> []) by now rewrite Hseeds.
      specialize (IH rt1 i r Hne1). rewrite Hrest in IH. cbn [fst] in IH.
      destruct (IH Hi) as [-> ->]. rewrite Hseeds, Hep, Hsch, Hcnt. split.
      * do 3 f_equal. lia.
      * f_equal. unfold returned. cbn [List.filter].
        destruct (is_ok r0); cbn [List.length]; lia.
Qed.


End ClientRuntime.

(** *** The theorems at concrete inputs *)

Definition small_step_runtime : Runtime.t unit unit float :=
  Runtime.init unit unit float RuntimeProps.probe_model (Prng.init [1%Z])
    (Constant 1e-9%float) 0.5%float.

Lemma step_scalar_within_bound_witness :
  exists r rt',
    Runtime.step unit unit float (fun _ d => repeat tt d) (fun x => x)
      small_step_runtime tt tt = (Ok r, rt')
    /\ scalar r = 0.5%float
    /\ PrimFloat.leb (abs (scalar r)) 0.5%float = true.
Proof.
  destruct (Runtime.step unit unit float (fun _ d => repeat tt d) (fun x => x)
              small_step_runtime tt tt) as [[r|e] rt'] eqn:Hstep;
    [|vm_compute in Hstep; discriminate].
  exists r, rt'. split; [reflexivity|].
  destruct (step_scalar_within_bound unit unit float (fun _ d => repeat tt d)
              (fun x => x) small_step_runtime rt' tt tt r Hstep eq_refl) as [_ Hb].
  assert (Hs : scalar r = 0.5%float).
  { vm_compute in Hstep. now injection Hstep as <- _. }
  split; [exact Hs|]. apply Hb. rewrite Hs. reflexivity.
Defined.



(** Two calls on the seeds [[7; 8]] with a schedule that shrinks the step
    size after the first step. *)
Definition shrinking_runtime : Runtime.t unit unit float :=
  Runtime.init unit unit float RuntimeProps.probe_model (Prng.init [7; 8]%Z)
    (Callable (fun k => if (k =? 0)%Z then 1e-2%float else 1e-3%float)) 0.5%float.

Lemma steps_seed_and_schedule_witness :
  exists r,
    nth_error
      (fst (steps unit unit float (fun _ d => repeat tt d) (fun x => x)
              [(tt, tt); (tt, tt)] shrinking_runtime)) 1 = Some (Ok r)
    /\ seed_id r = 8%Z /\ epsilon r = 1e-3%float.
Proof.
  eexists. split; [vm_compute; reflexivity|].
  apply (steps_seed_and_schedule unit unit float (fun _ d => repeat tt d) (fun x => x)
           [(tt, tt); (tt, tt)] shrinking_runtime 1).
  - discriminate.
  - vm_compute. reflexivity.
Defined.



End StepProps.

(** ** The aggregator: missing keys, degenerate trims, row order *)

Module TrimProps.

Import Aggregator.

Section RobustAggregator.

Variable F : Type.
Variable fzero : F.
Variable fadd : F -> F -> F.
Variable fdiv : F -> nat -> F.
Variable fmul : float -> F -> F.
Variable fle : F -> F -> bool.
Variable standard_normal : Z -> nat -> list F.

Local Abbreviation sort := (sort F fle).
Local Abbreviation column := (column F fzero).
Local Abbreviation mean := (mean F fzero fadd fdiv).
Local Abbreviation mean_dim0 := (mean_dim0 F fzero fadd fdiv).
Local Abbreviation sort_dim0 := (sort_dim0 F fzero fle).
Local Abbreviation aggregate := (aggregate F fzero fadd fdiv fle).
Local Abbreviation reconstruct := (reconstruct F fmul standard_normal).
Local Abbreviation reconstruct_loop := (reconstruct_loop F fmul standard_normal).

(** *** Payloads without a key *)




(** *** Trimming everything *)

Lemma slice_empty {A : Type} (l : list A) (k : Z) :
  (0 < k)%Z -> (Z.of_nat (List.length l) <= 2 * k)%Z ->
  slice l k (Z.of_nat (List.length l) - k) = [].
Proof.
  intros Hk Hn. unfold slice, clamp_index.
  destruct (Z.ltb_spec k 0); [lia|].
  destruct (Z.ltb_spec (Z.of_nat (List.length l) - k) 0).
  - replace (Z.to_nat _) with 0%nat by lia. reflexivity.
  - replace (Z.to_nat (Z.min _ _ - Z.min _ _)) with 0%nat by lia. reflexivity.
Qed.

(** X5.  When the trim count [k = int(n * trim_ratio)] is positive and takes at
    least half of the [n] rows from each side, nothing is left between the
    two cuts: every coordinate of the result is the mean of no value at all,
    the zero sum divided by the count zero (NaN in floating point). *)
Theorem aggregate_trims_everything (agg : t) (G : Tensor2 F) (k : Z) :
  numel F G <> 0%nat ->
  int_of_float (float_of_int (Z.of_nat (nrows F G)) * trim_ratio agg)%float = Ok k ->
  (0 < k)%Z -> (Z.of_nat (nrows F G) <= 2 * k)%Z ->
  aggregate agg G = Ok (repeat (fdiv fzero 0) (ncols F G)).
Proof.
  intros Hnum Hk Hpos Hhalf. unfold Aggregator.aggregate.
  destruct (Nat.eqb_spec (numel F G) 0) as [E|_]; [contradiction|].
  rewrite Hk. cbn [bind]. destruct (Z.eqb_spec k 0) as [->|_]; [lia|].
  f_equal.
  assert (Hrows : List.length (rows F (sort_dim0 G)) = nrows F G).
  { unfold Aggregator.sort_dim0. cbn [rows]. now rewrite List.length_map, List.length_seq. }
  replace (Z.of_nat (nrows F G) - k)%Z
    with (Z.of_nat (List.length (rows F (sort_dim0 G))) - k)%Z by (now rewrite Hrows).
  rewrite slice_empty by (rewrite ?Hrows; lia).
  unfold Aggregator.mean_dim0. cbn [rows ncols Aggregator.sort_dim0].
  assert (Hall : forall d s,
            List.map (fun j => mean (column j [])) (seq s d) = repeat (fdiv fzero 0) d).
  { induction d as [|d IH]; intros s; [reflexivity|].
    cbn [seq List.map repeat]. f_equal. apply IH. }
  apply Hall.
Qed.

(** *** A trim ratio that is not a number *)

(** X6.  The constructor stores [trim_ratio] unchecked.  With NaN for it,
    [aggregate] raises [ValueError] on every tensor that has elements, and
    still returns the zero vector on one that has none. *)
Theorem aggregate_nan_ratio (agg : t) (G : Tensor2 F) :
  is_nan (trim_ratio agg) = true ->
  aggregate agg G =
  if Nat.eqb (numel F G) 0 then Ok (zeros F fzero (shape agg)) else Raise ValueError.
Proof.
  intros Hnan. unfold Aggregator.aggregate.
  destruct (Nat.eqb (numel F G) 0); [reflexivity|].
  apply FloatProps.is_nan_spec in Hnan.
  unfold int_of_float. rewrite FloatAxioms.mul_spec, Hnan.
  now destruct (Prim2SF (float_of_int (Z.of_nat (nrows F G)))).
Qed.

(** *** The order of the rows *)

Section Order.

(** The comparison [torch.sort] uses, on values it orders totally (no NaN,
    one zero). *)
Hypothesis fle_total : forall a b, fle a b = true \/ fle b a = true.
Hypothesis fle_antisym : forall a b, fle a b = true -> fle b a = true -> a = b.
Hypothesis fle_trans : forall a b c, fle a b = true -> fle b c = true -> fle a c = true.

Lemma ascending_unique (l : list F) :
  forall l',
    StronglySorted (fun a b => fle a b = true) l ->
    StronglySorted (fun a b => fle a b = true) l' ->
    Permutation l l' -> l = l'.
Proof.
  induction l as [|x l IH]; intros l' Hl Hl' Hp.
  - now apply Permutation_nil in Hp.
  - destruct l' as [|y l'].
    + symmetry in Hp. now apply Permutation_nil in Hp.
    + inversion Hl as [|? ? Hl1 Hx]; subst. inversion Hl' as [|? ? Hl1' Hy]; subst.
      assert (Exy : x = y).
      { assert (Hin : In x (y :: l')) by (eapply Permutation_in; [exact Hp | now left]).
        assert (Hin' : In y (x :: l))
          by (eapply Permutation_in; [symmetry; exact Hp | now left]).
        destruct Hin as [->|Hin]; [reflexivity|].
        destruct Hin' as [->|Hin']; [reflexivity|].
        rewrite List.Forall_forall in Hx, Hy.
        apply fle_antisym; [now apply Hx | now apply Hy]. }
      subst y. f_equal. apply IH; try assumption.
      now apply Permutation_cons_inv in Hp.
Qed.

Lemma sort_permutation (l l' : list F) : Permutation l l' -> sort l = sort l'.
Proof.
  intros Hp. apply ascending_unique.
  - apply Sorted_StronglySorted; [intros a b c; apply fle_trans|].
    now apply AggregatorProps.sort_ascending.
  - apply Sorted_StronglySorted; [intros a b c; apply fle_trans|].
    now apply AggregatorProps.sort_ascending.
  - rewrite <- (AggregatorProps.sort_perm F fle l).
    rewrite <- (AggregatorProps.sort_perm F fle l'). exact Hp.
Qed.

(** X7.  Whenever rows are trimmed ([k] is not zero), the aggregate does not
    depend on the order in which the clients' rows are stacked. *)
Theorem aggregate_row_order (agg : t) (G G' : Tensor2 F) (k : Z) :
  Permutation (rows F G) (rows F G') -> ncols F G = ncols F G' ->
  int_of_float (float_of_int (Z.of_nat (nrows F G)) * trim_ratio agg)%float = Ok k ->
  k <> 0%Z ->
  aggregate agg G = aggregate agg G'.
Proof.
  intros Hp Hc Hk Hk0.
  assert (Hn : nrows F G = nrows F G') by (unfold nrows; now apply Permutation_length).
  unfold Aggregator.aggregate, numel. rewrite <- Hn, <- Hc.
  destruct (Nat.eqb _ 0); [reflexivity|].
  rewrite Hk. cbn [bind]. destruct (Z.eqb_spec k 0) as [E|_]; [contradiction|].
  assert (Hsorted : sort_dim0 G = sort_dim0 G').
  { unfold Aggregator.sort_dim0. rewrite <- Hn, <- Hc. f_equal.
    apply List.map_ext. intros i. apply List.map_ext. intros j.
    f_equal. apply sort_permutation. unfold Aggregator.column.
    now apply Permutation_map. }
  now rewrite Hsorted.
Qed.

End Order.

(** *** From payloads to the aggregate *)

Section Pipeline.

Hypothesis standard_normal_length :
  forall seed d, List.length (standard_normal seed d) = d.

(** X8.  [aggregate] applied to what [reconstruct] returns yields, whenever it
    returns, one value per parameter: a vector of the aggregator's own
    dimension, for any number of payloads, none included. *)
Theorem reconstruct_then_aggregate (agg : t) (payloads : list Payload) (out : list F) :
  bind (reconstruct agg payloads) (aggregate agg) = Ok out ->
  List.length out = shape agg.
Proof.
  unfold Aggregator.reconstruct.
  assert (Hloop : forall ps acc rows,
            Forall (fun r => List.length r = shape agg) acc ->
            reconstruct_loop agg ps acc = Ok rows ->
            Forall (fun r => List.length r = shape agg) rows).
  { induction ps as [|p ps IH]; intros acc rows Hacc Hr.
    - now injection Hr as <-.
    - cbn [Aggregator.reconstruct_loop] in Hr.
      destruct (seed_id p) as [sid|]; [|discriminate].
      destruct (scalar p) as [sc|]; [|discriminate]. cbn [getitem bind] in Hr.
      apply (IH _ _ (fun H => H) Hr) || (eapply IH; [|exact Hr]).
      apply Forall_app. split; [exact Hacc|]. constructor; [|constructor].
      unfold Prng.generate_noise_vector.
      now rewrite List.length_map, standard_normal_length. }
  destruct (reconstruct_loop agg payloads []) as [rows|e] eqn:Hrows; [|discriminate].
  apply Hloop in Hrows; [|constructor]. cbn [bind].
  assert (Hagg : forall G, ncols F G = shape agg -> aggregate agg G = Ok out ->
                           List.length out = shape agg).
  { intros G Hcols. unfold Aggregator.aggregate.
    destruct (Nat.eqb (numel F G) 0).
    - intros [= <-]. apply repeat_length.
    - destruct (int_of_float _) as [k|e]; [|discriminate]. cbn [bind].
      destruct (k =? 0)%Z; intros [= <-];
        now rewrite AggregatorProps.mean_dim0_length. }
  destruct rows as [|g gs]; cbn [bind].
  - apply Hagg. reflexivity.
  - unfold stack. destruct (forallb _ _); [|discriminate]. cbn [bind].
    apply Hagg. cbn [ncols]. now inversion Hrows.
Qed.

End Pipeline.

End RobustAggregator.

(** *** The theorems at concrete inputs (integer elements) *)

Import AggregatorProps.


Definition trim_half : t := mk 1 0.5%float.

Lemma aggregate_trims_everything_witness :
  Aggregator.aggregate Z 0%Z Z.add zdiv Z.leb trim_half ten_clients = Ok [zdiv 0 0].
Proof.
  apply (aggregate_trims_everything Z 0%Z Z.add zdiv Z.leb trim_half ten_clients 5).
  - discriminate.
  - reflexivity.
  - reflexivity.
  - discriminate.
Defined.

Lemma aggregate_nan_ratio_witness :
  Aggregator.aggregate Z 0%Z Z.add zdiv Z.leb (mk 1 nan) ten_clients = Raise ValueError.
Proof.
  apply (aggregate_nan_ratio Z 0%Z Z.add zdiv Z.leb (mk 1 nan) ten_clients).
  reflexivity.
Defined.

Lemma aggregate_row_order_witness :
  Aggregator.aggregate Z 0%Z Z.add zdiv Z.leb trim_tenth ten_clients
  = Aggregator.aggregate Z 0%Z Z.add zdiv Z.leb trim_tenth
      (mkTensor Z 1 (List.rev (rows Z ten_clients))).
Proof.
  apply (aggregate_row_order Z 0%Z Z.add zdiv Z.leb) with (k := 1%Z).
  - intros a b. destruct (Z.leb_spec a b); [now left | right; apply Z.leb_le; lia].
  - intros a b Ha Hb. apply Z.leb_le in Ha, Hb. lia.
  - intros a b c Ha Hb. apply Z.leb_le in Ha, Hb. apply Z.leb_le. lia.
  - apply Permutation_rev.
  - reflexivity.
  - reflexivity.
  - discriminate.
Defined.

Definition two_payloads : list Payload :=
  [mkPayload (Some 3%Z) (Some 2%float); mkPayload (Some 5%Z) (Some 1%float)].

Lemma reconstruct_then_aggregate_witness :
  exists out,
    bind (Aggregator.reconstruct Z zscale znoise trim_tenth two_payloads)
      (Aggregator.aggregate Z 0%Z Z.add zdiv Z.leb trim_tenth) = Ok out
    /\ List.length out = Aggregator.shape trim_tenth.
Proof.
  eexists. split; [vm_compute; reflexivity|].
  apply (reconstruct_then_aggregate Z 0%Z Z.add zdiv zscale Z.leb znoise)
    with (payloads := two_payloads).
  - intros seed d. unfold znoise. now rewrite List.length_map, List.length_seq.
  - vm_compute. reflexivity.
Defined.

End TrimProps.

(** ** The trimmed mean against outliers *)

Module RobustProps.

Import Aggregator.

Section RobustAggregator.

Variable F : Type.
Variable fzero : F.
Variable fadd : F -> F -> F.
Variable fdiv : F -> nat -> F.
Variable fle : F -> F -> bool.

Local Abbreviation sort := (sort F fle).
Local Abbreviation column := (column F fzero).
Local Abbreviation mean := (mean F fzero fadd fdiv).
Local Abbreviation aggregate := (aggregate F fzero fadd fdiv fle).

Hypothesis fle_total : forall a b, fle a b = true \/ fle b a = true.
Hypothesis fle_trans : forall a b c, fle a b = true -> fle b c = true -> fle a c = true.

Lemma fle_refl (a : F) : fle a a = true.
Proof. now destruct (fle_total a a). Qed.

Lemma sorted_nth (l : list F) :
  StronglySorted (fun a b => fle a b = true) l ->
  forall a b, (a <= b < List.length l)%nat -> fle (nth a l fzero) (nth b l fzero) = true.
Proof.
  induction 1 as [|x l Hl IH Hx]; intros a b Hab; [cbn in Hab; lia|].
  destruct a as [|a], b as [|b]; cbn [nth List.length] in *.
  - apply fle_refl.
  - rewrite List.Forall_forall in Hx. apply Hx. apply nth_In. lia.
  - lia.
  - apply IH. lia.
Qed.

Lemma filter_length_perm (P : F -> bool) (l l' : list F) :
  Permutation l l' -> List.length (List.filter P l) = List.length (List.filter P l').
Proof.
  induction 1 as [|x l l' _ IH|x y l|l l' l'' _ IH1 _ IH2]; cbn [List.filter].
  - reflexivity.
  - destruct (P x); cbn [List.length]; now rewrite IH.
  - destruct (P x), (P y); reflexivity.
  - now rewrite IH1.
Qed.

Lemma filter_all (P : F -> bool) (l : list F) :
  (forall y, In y l -> P y = true) -> List.filter P l = l.
Proof.
  induction l as [|x l IH]; intros H; [reflexivity|]. cbn [List.filter].
  rewrite (H x) by now left. f_equal. apply IH. intros y Hy. apply H. now right.
Qed.

Lemma filter_some (P : F -> bool) (l : list F) :
  List.filter P l <> [] -> exists h, In h l /\ P h = true.
Proof.
  destruct (List.filter P l) as [|h t] eqn:E; [congruence|]. intros _.
  exists h. apply filter_In. rewrite E. now left.
Qed.

(** In a sorted list of which at most [k] values are of the second kind, a
    value with at least [k] values before it has a value of the first kind
    at or below it, and one with at least [k] values after it has a value of
    the first kind at or above it. *)
Lemma bracketed (srt honest outliers : list F) (k i : nat) :
  StronglySorted (fun a b => fle a b = true) srt ->
  Permutation srt (honest ++ outliers) ->
  (List.length outliers <= k)%nat ->
  (k <= i)%nat -> (i + k < List.length srt)%nat ->
  (exists h, In h honest /\ fle h (nth i srt fzero) = true)
  /\ (exists h, In h honest /\ fle (nth i srt fzero) h = true).
Proof.
  intros Hs Hp Hout Hlo Hhi. set (x := nth i srt fzero).
  assert (Hcount : forall P : F -> bool,
            (k < List.length (List.filter P srt))%nat ->
            exists h, In h honest /\ P h = true).
  { intros P Hmany. apply filter_some. intros Hnone.
    rewrite (filter_length_perm P _ _ Hp), List.filter_app, List.length_app, Hnone in Hmany.
    pose proof (List.filter_length_le P outliers). cbn [List.length] in Hmany. lia. }
  split.
  - apply (Hcount (fun y => fle y x)).
    rewrite <- (firstn_skipn (S i) srt), List.filter_app, List.length_app.
    rewrite (filter_all (fun y => fle y x) (firstn (S i) srt)).
    + rewrite List.length_firstn. lia.
    + intros y Hy. apply (In_nth _ _ fzero) in Hy as (a & Ha & <-).
      rewrite List.length_firstn in Ha. rewrite nth_firstn.
      destruct (Nat.ltb_spec a (S i)); [|lia]. apply sorted_nth; [exact Hs | lia].
  - apply (Hcount (fun y => fle x y)).
    rewrite <- (firstn_skipn i srt), List.filter_app, List.length_app.
    rewrite (filter_all (fun y => fle x y) (skipn i srt)).
    + rewrite List.length_skipn. lia.
    + intros y Hy. apply (In_nth _ _ fzero) in Hy as (a & Ha & <-).
      rewrite List.length_skipn in Ha. rewrite nth_skipn.
      apply sorted_nth; [exact Hs | lia].
Qed.

(** X9.  When the rows of a gradient matrix are those of honest clients and of
    at most [k] others, in any order, and [k > 0] rows are trimmed from each
    side with at least one row left, every value that enters the mean of a
    coordinate lies between two values the honest clients sent for that
    coordinate: the other rows cannot move a coordinate outside the range of
    the honest ones. *)
Theorem aggregate_resists_outliers (agg : t) (G : Tensor2 F)
  (honest outliers : list (list F)) (k : Z) :
  Permutation (rows F G) (honest ++ outliers) ->
  (Z.of_nat (List.length outliers) <= k)%Z ->
  (1 <= ncols F G)%nat ->
  int_of_float (float_of_int (Z.of_nat (nrows F G)) * trim_ratio agg)%float = Ok k ->
  (0 < k)%Z -> (1 <= Z.of_nat (nrows F G) - 2 * k)%Z ->
  exists out,
    aggregate agg G = Ok out
    /\ forall j, (j < ncols F G)%nat ->
         exists kept,
           nth j out fzero = mean kept
           /\ kept <> []
           /\ forall x, In x kept ->
                (exists h, In h (column j honest) /\ fle h x = true)
                /\ (exists h, In h (column j honest) /\ fle x h = true).
Proof.
  intros Hp Hout Hd Hk Hpos Hrest.
  assert (Hn : (1 <= nrows F G)%nat) by lia.
  rewrite (AggregatorProps.aggregate_nonempty F fzero fadd fdiv fle agg G k Hn Hd Hk).
  destruct (Z.eqb_spec k 0) as [->|_]; [lia|].
  eexists. split; [reflexivity|]. intros j Hj.
  set (srt := sort (column j (rows F G))).
  assert (HlenS : List.length srt = nrows F G).
  { unfold srt. rewrite AggregatorProps.sort_length. apply AggregatorProps.column_length. }
  assert (Hrows : List.length (rows F (sort_dim0 F fzero fle G)) = nrows F G).
  { unfold sort_dim0. cbn [rows]. now rewrite List.length_map, List.length_seq. }
  exists (firstn (List.length srt - 2 * Z.to_nat k) (skipn (Z.to_nat k) srt)).
  split; [|split].
  - rewrite AggregatorProps.mean_dim0_nth by exact Hj. cbn [rows]. f_equal.
    rewrite <- Hrows, AggregatorProps.slice_middle by lia.
    rewrite AggregatorProps.column_firstn, AggregatorProps.column_skipn,
      AggregatorProps.column_sort_dim0 by exact Hj.
    fold srt. now rewrite Hrows, HlenS.
  - intros E. apply (f_equal (@List.length F)) in E.
    rewrite List.length_firstn, List.length_skipn in E. cbn [List.length] in E. lia.
  - intros x Hx. apply (In_nth _ _ fzero) in Hx as (a & Ha & <-).
    rewrite List.length_firstn, List.length_skipn in Ha.
    rewrite nth_firstn. destruct (Nat.ltb_spec a (List.length srt - 2 * Z.to_nat k)); [|lia].
    rewrite nth_skipn.
    apply (bracketed srt (column j honest) (column j outliers) (Z.to_nat k)).
    + apply Sorted_StronglySorted; [intros u v w; apply fle_trans|].
      now apply AggregatorProps.sort_ascending.
    + unfold srt. rewrite <- (AggregatorProps.sort_perm F fle).
      unfold Aggregator.column. rewrite <- List.map_app. now apply Permutation_map.
    + unfold Aggregator.column. rewrite List.length_map. lia.
    + lia.
    + lia.
Qed.

End RobustAggregator.

(** *** The theorem at a concrete input: eight honest rows and two others *)

Import AggregatorProps.

Lemma aggregate_resists_outliers_witness :
  exists out,
    Aggregator.aggregate Z 0%Z Z.add zdiv Z.leb trim_tenth ten_clients = Ok out
    /\ exists kept,
         nth 0 out 0%Z = Aggregator.mean Z 0%Z Z.add zdiv kept
         /\ kept <> []
         /\ forall x, In x kept ->
              (exists h, In h (Aggregator.column Z 0%Z 0 (firstn 9 (rows Z ten_clients)))
                         /\ (h <=? x)%Z = true)
              /\ (exists h, In h (Aggregator.column Z 0%Z 0 (firstn 9 (rows Z ten_clients)))
                            /\ (x <=? h)%Z = true).
Proof.
  destruct (aggregate_resists_outliers Z 0%Z Z.add zdiv Z.leb) with
    (agg := trim_tenth) (G := ten_clients)
    (honest := firstn 9 (rows Z ten_clients)) (outliers := skipn 9 (rows Z ten_clients))
    (k := 1%Z) as (out & Hout & Hall).
  - intros a b. destruct (Z.leb_spec a b); [now left | right; apply Z.leb_le; lia].
  - intros a b c Ha Hb. apply Z.leb_le in Ha, Hb. apply Z.leb_le. lia.
  - now rewrite firstn_skipn.
  - cbn. lia.
  - cbn. lia.
  - reflexivity.
  - lia.
  - cbn. lia.
  - exists out. split; [exact Hout|]. apply (Hall 0%nat). cbn. lia.
Defined.

End RobustProps.

(** ** The binding hash and the mock attestation check *)

Module BindingProps.

Import Attestation.

Local Open Scope Z_scope.

(** *** ASCII text *)

Definition ascii_text (s : string) : bool :=
  forallb (fun c => Nat.ltb (nat_of_ascii c) 128) (list_ascii_of_string s).

Lemma ustr_of_string_app (a b : string) :
  Codec.ustr_of_string (a +:+ b) = Codec.ustr_of_string a ++ Codec.ustr_of_string b.
Proof.
  unfold Codec.ustr_of_string. now rewrite KeyProps.list_ascii_app, List.map_app.
Qed.

Lemma ascii_text_app (a b : string) :
  ascii_text (a +:+ b) = andb (ascii_text a) (ascii_text b).
Proof. unfold ascii_text. now rewrite KeyProps.list_ascii_app, forallb_app. Qed.

Lemma byte_of_code (c : ascii) :
  Codec.byte_of_Z (Z.of_nat (nat_of_ascii c)) = byte_of_ascii c.
Proof. destruct c as [[] [] [] [] [] [] [] []]; reflexivity. Qed.

Lemma utf8_encode_ascii (s : string) :
  ascii_text s = true ->
  Codec.utf8_encode (Codec.ustr_of_string s) = Ok (Codec.bytes_of_string s).
Proof.
  unfold ascii_text, Codec.ustr_of_string, Codec.bytes_of_string.
  induction s as [|c s IH]; [reflexivity|].
  cbn [list_ascii_of_string forallb List.map Codec.utf8_encode list_byte_of_string].
  intros H. apply andb_true_iff in H as [Hc Hs]. apply Nat.ltb_lt in Hc.
  destruct (Z.ltb_spec (Z.of_nat (nat_of_ascii c)) 0); [lia|].
  destruct (Z.ltb_spec (Z.of_nat (nat_of_ascii c)) 128); [|lia].
  rewrite (IH Hs). cbn [bind]. now rewrite byte_of_code.
Qed.

Lemma numeral_ascii (s : string) :
  KeyProps.numeral_chars s = true -> ascii_text s = true.
Proof.
  unfold ascii_text. induction s as [|c s IH]; [reflexivity|].
  cbn [KeyProps.numeral_chars list_ascii_of_string forallb]. intros H.
  apply andb_true_iff in H as [Hc Hs]. rewrite (IH Hs), andb_true_r.
  apply Nat.ltb_lt. apply orb_true_iff in Hc as [Hd|Hm].
  - unfold is_digit in Hd. apply andb_true_iff in Hd as [_ Hd].
    apply Nat.leb_le in Hd. lia.
  - apply Ascii.eqb_eq in Hm. subst c. apply Nat.ltb_lt. reflexivity.
Qed.

Lemma numeral_no_colon (s : string) :
  KeyProps.numeral_chars s = true -> ~ In 58 (Codec.ustr_of_string s).
Proof.
  unfold Codec.ustr_of_string. induction s as [|c s IH]; [intros _ []|].
  cbn [KeyProps.numeral_chars list_ascii_of_string List.map]. intros H.
  apply andb_true_iff in H as [Hc Hs]. intros [E|Hin]; [|now apply (IH Hs)].
  apply orb_true_iff in Hc as [Hd|Hm].
  - unfold is_digit in Hd. apply andb_true_iff in Hd as [_ Hd].
    apply Nat.leb_le in Hd. lia.
  - apply Ascii.eqb_eq in Hm. subst c. discriminate E.
Qed.

(** Text up to the first colon is read back unambiguously. *)
Lemma cut_at_colon (a : Codec.ustr) :
  forall a' r r',
    ~ In 58 a -> ~ In 58 a' -> a ++ 58 :: r = a' ++ 58 :: r' -> a = a' /\ r = r'.
Proof.
  induction a as [|c a IH]; intros a' r r' Ha Ha' E.
  - destruct a' as [|c' a']; cbn in E.
    + now injection E as <-.
    + injection E as <- _. exfalso. apply Ha'. now left.
  - destruct a' as [|c' a']; cbn in E.
    + injection E as -> _. exfalso. apply Ha. now left.
    + injection E as <- E.
      destruct (IH a' r r') as [<- <-]; try assumption; try tauto.
      * intros H. apply Ha. now right.
      * intros H. apply Ha'. now right.
Qed.

Section BindingHash.

Variable float_repr : float -> string.

Local Abbreviation format_value := (format_value float_repr).
Local Abbreviation binding_str := (binding_str float_repr).
Local Abbreviation generate_binding_hash := (generate_binding_hash float_repr).

(** *** The client's hash and the gatekeeper's nonce *)

Section Nonce.

Variable PublicKey : Type.
Variable ed_from_public_bytes : list byte -> result PublicKey.
Variable ed_verify : PublicKey -> list byte -> list byte -> bool.

(** [repr] of a float is ASCII text. *)
Hypothesis float_repr_ascii : forall f, ascii_text (float_repr f) = true.

(** The payload dictionary of an update, with the round number in the place
    of the model hash. *)
Definition contribution (update : ClientUpdate) : gmap string pyval :=
  <["seed_id" := VInt (seed_id update)]>
    (<["scalar" := VFloat (scalar update)]>
       (<["model_hash" := VInt (round_id update)]> ∅)).

(** X10.  For an update whose signature the gatekeeper accepts, the nonce
    [verify_update] expects from the attestation service is the binding hash
    [generate_binding_hash] computes on the client from the same seed and
    scalar with the round number as the third field. *)
Theorem binding_hash_is_expected_nonce (update : ClientUpdate)
  (public_key_bytes payload : list byte) :
  Verifier.check_signature PublicKey ed_from_public_bytes ed_verify float_repr
    update public_key_bytes = Some payload ->
  generate_binding_hash (contribution update) = Ok (Sha256.hexdigest payload).
Proof.
  intros Hsig.
  apply (VerifierProps.check_signature_payload PublicKey ed_from_public_bytes ed_verify
           float_repr) in Hsig.
  subst payload. unfold Attestation.generate_binding_hash, Attestation.binding_str,
    Attestation.get, contribution.
  rewrite lookup_insert_eq.
  rewrite lookup_insert_ne by discriminate. rewrite lookup_insert_eq.
  rewrite !lookup_insert_ne by discriminate. rewrite lookup_insert_eq.
  cbn [Attestation.format_value].
  change [58] with (Codec.ustr_of_string ":").
  rewrite <- !ustr_of_string_app.
  rewrite utf8_encode_ascii; [reflexivity|].
  rewrite !ascii_text_app, float_repr_ascii.
  rewrite (numeral_ascii (str_int (seed_id update))) by apply KeyProps.str_int_chars.
  rewrite (numeral_ascii (str_int (round_id update))) by apply KeyProps.str_int_chars.
  reflexivity.
Qed.

End Nonce.

(** *** Fields that hold a colon *)

(** X11.  The three fields are joined by colons without escaping: moving a colon
    from inside the seed field to inside the scalar field leaves the binding
    hash unchanged, so two different payloads are bound to one hash. *)
Theorem binding_hash_separator_collision (a b c : Codec.ustr) (model_hash : pyval) :
  generate_binding_hash
    (<["seed_id" := VStr (a ++ 58 :: b)]>
       (<["scalar" := VStr c]> (<["model_hash" := model_hash]> ∅)))
  = generate_binding_hash
      (<["seed_id" := VStr a]>
         (<["scalar" := VStr (b ++ 58 :: c)]> (<["model_hash" := model_hash]> ∅))).
Proof.
  unfold Attestation.generate_binding_hash, Attestation.binding_str, Attestation.get.
  rewrite !lookup_insert_eq.
  rewrite !(lookup_insert_ne _ "seed_id" "scalar") by discriminate.
  rewrite !lookup_insert_eq.
  rewrite !(lookup_insert_ne _ "seed_id" "model_hash") by discriminate.
  rewrite !(lookup_insert_ne _ "scalar" "model_hash") by discriminate.
  rewrite !lookup_insert_eq.
  cbn [Attestation.format_value].
  now rewrite <- !app_assoc.
Qed.

(** *** Fields that cannot hold one *)

Section Typed.

(** [repr] of a float holds no colon. *)
Hypothesis float_repr_no_colon :
  forall f, ~ In 58 (Codec.ustr_of_string (float_repr f)).

(** X12.  When the seed is an [int] and the scalar a [float], the binding string
    determines the seed, the text of the scalar and the text of the model
    hash. *)
Theorem binding_str_determines_fields (p1 p2 : gmap string pyval)
  (s1 s2 : Z) (x1 x2 : float) :
  p1 !! "seed_id" = Some (VInt s1) -> p1 !! "scalar" = Some (VFloat x1) ->
  p2 !! "seed_id" = Some (VInt s2) -> p2 !! "scalar" = Some (VFloat x2) ->
  binding_str p1 = binding_str p2 ->
  s1 = s2 /\ float_repr x1 = float_repr x2
  /\ format_value (get p1 "model_hash") = format_value (get p2 "model_hash").
Proof.
  intros H1 H2 H3 H4. unfold Attestation.binding_str, Attestation.get.
  rewrite H1, H2, H3, H4. cbn [Attestation.format_value app]. intros E.
  apply cut_at_colon in E as [Es E];
    try (apply numeral_no_colon, KeyProps.str_int_chars).
  apply cut_at_colon in E as [Ex E]; try apply float_repr_no_colon.
  apply VerifierProps.ustr_of_string_inj in Es, Ex.
  apply KeyProps.str_int_inj in Es. auto.
Qed.

End Typed.

End BindingHash.

(** *** The mock check and the client's token *)

(** X13.  [verify_attestation] accepts a token by its prefix alone.  The token
    that [SecurityManager.get_attestation_token] hands out, decoded as the
    gatekeeper decodes it, is refused by it for every update and every
    binding hash. *)
Theorem client_token_fails_mock_check (PrivateKey : Type)
  (m : Security.t PrivateKey) (seed_id round_id : Z) (scalar : float)
  (binding_hash : string) :
  exists token,
    Codec.utf8_decode
      (Security.get_attestation_token PrivateKey m seed_id scalar round_id) = Ok token
    /\ verify_attestation token binding_hash = false.
Proof. eexists. split; [vm_compute; reflexivity | reflexivity]. Qed.

(** *** The theorems at concrete inputs *)

Lemma binding_hash_is_expected_nonce_witness :
  generate_binding_hash VerifierProps.repr_tenth (contribution VerifierProps.spec_update)
  = Ok VerifierProps.spec_nonce.
Proof.
  apply (binding_hash_is_expected_nonce VerifierProps.repr_tenth bool
           VerifierProps.toy_from_public_bytes VerifierProps.toy_verify)
    with (public_key_bytes := VerifierProps.toy_key).
  - intros f. reflexivity.
  - reflexivity.
Defined.

Definition typed_payload : gmap string pyval :=
  <["scalar" := VFloat 0.5%float]> AttestationProps.sample_payload.

Definition annotated_payload : gmap string pyval :=
  <["device" := VStr (Codec.ustr_of_string "a:b")]> typed_payload.

Lemma binding_str_determines_fields_witness :
  Attestation.binding_str AttestationProps.repr_stub typed_payload
  = Attestation.binding_str AttestationProps.repr_stub annotated_payload
  /\ 123 = 123
  /\ AttestationProps.repr_stub 0.5%float = AttestationProps.repr_stub 0.5%float
  /\ Attestation.format_value AttestationProps.repr_stub
       (Attestation.get typed_payload "model_hash")
     = Attestation.format_value AttestationProps.repr_stub
         (Attestation.get annotated_payload "model_hash").
Proof.
  split; [reflexivity|].
  apply (binding_str_determines_fields AttestationProps.repr_stub).
  - intros f. cbn. intros H. repeat destruct H as [H|H]; try discriminate. exact H.
  - reflexivity.
  - reflexivity.
  - reflexivity.
  - reflexivity.
  - reflexivity.
Defined.

End BindingProps.

(** ** Loading the client key: base64 text read back *)

Module KeyLoadingProps.

Local Open Scope Z_scope.

Definition code (c : ascii) : Z := Z.of_nat (nat_of_ascii c).

Lemma alphabet (n : Z) :
  0 <= n < 64 ->
  Codec.b64_value (code (Codec.b64_char n)) = Some n
  /\ (code (Codec.b64_char n) =? 61) = false
  /\ (0 <=? code (Codec.b64_char n)) && (code (Codec.b64_char n) <? 128) = true.
Proof.
  intros Hn. rewrite <- (Z2Nat.id n) by lia.
  assert (Hk : (Z.to_nat n < 64)%nat) by lia.
  generalize dependent (Z.to_nat n). clear n Hn. intros k Hk.
  do 64 (destruct k as [|k]; [vm_compute; auto|]). lia.
Qed.

Lemma byte_round (b : byte) : Codec.byte_of_Z (Codec.byte_to_Z b) = b.
Proof. destruct b; reflexivity. Qed.

Lemma list_ind3 {A : Type} (P : list A -> Prop) :
  P [] -> (forall a, P [a]) -> (forall a b, P [a; b]) ->
  (forall a b c rest, P rest -> P (a :: b :: c :: rest)) ->
  forall l, P l.
Proof.
  intros H0 H1 H2 H3.
  assert (H : forall n l, (List.length l <= n)%nat -> P l).
  { induction n as [|n IH]; intros l Hl.
    - destruct l; [exact H0 | cbn in Hl; lia].
    - destruct l as [|a [|b [|c rest]]]; auto.
      apply H3. apply IH. cbn in Hl. lia. }
  intros l. now apply (H (List.length l)).
Qed.

Definition octets (zs : list Z) : Prop := Forall (fun z => 0 <= z < 256) zs.

Ltac euclid := Z.to_euclidean_division_equations; lia.

(** One character of the alphabet, at each position of a quad. *)
Lemma a2b_first (n : Z) (cs : list Z) (leftchar pads : Z) (out : list Z) :
  0 <= n < 64 ->
  Codec.a2b_loop (code (Codec.b64_char n) :: cs) 0 leftchar pads out
  = Codec.a2b_loop cs 1 n 0 out.
Proof.
  intros Hn. cbn [Codec.a2b_loop]. now destruct (alphabet n Hn) as (-> & -> & _).
Qed.

Lemma a2b_second (n : Z) (cs : list Z) (leftchar pads : Z) (out : list Z) :
  0 <= n < 64 ->
  Codec.a2b_loop (code (Codec.b64_char n) :: cs) 1 leftchar pads out
  = Codec.a2b_loop cs 2 (n mod 16) 0 (leftchar * 4 + n / 16 :: out).
Proof.
  intros Hn. cbn [Codec.a2b_loop]. now destruct (alphabet n Hn) as (-> & -> & _).
Qed.

Lemma a2b_third (n : Z) (cs : list Z) (leftchar pads : Z) (out : list Z) :
  0 <= n < 64 ->
  Codec.a2b_loop (code (Codec.b64_char n) :: cs) 2 leftchar pads out
  = Codec.a2b_loop cs 3 (n mod 4) 0 (leftchar * 16 + n / 4 :: out).
Proof.
  intros Hn. cbn [Codec.a2b_loop]. now destruct (alphabet n Hn) as (-> & -> & _).
Qed.

Lemma a2b_fourth (n : Z) (cs : list Z) (leftchar pads : Z) (out : list Z) :
  0 <= n < 64 ->
  Codec.a2b_loop (code (Codec.b64_char n) :: cs) 3 leftchar pads out
  = Codec.a2b_loop cs 0 0 0 (leftchar * 64 + n :: out).
Proof.
  intros Hn. cbn [Codec.a2b_loop]. now destruct (alphabet n Hn) as (-> & -> & _).
Qed.

(** The decoding loop reads back what the encoder writes. *)
Lemma a2b_loop_b64encode (zs : list Z) :
  octets zs ->
  forall out,
    Codec.a2b_loop (Codec.ustr_of_string (Codec.b64encode_Z zs)) 0 0 0 out
    = Ok (List.rev out ++ zs).
Proof.
  unfold Codec.ustr_of_string. fold code.
  induction zs as [|a|a b|a b c rest IH] using list_ind3; intros Hz out.
  - cbn. now rewrite app_nil_r.
  - inversion Hz as [|? ? Ha _]; subst.
    cbn [Codec.b64encode_Z list_ascii_of_string List.map].
    rewrite a2b_first, a2b_second by euclid.
    change (code "=") with 61.
    change (Codec.a2b_loop [61; 61] 2 ?l 0 ?o) with (Ok (List.rev o)).
    cbn [List.rev]. do 3 f_equal. euclid.
  - inversion Hz as [|? ? Ha Hz']; subst. inversion Hz' as [|? ? Hb _]; subst.
    cbn [Codec.b64encode_Z list_ascii_of_string List.map].
    rewrite a2b_first, a2b_second, a2b_third by euclid.
    change (code "=") with 61.
    change (Codec.a2b_loop [61] 3 ?l 0 ?o) with (Ok (List.rev o)).
    cbn [List.rev]. rewrite <- app_assoc. cbn [app].
    do 2 f_equal. f_equal; [|f_equal]; euclid.
  - inversion Hz as [|? ? Ha Hz']; subst. inversion Hz' as [|? ? Hb Hz'']; subst.
    inversion Hz'' as [|? ? Hc Hrest]; subst.
    cbn [Codec.b64encode_Z list_ascii_of_string List.map].
    rewrite a2b_first, a2b_second, a2b_third, a2b_fourth by euclid.
    rewrite (IH Hrest). cbn [List.rev]. rewrite <- !app_assoc. cbn [app].
    do 2 f_equal. f_equal; [|f_equal; [|f_equal]]; euclid.
Qed.

Lemma b64encode_ascii (zs : list Z) :
  octets zs ->
  forallb (fun c => (0 <=? c) && (c <? 128))
    (Codec.ustr_of_string (Codec.b64encode_Z zs)) = true.
Proof.
  unfold Codec.ustr_of_string. fold code.
  assert (Hch : forall n, 0 <= n < 64 ->
            (0 <=? code (Codec.b64_char n)) && (code (Codec.b64_char n) <? 128) = true)
    by (intros n Hn; now apply alphabet).
  induction zs as [|a|a b|a b c rest IH] using list_ind3; intros Hz.
  - reflexivity.
  - inversion Hz as [|? ? Ha _]; subst.
    cbn [Codec.b64encode_Z list_ascii_of_string List.map forallb].
    rewrite !Hch by euclid. reflexivity.
  - inversion Hz as [|? ? Ha Hz']; subst. inversion Hz' as [|? ? Hb _]; subst.
    cbn [Codec.b64encode_Z list_ascii_of_string List.map forallb].
    rewrite !Hch by euclid. reflexivity.
  - inversion Hz as [|? ? Ha Hz']; subst. inversion Hz' as [|? ? Hb Hz'']; subst.
    inversion Hz'' as [|? ? Hc Hrest]; subst.
    cbn [Codec.b64encode_Z list_ascii_of_string List.map forallb].
    rewrite !Hch by euclid. now rewrite (IH Hrest).
Qed.

Lemma bytes_octets (bs : list byte) : octets (List.map Codec.byte_to_Z bs).
Proof.
  apply List.Forall_forall. intros z Hz. apply in_map_iff in Hz as (b & <- & _).
  apply CodecProps.byte_to_Z_range.
Qed.

(** [base64.b64decode(base64.b64encode(bs).decode())] is [bs]. *)
Lemma b64decode_b64encode (bs : list byte) :
  Codec.b64decode (Codec.ustr_of_string (Codec.b64encode bs)) = Ok bs.
Proof.
  unfold Codec.b64decode, Codec.b64encode.
  rewrite b64encode_ascii by apply bytes_octets.
  rewrite a2b_loop_b64encode by apply bytes_octets. cbn [bind List.rev app].
  f_equal. rewrite List.map_map. rewrite <- (List.map_id bs) at 2.
  apply List.map_ext. apply byte_round.
Qed.

Lemma b64encode_nonempty (bs : list byte) :
  bs <> [] -> Codec.ustr_of_string (Codec.b64encode bs) <> [].
Proof.
  unfold Codec.b64encode. destruct bs as [|a [|b [|c rest]]]; [congruence| | |];
    intros _; discriminate.
Qed.

Section KeyLoading.

Variable PrivateKey : Type.
Variable ed_from_private_bytes : list byte -> result PrivateKey.
Variable ed_generate : PrivateKey.

Local Abbreviation init := (Security.init PrivateKey ed_from_private_bytes ed_generate).

(** X14.  A key whose private bytes are put into [RUTH_CLIENT_PRIVATE_KEY] as
    base64 text is the key the manager holds after [__init__]: no new key is
    generated. *)
Theorem init_loads_exported_key (key : PrivateKey) (private_bytes : list byte) :
  private_bytes <> [] ->
  ed_from_private_bytes private_bytes = Ok key ->
  Security.private_key PrivateKey
    (init (Some (Codec.ustr_of_string (Codec.b64encode private_bytes)))) = key.
Proof.
  intros Hne Hkey. unfold Security.init.
  pose proof (b64encode_nonempty private_bytes Hne) as Htext.
  destruct (Codec.ustr_of_string (Codec.b64encode private_bytes)) as [|c text] eqn:E;
    [congruence|].
  cbn [List.length Nat.eqb negb]. rewrite <- E, b64decode_b64encode. cbn [bind].
  now rewrite Hkey.
Qed.

(** [__init__] never raises, and it holds the generated key whenever the
    variable is unset or empty, is not base64 text, or does not decode to
    bytes the key loader accepts. *)
Lemma init_falls_back (env : option Codec.ustr) :
  (forall text key,
     env = Some text -> text <> [] ->
     bind (Codec.b64decode text) ed_from_private_bytes <> Ok key) ->
  Security.private_key PrivateKey (init env) = ed_generate.
Proof.
  intros Hbad. unfold Security.init. destruct env as [text|]; [|reflexivity].
  destruct text as [|c text]; [reflexivity|]. cbn [List.length Nat.eqb negb].
  destruct (bind _ _) as [key|e] eqn:E; [|reflexivity].
  exfalso. now apply (Hbad (c :: text) key).
Qed.

End KeyLoading.

(** *** The theorems at concrete inputs: keys are 32-byte seeds *)

Definition seed_loader (bs : list byte) : result (list byte) :=
  if Nat.eqb (List.length bs) 32 then Ok bs else Raise ValueError.

Definition exported_seed : list byte := Sha256.digest [].

Lemma init_loads_exported_key_witness :
  Security.private_key (list byte)
    (Security.init (list byte) seed_loader []
       (Some (Codec.ustr_of_string (Codec.b64encode exported_seed))))
  = exported_seed.
Proof.
  apply (init_loads_exported_key (list byte) seed_loader []).
  - vm_compute. discriminate.
  - reflexivity.
Defined.

End KeyLoadingProps.

(** ** The gatekeeper: what acceptance requires, undecodable tokens,
       unchecked fields *)

Module GatekeeperProps.

Import Verifier.

Local Open Scope Z_scope.

(** A byte from 0xF5 to 0xFF occurs in no UTF-8 text. *)
Lemma utf8_decode_fuel_invalid (fuel : nat) :
  forall bs z,
    In z bs -> 245 <= z ->
    Codec.utf8_decode_fuel fuel bs = Raise UnicodeDecodeError.
Proof.
  assert (Hbind : forall (r : result Codec.ustr) (k : Codec.ustr -> result Codec.ustr),
            r = Raise UnicodeDecodeError -> bind r k = Raise UnicodeDecodeError)
    by (intros r k ->; reflexivity).
  assert (Hcont : forall b, 245 <= b -> Codec.is_cont b = false).
  { intros b Hb. unfold Codec.is_cont. destruct (Z.ltb_spec b 192); [lia|].
    apply andb_false_r. }
  induction fuel as [|fuel IH]; intros bs z Hin Hz.
  - destruct bs; [contradiction | reflexivity].
  - destruct bs as [|b0 r0]; [contradiction|]. cbn [Codec.utf8_decode_fuel].
    destruct Hin as [->|Hin].
    + destruct (Z.ltb_spec z 128); [lia|].
      destruct (Z.ltb_spec z 224); [lia|]. rewrite andb_false_r.
      destruct (Z.ltb_spec z 240); [lia|]. rewrite andb_false_r.
      destruct (Z.ltb_spec z 245); [lia|]. rewrite andb_false_r. reflexivity.
    + destruct (b0 <? 128); [apply Hbind; now apply (IH r0 z)|].
      destruct (andb (194 <=? b0) (b0 <? 224)).
      { destruct r0 as [|b1 r1]; [reflexivity|].
        destruct Hin as [->|Hin]; [now rewrite (Hcont z Hz)|].
        destruct (Codec.is_cont b1); [|reflexivity].
        apply Hbind. now apply (IH r1 z). }
      destruct (andb (224 <=? b0) (b0 <? 240)).
      { destruct r0 as [|b1 [|b2 r2]]; try reflexivity.
        destruct Hin as [->|[->|Hin]].
        - now rewrite (Hcont z Hz).
        - rewrite (Hcont z Hz). now rewrite andb_false_r.
        - destruct (andb _ _); [|reflexivity]. apply Hbind. now apply (IH r2 z). }
      destruct (andb (240 <=? b0) (b0 <? 245)); [|reflexivity].
      destruct r0 as [|b1 [|b2 [|b3 r3]]]; try reflexivity.
      destruct Hin as [->|[->|[->|Hin]]].
      * now rewrite (Hcont z Hz).
      * rewrite (Hcont z Hz). now rewrite andb_false_r.
      * rewrite (Hcont z Hz). now rewrite !andb_false_r.
      * destruct (andb _ _); [|reflexivity]. apply Hbind. now apply (IH r3 z).
Qed.

Lemma utf8_decode_invalid (bs : list byte) (b : byte) :
  In b bs -> 245 <= Codec.byte_to_Z b ->
  Codec.utf8_decode bs = Raise UnicodeDecodeError.
Proof.
  intros Hin Hb. unfold Codec.utf8_decode.
  apply (utf8_decode_fuel_invalid _ _ (Codec.byte_to_Z b)); [|exact Hb].
  now apply in_map.
Qed.

Section Gatekeeper.

Variable PublicKey : Type.
Variable ed_from_public_bytes : list byte -> result PublicKey.
Variable ed_verify : PublicKey -> list byte -> list byte -> bool.
Variable float_repr : float -> string.
Variable urlopen : string -> Codec.ustr -> http_outcome.

Local Abbreviation check_signature :=
  (check_signature PublicKey ed_from_public_bytes ed_verify float_repr).
Local Abbreviation verify_update :=
  (verify_update PublicKey ed_from_public_bytes ed_verify float_repr urlopen).
Local Abbreviation _verify_attestation := (_verify_attestation urlopen).

(** X15.  [verify_update] returns [True] exactly when the signature stage
    passes, the token is UTF-8 text, the service answers with status 200 and a
    JSON object, the object's ["isValidSignature"] and ["basicIntegrity"]
    entries are truthy, and its ["nonce"] entry passes the nonce test against
    the SHA-256 of the signed payload.  Another status, a body that is not
    JSON or not an object, or an object without one of the three entries
    leads to rejection: an absent flag counts as [False], and an absent nonce
    passes the nonce test for no expected value. *)
Theorem verify_update_accepts_iff (g : t) (update : ClientUpdate)
  (public_key_bytes : list byte) :
  (verify_update g update public_key_bytes = Ok true
   <-> exists payload token fields,
         check_signature update public_key_bytes = Some payload
         /\ Codec.utf8_decode (attestation_token update) = Ok token
         /\ urlopen (api_key g) token = Response 200 (Ok (JObj fields))
         /\ truthy (dict_get fields "isValidSignature" (JBool false)) = true
         /\ nonce_accepted (dict_get fields "nonce" JNull) (Sha256.hexdigest payload)
            = true
         /\ truthy (dict_get fields "basicIntegrity" (JBool false)) = true)
  /\ (forall fields key expected,
        assoc fields key = None ->
        truthy (dict_get fields key (JBool false)) = false
        /\ nonce_accepted (dict_get fields key JNull) expected = false).
Proof.
  split; [|intros fields key expected Hnone; unfold dict_get; now rewrite Hnone].
  unfold Verifier.verify_update, Verifier._verify_attestation. split.
  - destruct (check_signature update public_key_bytes) as [payload|]; [|discriminate].
    destruct (Codec.utf8_decode (attestation_token update)) as [token|e];
      [|discriminate].
    cbn [bind].
    destruct (urlopen (api_key g) token) as [code| | |status body] eqn:Hurl;
      try discriminate.
    destruct (Z.eqb_spec status 200) as [->|_]; [|discriminate]. cbn [negb].
    destruct body as [[| | | | | |fields]|e]; try discriminate.
    destruct (truthy (dict_get fields "isValidSignature" _)) eqn:Hsig; [|discriminate].
    destruct (nonce_accepted _ _) eqn:Hnonce; [|discriminate].
    destruct (truthy (dict_get fields "basicIntegrity" _)) eqn:Hint; [|discriminate].
    intros _. exists payload, token, fields. repeat split; assumption || reflexivity.
  - intros (payload & token & fields & -> & -> & Hurl & Hsig & Hnonce & Hint).
    cbn [bind]. rewrite Hurl. cbn [Z.eqb Pos.eqb negb]. now rewrite Hsig, Hnonce, Hint.
Qed.

(** X16.  When the signature stage passes and the token holds a byte from 0xF5
    to 0xFF, [verify_update] raises [UnicodeDecodeError] instead of returning
    [False], whatever the service would answer. *)
Theorem verify_update_undecodable_token (g : t) (update : ClientUpdate)
  (public_key_bytes payload : list byte) (b : byte) :
  check_signature update public_key_bytes = Some payload ->
  In b (attestation_token update) -> 245 <= Codec.byte_to_Z b ->
  verify_update g update public_key_bytes = Raise UnicodeDecodeError.
Proof.
  intros Hsig Hin Hb. unfold Verifier.verify_update, Verifier._verify_attestation.
  now rewrite Hsig, (utf8_decode_invalid _ b Hin Hb).
Qed.

(** X17.  The verdict never depends on the [device_id] and the [loss] of an
    update: neither is signed, neither enters the nonce. *)
Theorem verify_update_unchecked_fields (g : t) (u1 u2 : ClientUpdate)
  (public_key_bytes : list byte) :
  seed_id u1 = seed_id u2 -> scalar u1 = scalar u2 -> round_id u1 = round_id u2 ->
  signature u1 = signature u2 -> attestation_token u1 = attestation_token u2 ->
  verify_update g u1 public_key_bytes = verify_update g u2 public_key_bytes.
Proof.
  intros Hs Hx Hr Hg Ht.
  unfold Verifier.verify_update, Verifier.check_signature.
  now rewrite Hs, Hx, Hr, Hg, Ht.
Qed.

End Gatekeeper.

(** *** The theorems at concrete inputs *)

Import VerifierProps.

(** A service that answers with a text and a number where booleans are
    expected. *)
Definition loose_answer (key : string) (token : Codec.ustr) : http_outcome :=
  Response 200
    (Ok (JObj [("isValidSignature", JStr (Codec.ustr_of_string "false"));
               ("basicIntegrity", JInt 1);
               ("nonce", JStr (Codec.ustr_of_string spec_nonce))])).

Lemma verify_update_accepts_iff_witness :
  Verifier.verify_update bool toy_from_public_bytes toy_verify repr_tenth loose_answer
    gate spec_update toy_key = Ok true.
Proof.
  apply (proj1 (verify_update_accepts_iff bool toy_from_public_bytes toy_verify
                  repr_tenth loose_answer gate spec_update toy_key)).
  exists spec_payload. eexists. eexists.
  split; [reflexivity|]. split; [vm_compute; reflexivity|].
  split; [reflexivity|]. split; [reflexivity|]. split; [vm_compute; reflexivity|].
  reflexivity.
Defined.

Definition garbled_update : ClientUpdate :=
  mkUpdate "device1" 7 42 0.1%float 0.5%float (toy_sign true spec_payload)
    [Byte.x6d; Byte.xff].

Lemma verify_update_undecodable_token_witness :
  Verifier.verify_update bool toy_from_public_bytes toy_verify repr_tenth
    (answer (JStr (Codec.ustr_of_string spec_nonce))) gate garbled_update toy_key
  = Raise UnicodeDecodeError.
Proof.
  apply (verify_update_undecodable_token bool toy_from_public_bytes toy_verify
           repr_tenth _ gate garbled_update toy_key spec_payload Byte.xff).
  - reflexivity.
  - right. left. reflexivity.
  - discriminate.
Defined.

Definition relabelled_update : ClientUpdate :=
  mkUpdate "device2" 7 42 0.1%float 99%float (toy_sign true spec_payload) mock_token.

Lemma verify_update_unchecked_fields_witness :
  Verifier.verify_update bool toy_from_public_bytes toy_verify repr_tenth
    (answer (JStr (Codec.ustr_of_string spec_nonce))) gate spec_update toy_key
  = Verifier.verify_update bool toy_from_public_bytes toy_verify repr_tenth
      (answer (JStr (Codec.ustr_of_string spec_nonce))) gate relabelled_update toy_key.
Proof.
  apply (verify_update_unchecked_fields bool toy_from_public_bytes toy_verify
           repr_tenth); reflexivity.
Defined.

End GatekeeperProps.

(** ** The round collector: what the store holds, what the worker loads *)

Module StoreProps.

Import Collector KeyProps CollectorProps.

Local Open Scope Z_scope.

#[local] Arguments String.append !s1 s2 : simpl nomatch.

(** *** Keys *)


(** *** Commands change one key *)

Definition key_of (c : command) : string :=
  match c with
  | LPush key _ | Incr key | Del key => key
  end.

Lemma exec_other_key (st : gmap string rval) (c : command) (key : string) :
  key <> key_of c -> snd (exec st c) !! key = st !! key.
Proof.
  intros Hne. destruct c as [k v|k|k]; cbn [exec key_of] in *.
  - destruct (st !! k) as [[l|s]|]; cbn [snd]; try reflexivity;
      now apply lookup_insert_ne.
  - destruct (st !! k) as [[l|s]|]; cbn [snd]; try reflexivity;
      [destruct (redis_int s); cbn [snd]; try reflexivity|];
      now apply lookup_insert_ne.
  - destruct (st !! k); cbn [snd]; [|reflexivity]. now apply lookup_delete_ne.
Qed.

Lemma exec_all_other_key (cmds : list command) (key : string) :
  forall st,
    Forall (fun c => key <> key_of c) cmds ->
    snd (exec_all st cmds) !! key = st !! key.
Proof.
  induction cmds as [|c cmds IH]; intros st Hall; [reflexivity|].
  inversion Hall as [|? ? Hc Hrest]; subst. cbn [exec_all].
  pose proof (exec_other_key st c key Hc) as H1.
  destruct (exec st c) as [r st1]. cbn [snd] in H1.
  specialize (IH st1 Hrest). destruct (exec_all st1 cmds) as [ok st2].
  cbn [snd] in *. congruence.
Qed.

Lemma pipeline_other_key (conn : bool) (st : gmap string rval) (cmds : list command)
  (key : string) :
  Forall (fun c => key <> key_of c) cmds ->
  snd (pipeline_execute conn st cmds) !! key = st !! key.
Proof.
  intros Hall. unfold pipeline_execute. destruct conn; [|reflexivity].
  pose proof (exec_all_other_key cmds key st Hall) as H.
  now destruct (exec_all st cmds).
Qed.

Section AsyncAggregator.

Variable serialize : ClientUpdate -> list byte.

Local Abbreviation submit_update := (submit_update serialize).

Lemma submit_update_other_key (conn : bool) (st : gmap string rval)
  (update : ClientUpdate) (key : string) :
  key <> updates_key (round_id update) -> key <> count_key (round_id update) ->
  snd (submit_update conn st update) !! key = st !! key.
Proof.
  intros H1 H2. unfold Collector.submit_update.
  pose proof (pipeline_other_key conn st (submit_commands serialize update) key) as H.
  destruct (pipeline_execute conn st _) as [[u|e] st']; cbn [snd] in *; apply H;
    repeat constructor; assumption.
Qed.

(** X19.  A submission changes nothing in the store but the list and the
    counter of its own round: every other key, and so the list and the
    counter of every other round, holds what it held. *)
Theorem submit_update_touches_one_round (conn : bool) (st : gmap string rval)
  (update : ClientUpdate) :
  (forall key,
     key <> updates_key (round_id update) -> key <> count_key (round_id update) ->
     snd (submit_update conn st update) !! key = st !! key)
  /\ (forall r,
        r <> round_id update ->
        snd (submit_update conn st update) !! updates_key r = st !! updates_key r
        /\ snd (submit_update conn st update) !! count_key r = st !! count_key r).
Proof.
  split; [apply submit_update_other_key|].
  intros r Hr. split; apply submit_update_other_key; intros H; keys_differ.
Qed.


(** *** A sequence of submissions *)

Fixpoint submit_all (st : gmap string rval) (updates : list ClientUpdate)
  : list bool * gmap string rval :=
  match updates with
  | [] => ([], st)
  | update :: rest =>
      let '(ok, st1) := submit_update true st update in
      let '(oks, st2) := submit_all st1 rest in
      (ok :: oks, st2)
  end.

Definition of_round (r : Z) (updates : list ClientUpdate) : list ClientUpdate :=
  List.filter (fun u => round_id u =? r) updates.

(** A parser that accepts everything: with it, [store_ok] says no more than
    that lists and counters agree. *)
Definition any_parse (data : list byte) : result ClientUpdate :=
  Ok (mkUpdate "" 0 0 0%float 0%float [] []).

Lemma any_parsable (l : list (list byte)) : parsable any_parse l.
Proof. apply List.Forall_forall. intros data _. reflexivity. Qed.

Lemma submit_all_items (updates : list ClientUpdate) :
  forall st,
    store_ok any_parse st ->
    fst (submit_all st updates) = repeat true (List.length updates)
    /\ store_ok any_parse (snd (submit_all st updates))
    /\ forall r,
         items (snd (submit_all st updates)) r
         = List.rev (List.map serialize (of_round r updates)) ++ items st r.
Proof.
  induction updates as [|u rest IH]; intros st Hst.
  - cbn. auto.
  - cbn [submit_all]. rewrite (submit_update_store serialize any_parse st u Hst).
    assert (Hst1 : store_ok any_parse
                     (put st (round_id u) (serialize u :: items st (round_id u)))).
    { apply put_ok; [exact Hst | discriminate | apply any_parsable]. }
    destruct (IH _ Hst1) as (Hflags & Hok & Hitems).
    destruct (submit_all _ rest) as [oks st2]. cbn [fst snd] in *.
    split; [now rewrite Hflags|]. split; [exact Hok|].
    intros r. rewrite Hitems, items_put. unfold of_round. cbn [List.filter].
    destruct (decide (r = round_id u)) as [->|Hne].
    + rewrite Z.eqb_refl. cbn [List.map List.rev]. now rewrite <- app_assoc.
    + destruct (Z.eqb_spec (round_id u) r); [congruence | reflexivity].
Qed.

Lemma counter_read (st : gmap string rval) (r : Z) :
  store_ok any_parse st ->
  bind (get st (count_key r)) count_of = Ok (Z.of_nat (List.length (items st r))).
Proof.
  intros [_ Hrounds]. specialize (Hrounds r). unfold round_ok, items, get in *.
  destruct (st !! updates_key r) as [[l|c]|];
    destruct (st !! count_key r) as [[l'|c']|]; try tauto.
  destruct Hrounds as (_ & -> & _). cbn [bind]. apply count_of_str_int.
Qed.

Lemma staged_items (updates : list ClientUpdate) (r : Z) :
  fst (submit_all ∅ updates) = repeat true (List.length updates)
  /\ store_ok any_parse (snd (submit_all ∅ updates))
  /\ items (snd (submit_all ∅ updates)) r
     = List.rev (List.map serialize (of_round r updates)).
Proof.
  destruct (submit_all_items updates ∅ (store_ok_empty any_parse))
    as (Hflags & Hok & Hitems).
  split; [exact Hflags|]. split; [exact Hok|].
  rewrite Hitems. unfold items. rewrite lookup_empty. apply app_nil_r.
Qed.

(** X21.  After any sequence of submissions to an empty store, each of them
    has returned [True]; the list of a round holds the serializations of
    exactly the updates submitted for that round, the latest first; and the
    counter of the round reads their number. *)
Theorem submissions_are_staged (updates : list ClientUpdate) (r : Z) :
  fst (submit_all ∅ updates) = repeat true (List.length updates)
  /\ lrange_all (snd (submit_all ∅ updates)) (updates_key r)
     = Ok (List.rev (List.map serialize (of_round r updates)))
  /\ bind (get (snd (submit_all ∅ updates)) (count_key r)) count_of
     = Ok (Z.of_nat (List.length (of_round r updates))).
Proof.
  destruct (staged_items updates r) as (Hflags & Hok & Hr).
  split; [exact Hflags|]. split.
  - rewrite (lrange_all_items any_parse _ r Hok). now rewrite Hr.
  - rewrite (counter_read _ r Hok), Hr.
    now rewrite List.length_rev, List.length_map.
Qed.

(** *** The worker *)

Section Worker.

Variable parse : list byte -> result ClientUpdate.
Variable k_threshold : Z.

Local Abbreviation step := (step serialize parse k_threshold).
Local Abbreviation run := (run serialize parse k_threshold).

Lemma run_app (a b : list action) (s : sys) :
  run (a ++ b) s = match run a s with Some s' => run b s' | None => None end.
Proof.
  revert s. induction a as [|x a IH]; intros s; [reflexivity|].
  cbn [app Collector.run]. destruct (step x s); [apply IH | reflexivity].
Qed.

Lemma run_submissions (updates : list ClientUpdate) :
  forall s,
    store_ok any_parse (store s) ->
    run (List.map ASubmit updates) s
    = Some (mkSys (snd (submit_all (store s) updates)) (task s)
              (accepted s ++ List.map round_id updates) (invoked s) (completed s)).
Proof.
  induction updates as [|u rest IH]; intros s Hst.
  - cbn. rewrite app_nil_r. now destruct s.
  - cbn [List.map Collector.run Collector.step submit_all].
    rewrite (submit_update_store serialize any_parse _ u Hst).
    rewrite IH; cbn [store task accepted invoked completed].
    + destruct (submit_all _ rest) as [oks st2]. cbn [snd].
      now rewrite <- app_assoc.
    + apply put_ok; [exact Hst | discriminate | apply any_parsable].
Qed.

Lemma parse_all_serialized (updates : list ClientUpdate) :
  Forall (fun u => parse (serialize u) = Ok u) updates ->
  parse_all parse (List.map serialize updates) = Ok updates.
Proof.
  induction 1 as [|u rest Hu _ IH]; [reflexivity|].
  cbn [List.map parse_all]. now rewrite Hu, IH.
Qed.

(** X22.  When a quorum of updates, each of which the parser reads back from
    its serialization, has been submitted for one round to an empty store, the
    worker's next visit triggers the aggregation of that round once, on the
    counter value that is their number, and loads exactly the submitted
    updates, the latest first. *)
Theorem worker_loads_submissions (updates : list ClientUpdate) (r : Z) :
  Forall (fun u => parse (serialize u) = Ok u) updates ->
  Forall (fun u => round_id u = r) updates ->
  updates <> [] ->
  k_threshold <= Z.of_nat (List.length updates) ->
  exists s,
    run (List.map ASubmit updates ++ [AScan [count_key r]; AGet; ALoad]) initial = Some s
    /\ task s = Loaded r (List.rev updates) []
    /\ invoked s = [(r, Z.of_nat (List.length updates))]
    /\ store s = snd (submit_all ∅ updates).
Proof.
  intros Hround Hall Hne Hk.
  assert (Hof : of_round r updates = updates).
  { clear Hne Hk Hround. unfold of_round. induction Hall as [|u l Hu _ IH]; [reflexivity|].
    cbn [List.filter]. now rewrite Hu, Z.eqb_refl, IH. }
  destruct (submit_all_items updates ∅ (store_ok_empty any_parse))
    as (_ & Hok & Hitems).
  destruct (staged_items updates r) as (_ & _ & Hr). rewrite Hof in Hr.
  pose proof (lrange_all_items any_parse _ r Hok) as Hrange.
  pose proof (counter_read _ r Hok) as Hcount.
  rewrite Hr in Hrange, Hcount. rewrite List.length_rev, List.length_map in Hcount.
  rewrite run_app, (run_submissions updates initial (store_ok_empty any_parse)).
  cbn [store task accepted invoked completed initial].
  set (st := snd (submit_all ∅ updates)) in *.
  assert (Hpresent : exists c, st !! count_key r = Some (RStr c)).
  { destruct Hok as [_ Hrounds]. specialize (Hrounds r). unfold round_ok in Hrounds.
    specialize (Hitems r). unfold items in Hitems. rewrite lookup_empty, app_nil_r in Hitems.
    rewrite Hof in Hitems.
    destruct (st !! updates_key r) as [[l|c]|];
      destruct (st !! count_key r) as [[l'|c']|]; try tauto; eauto.
    exfalso. apply Hne. apply (f_equal (@List.rev _)) in Hitems.
    rewrite List.rev_involutive in Hitems. cbn in Hitems.
    destruct updates; [reflexivity | discriminate (f_equal (@List.length _) Hitems)]. }
  destruct Hpresent as [c Hc].
  cbn [Collector.run Collector.step task store accepted invoked completed forallb].
  unfold present. rewrite Hc, glob_match_count_key. cbn [andb].
  cbn [Collector.run Collector.step task store accepted invoked completed].
  rewrite parse_round_count_key.
  unfold get in Hcount. rewrite Hc in Hcount. cbn [bind] in Hcount.
  unfold get. rewrite Hc, Hcount.
  destruct (Z.leb_spec k_threshold (Z.of_nat (List.length updates))) as [_|]; [|lia].
  cbn [Collector.run Collector.step task store accepted invoked completed].
  rewrite Hrange, <- List.map_rev.
  rewrite parse_all_serialized by (now apply Forall_rev).
  eexists. split; [reflexivity|]. cbn. auto.
Qed.

Lemma parse_all_fails (l : list (list byte)) (bad : list byte) (e : exn) :
  In bad l -> parse bad = Raise e -> exists e', parse_all parse l = Raise e'.
Proof.
  intros Hin Hbad. induction l as [|data l IH]; [contradiction|].
  cbn [parse_all]. destruct Hin as [->|Hin].
  - rewrite Hbad. cbn. eauto.
  - destruct (parse data) as [u|e0]; cbn [bind]; [|eauto].
    destruct (IH Hin) as [e' ->]. cbn. eauto.
Qed.

(** One visit of the worker that stops after the load. *)
Definition visit (r : Z) : list action := [AScan [count_key r]; AGet; ALoad].

(** X23.  A staged element that the parser refuses blocks its round: every visit
    of the worker triggers the aggregation again, abandons it at the load,
    and leaves the list and the counter in the store, so that the keys are
    never deleted and the round is triggered at every poll. *)
Theorem unparsable_update_blocks_round (s : sys) (r n : Z) (l : list (list byte))
  (bad : list byte) (e : exn) (visits : nat) :
  task s = Scanning [] ->
  store s !! count_key r = Some (RStr (str_int n)) ->
  store s !! updates_key r = Some (RList l) ->
  k_threshold <= n ->
  In bad l -> parse bad = Raise e ->
  run (concat (repeat (visit r) visits)) s
  = Some (mkSys (store s) (Scanning []) (accepted s)
            (invoked s ++ repeat (r, n) visits) (completed s)).
Proof.
  intros Ht Hc Hu Hk Hin Hbad. revert s Ht Hc Hu.
  induction visits as [|m IH]; intros s Ht Hc Hu.
  - cbn. rewrite app_nil_r. destruct s; cbn in *. now subst.
  - cbn [repeat concat]. rewrite run_app.
    assert (Hvisit : run (visit r) s
                     = Some (mkSys (store s) (Scanning []) (accepted s)
                               (invoked s ++ [(r, n)]) (completed s))).
    { unfold visit. cbn [Collector.run Collector.step forallb]. rewrite Ht.
      unfold present. rewrite Hc, glob_match_count_key. cbn [andb].
      cbn [Collector.run Collector.step task store accepted invoked completed].
      rewrite parse_round_count_key. unfold get. rewrite Hc, count_of_str_int.
      destruct (Z.leb_spec k_threshold n) as [_|]; [|lia].
      cbn [Collector.run Collector.step task store accepted invoked completed].
      unfold lrange_all. rewrite Hu.
      destruct (parse_all_fails l bad e Hin Hbad) as [e' ->]. reflexivity. }
    rewrite Hvisit, IH; cbn [store task accepted invoked completed]; try assumption;
      try reflexivity.
    now rewrite <- app_assoc.
Qed.

End Worker.

End AsyncAggregator.

(** *** The theorems at concrete inputs *)


Lemma worker_loads_submissions_witness :
  exists s,
    Collector.run wire_serialize (fun _ => Ok genuine) 2
      (List.map ASubmit [genuine; genuine] ++ [AScan [count_key 1]; AGet; ALoad]) initial
    = Some s
    /\ task s = Loaded 1 (List.rev [genuine; genuine]) []
    /\ invoked s = [(1, Z.of_nat (List.length [genuine; genuine]))]
    /\ store s = snd (submit_all wire_serialize ∅ [genuine; genuine]).
Proof.
  apply (worker_loads_submissions wire_serialize (fun _ => Ok genuine) 2
           [genuine; genuine] 1).
  - repeat constructor.
  - repeat constructor.
  - discriminate.
  - cbn. lia.
Defined.

(** Two staged elements, the older of which no parser reads; three visits. *)
Definition refusing_parse (data : list byte) : result ClientUpdate :=
  match data with
  | [] => Raise OtherError
  | _ :: _ => Ok genuine
  end.

Definition blocked : sys :=
  mkSys (<[count_key 1 := RStr (str_int 2)]>
           (<[updates_key 1 := RList [wire_serialize genuine; []]]> ∅))
    (Scanning []) [1; 1] [] [].

Lemma unparsable_update_blocks_round_witness :
  Collector.run wire_serialize refusing_parse 2 (concat (repeat (visit 1) 3)) blocked
  = Some (mkSys (store blocked) (Scanning []) [1; 1] [(1, 2); (1, 2); (1, 2)] []).
Proof.
  apply (unparsable_update_blocks_round wire_serialize refusing_parse 2 blocked 1 2
           [wire_serialize genuine; []] [] OtherError 3).
  - reflexivity.
  - reflexivity.
  - reflexivity.
  - lia.
  - right. left. reflexivity.
  - reflexivity.
Defined.

End StoreProps.

(** ** The configuration script next to the collector *)

Module ConfigScriptProps.

Import Collector ConfigScript KeyProps StoreProps.

Local Open Scope Z_scope.

#[local] Arguments String.append !s1 s2 : simpl nomatch.

Lemma model_url_ne_updates (r r' : Z) : model_url_key r <> updates_key r'.
Proof.
  intros H. apply (f_equal last_ascii) in H. unfold updates_key, model_url_key in H.
  rewrite <- !append_assoc, !last_ascii_app in H by discriminate. discriminate.
Qed.

Lemma model_url_ne_count (r r' : Z) : model_url_key r <> count_key r'.
Proof.
  intros H. apply (f_equal last_ascii) in H. unfold count_key, model_url_key in H.
  rewrite <- !append_assoc, !last_ascii_app in H by discriminate. discriminate.
Qed.

(** X24.  Publishing a model URL changes neither the list nor the counter of any
    round, and the key it writes is not one the worker's scan pattern
    matches. *)
Theorem update_redis_spares_rounds (conn : bool) (st st' : gmap string rval)
  (round_id : Z) (model_url : Codec.ustr) :
  update_redis conn st round_id model_url = Ok st' ->
  glob_match (model_url_key round_id) = false
  /\ forall r,
       st' !! updates_key r = st !! updates_key r
       /\ st' !! count_key r = st !! count_key r.
Proof.
  intros Hset. split.
  - unfold glob_match, has_suffix, model_url_key.
    rewrite !rev_string_app. cbn. now rewrite andb_false_r.
  - intros r. unfold update_redis in Hset. destruct conn; [|discriminate].
    destruct (Codec.utf8_encode model_url) as [value|e]; [|discriminate].
    cbn [bind] in Hset. injection Hset as <-.
    unfold set. split; apply lookup_insert_ne.
    + apply model_url_ne_updates.
    + apply model_url_ne_count.
Qed.

Section AsyncAggregator.

Variable serialize : ClientUpdate -> list byte.
Variable parse : list byte -> result ClientUpdate.
Variable k_threshold : Z.

Local Abbreviation step := (step serialize parse k_threshold).
Local Abbreviation run := (run serialize parse k_threshold).

Lemma step_keeps_model_url (a : action) (s s' : sys) (r : Z) :
  step a s = Some s' -> store s' !! model_url_key r = store s !! model_url_key r.
Proof.
  destruct a as [u|keys| | |]; cbn [Collector.step].
  - pose proof (submit_update_other_key serialize true (store s) u (model_url_key r)
                  (model_url_ne_updates _ _) (model_url_ne_count _ _)) as Hkey.
    destruct (submit_update serialize true (store s) u) as [ok st'].
    intros [= <-]. exact Hkey.
  - destruct (task s) as [[|k ks]| |]; try discriminate.
    destruct (forallb _ keys); [|discriminate]. now intros [= <-].
  - destruct (task s) as [[|k ks]| |]; try discriminate.
    destruct (parse_round k); [|now intros [= <-]].
    destruct (get (store s) k); [|now intros [= <-]].
    destruct (count_of _); [|now intros [= <-]].
    destruct (k_threshold <=? _); now intros [= <-].
  - destruct (task s) as [|rid rest|]; try discriminate.
    destruct (lrange_all _ _); [|now intros [= <-]].
    destruct (parse_all _ _); now intros [= <-].
  - destruct (task s) as [| |rid us rest]; try discriminate.
    pose proof (pipeline_other_key true (store s)
                  [Del (updates_key rid); Del (count_key rid)] (model_url_key r)) as H.
    destruct (pipeline_execute _ _ _) as [[u|e] st']; intros [= <-]; cbn [store snd] in *;
      apply H; repeat constructor;
      (apply model_url_ne_updates || apply model_url_ne_count).
Qed.

(** X25.  A model URL published for a round stays in the store, unchanged,
    through every schedule of the collector: submissions, polls, aggregations
    and cleanups, those of the same round included. *)
Theorem published_model_survives (acts : list action) (s s' : sys)
  (st : gmap string rval) (round_id : Z) (model_url : Codec.ustr) :
  update_redis true (store s) round_id model_url = Ok st ->
  run acts (mkSys st (task s) (accepted s) (invoked s) (completed s)) = Some s' ->
  exists value,
    Codec.utf8_encode model_url = Ok value
    /\ store s' !! model_url_key round_id = Some (RStr (string_of_list_byte value)).
Proof.
  intros Hset Hrun. unfold update_redis in Hset.
  destruct (Codec.utf8_encode model_url) as [value|e]; [|discriminate].
  cbn [bind] in Hset. injection Hset as <-.
  exists value. split; [reflexivity|].
  assert (Hkeep : forall acts s0 s1,
            run acts s0 = Some s1 ->
            store s1 !! model_url_key round_id = store s0 !! model_url_key round_id).
  { clear. induction acts as [|a acts IH]; intros s0 s1 H.
    - now injection H as <-.
    - cbn [Collector.run] in H. destruct (step a s0) as [s2|] eqn:Hs; [|discriminate].
      rewrite (IH _ _ H). now apply (step_keeps_model_url a). }
  rewrite (Hkeep _ _ _ Hrun). cbn [store]. unfold set. apply lookup_insert_eq.
Qed.

End AsyncAggregator.

(** *** The theorems at concrete inputs *)

Import CollectorProps.

Definition model_address : Codec.ustr := Codec.ustr_of_string "s3://models/round-1.pte".

Definition published : gmap string rval :=
  set ∅ (model_url_key 1) (Codec.bytes_of_string "s3://models/round-1.pte").

Lemma update_redis_spares_rounds_witness :
  glob_match (model_url_key 1) = false
  /\ published !! updates_key 1 = (∅ : gmap string rval) !! updates_key 1.
Proof.
  destruct (update_redis_spares_rounds true ∅ published 1 model_address) as [H1 H2].
  - reflexivity.
  - split; [exact H1 | apply (H2 1)].
Defined.

Lemma published_model_survives_witness :
  exists s',
    Collector.run stub_serialize stub_parse 2 one_quorum
      (mkSys published (Scanning []) [] [] []) = Some s'
    /\ store s' !! model_url_key 1 = Some (RStr "s3://models/round-1.pte").
Proof.
  destruct (Collector.run stub_serialize stub_parse 2 one_quorum
              (mkSys published (Scanning []) [] [] [])) as [s'|] eqn:Hrun;
    [|vm_compute in Hrun; discriminate].
  exists s'. split; [reflexivity|].
  destruct (published_model_survives stub_serialize stub_parse 2 one_quorum initial s'
              published 1 model_address) as (value & Hv & Hs).
  - reflexivity.
  - exact Hrun.
  - rewrite Hs. vm_compute in Hv. injection Hv as <-. reflexivity.
Defined.

End ConfigScriptProps.

(** ** The perturbed parameters of the edge model *)

Module EdgeModelProps.

Import EdgeModel.

Lemma slice_in_range {A : Type} (l : list A) (lo n : nat) :
  slice l (Z.of_nat lo) (Z.of_nat (lo + n)) = firstn n (skipn lo l).
Proof.
  unfold slice, clamp_index.
  destruct (Z.ltb_spec (Z.of_nat lo) 0); [lia|].
  destruct (Z.ltb_spec (Z.of_nat (lo + n)) 0); [lia|].
  destruct (Nat.le_gt_cases (lo + n) (List.length l)) as [Hle|Hgt].
  - f_equal; [|f_equal]; lia.
  - destruct (Nat.le_gt_cases lo (List.length l)) as [Hlo|Hlo].
    + replace (Z.to_nat (Z.min _ _ - Z.min _ _)) with (List.length l - lo)%nat by lia.
      replace (Z.to_nat (Z.min _ (Z.of_nat lo))) with lo by lia.
      rewrite (firstn_all2 (n := List.length l - lo))
        by (rewrite List.length_skipn; lia).
      rewrite (firstn_all2 (n := n)) by (rewrite List.length_skipn; lia).
      reflexivity.
    + replace (Z.to_nat (Z.min _ _ - Z.min _ _)) with 0%nat by lia.
      rewrite (skipn_all2 (n := lo)) by lia. cbn. now destruct n.
Qed.

Lemma list_sum_cons (a : nat) (l : list nat) : list_sum (a :: l) = (a + list_sum l)%nat.
Proof. reflexivity. Qed.

Section RuthEdge.

Variables F Batch Loss : Type.
Variable fadd : F -> F -> F.
Variable fmul : float -> F -> F.
Variable functional_loss : gmap string (list F) -> Batch -> Batch -> Loss.

Local Abbreviation Param := (Param F).
Local Abbreviation numel := (numel F).
Local Abbreviation perturb_loop := (perturb_loop F fadd fmul).
Local Abbreviation perturbed_parameters := (perturbed_parameters F fadd fmul).
Local Abbreviation forward_perturb := (forward_perturb F Batch Loss fadd fmul functional_loss).

(** [param + epsilon * v_param], element by element. *)
Definition perturb (epsilon : float) (param : Param) (v_param : list F) : list F :=
  List.map (fun ab => fadd (fst ab) (snd ab))
    (combine (data F param) (List.map (fmul epsilon) v_param)).

Definition trainable (named : list (string * Param)) : list (string * Param) :=
  List.filter (fun np => requires_grad F (snd np)) named.

(** The number of elements of the trainable parameters. *)
Definition trainable_numel (named : list (string * Param)) : nat :=
  list_sum (List.map (fun np => numel (snd np)) (trainable named)).

Lemma perturb_loop_ok (params : gmap string Param) (v_flat : list F) (epsilon : float)
  (tr : list (string * Param)) :
  forall offset acc,
    List.NoDup (List.map fst tr) ->
    (forall name p, In (name, p) tr -> params !! name = Some p) ->
    (offset + list_sum (List.map (fun np => numel (snd np)) tr) <= List.length v_flat)%nat ->
    exists out,
      perturb_loop (List.map fst tr) params v_flat epsilon offset acc = Ok out
      /\ (forall name, ~ In name (List.map fst tr) -> out !! name = acc !! name)
      /\ forall j name p,
           nth_error tr j = Some (name, p) ->
           out !! name
           = Some (perturb epsilon p
                     (firstn (numel p)
                        (skipn (offset
                                + list_sum (List.map (fun np => numel (snd np))
                                              (firstn j tr)))
                           v_flat))).
Proof.
  induction tr as [|[name0 p0] tr IH]; intros offset acc Hnd Hparams Hlen.
  - exists acc. split; [reflexivity|]. split; [reflexivity|].
    intros [|j] name p H; discriminate.
  - cbn [List.map fst snd] in *. rewrite list_sum_cons in Hlen.
    inversion Hnd as [|? ? Hnotin Hnd']; subst.
    cbn [EdgeModel.perturb_loop]. unfold getitem.
    rewrite (Hparams name0 p0) by now left. cbn [bind].
    rewrite slice_in_range. unfold view_as.
    rewrite List.length_firstn, List.length_skipn.
    replace (Nat.min (numel p0) (List.length v_flat - offset)) with (numel p0) by lia.
    rewrite Nat.eqb_refl. cbn [bind].
    destruct (IH (offset + numel p0)%nat
                (<[name0 := List.map (fun ab => fadd (fst ab) (snd ab))
                              (combine (data F p0)
                                 (List.map (fmul epsilon)
                                    (firstn (numel p0) (skipn offset v_flat))))]> acc))
      as (out & Hout & Hother & Hnth).
    + exact Hnd'.
    + intros name p Hin. apply Hparams. now right.
    + lia.
    + exists out. split; [exact Hout|]. split.
      * intros name Hname. rewrite Hother by (intros H; apply Hname; now right).
        apply lookup_insert_ne. intros ->. apply Hname. now left.
      * intros [|j] name p Hj.
        -- injection Hj as <- <-. rewrite (Hother name0 Hnotin), lookup_insert_eq.
           cbn [firstn List.map]. change (list_sum []) with 0%nat.
           now rewrite Nat.add_0_r.
        -- cbn [nth_error] in Hj. rewrite (Hnth j name p Hj).
           cbn [firstn List.map snd]. rewrite list_sum_cons. do 4 f_equal. lia.
Qed.

Lemma perturb_loop_short (params : gmap string Param) (v_flat : list F)
  (epsilon : float) (tr : list (string * Param)) :
  forall offset acc,
    (forall name p, In (name, p) tr -> params !! name = Some p) ->
    (offset <= List.length v_flat)%nat ->
    (List.length v_flat < offset + list_sum (List.map (fun np => numel (snd np)) tr))%nat ->
    perturb_loop (List.map fst tr) params v_flat epsilon offset acc = Raise OtherError.
Proof.
  induction tr as [|[name0 p0] tr IH]; intros offset acc Hparams Hoff Hlen.
  - cbn in Hlen. lia.
  - cbn [List.map fst snd] in *. rewrite list_sum_cons in Hlen.
    cbn [EdgeModel.perturb_loop]. unfold getitem.
    rewrite (Hparams name0 p0) by now left. cbn [bind].
    rewrite slice_in_range. unfold view_as.
    rewrite List.length_firstn, List.length_skipn.
    destruct (Nat.eqb_spec (Nat.min (numel p0) (List.length v_flat - offset)) (numel p0))
      as [E|_]; [|reflexivity].
    cbn [bind]. apply IH; [|lia|lia]. intros name p Hin. apply Hparams. now right.
Qed.

Lemma trainable_firstn (named : list (string * Param)) :
  forall i name p,
    nth_error named i = Some (name, p) -> requires_grad F p = true ->
    nth_error (trainable named) (List.length (trainable (firstn i named))) = Some (name, p)
    /\ firstn (List.length (trainable (firstn i named))) (trainable named)
       = trainable (firstn i named).
Proof.
  unfold trainable.
  induction named as [|[n0 p0] named IH]; intros [|i] name p Hi Hrg; try discriminate.
  - injection Hi as -> ->. cbn [firstn List.filter List.length snd]. rewrite Hrg.
    split; reflexivity.
  - cbn [nth_error firstn List.filter snd] in *.
    destruct (IH i name p Hi Hrg) as [H1 H2].
    destruct (requires_grad F p0); cbn [List.length nth_error firstn].
    + split; [exact H1 | now rewrite H2].
    + split; assumption.
Qed.

Lemma lookup_named (named : list (string * Param)) (name : string) (p : Param) :
  List.NoDup (List.map fst named) -> In (name, p) named ->
  (list_to_map named : gmap string Param) !! name = Some p.
Proof.
  intros Hnd Hin. apply elem_of_list_to_map_1.
  - apply NoDup_ListNoDup. replace (named.*1) with (List.map fst named); [exact Hnd|].
    clear. induction named as [|np named IH]; [reflexivity|]. cbn. now rewrite IH.
  - apply list_elem_of_In. exact Hin.
Qed.

Lemma perturbed_parameters_cases (named : list (string * Param))
  (v_flat : list F) (epsilon : float) :
  List.NoDup (List.map fst named) ->
  (trainable_numel named <= List.length v_flat)%nat ->
  exists perturbed_params,
    perturbed_parameters named v_flat epsilon = Ok perturbed_params
    /\ (forall name p,
          In (name, p) named -> requires_grad F p = false ->
          perturbed_params !! name = Some (data F p))
    /\ forall j name p,
         nth_error (trainable named) j = Some (name, p) ->
         perturbed_params !! name
         = Some (perturb epsilon p
                   (firstn (numel p)
                      (skipn (list_sum (List.map (fun np => numel (snd np))
                                          (firstn j (trainable named))))
                         v_flat))).
Proof.
  intros Hnd Hlen. unfold EdgeModel.perturbed_parameters.
  fold (trainable named).
  assert (Hsub : forall name p, In (name, p) (trainable named) -> In (name, p) named).
  { intros name p Hin. unfold trainable in Hin. now apply filter_In in Hin as [Hin _]. }
  assert (Hnd' : List.NoDup (List.map fst (trainable named))).
  { unfold trainable. clear -Hnd. induction named as [|[n0 p0] named IH]; [constructor|].
    cbn [List.map fst] in Hnd. inversion Hnd as [|? ? Hnotin Hnd']; subst.
    cbn [List.filter snd]. destruct (requires_grad F p0); [|now apply IH].
    cbn [List.map fst]. constructor; [|now apply IH].
    intros Hin. apply Hnotin. apply in_map_iff in Hin as ([n p] & <- & Hin).
    apply filter_In in Hin as [Hin _]. apply in_map_iff. now exists (n, p). }
  destruct (perturb_loop_ok (list_to_map named) v_flat epsilon (trainable named) 0
              (data F <$> list_to_map named) Hnd') as (out & Hout & Hother & Hnth).
  - intros name p Hin. apply lookup_named; [exact Hnd | now apply Hsub].
  - exact Hlen.
  - exists out. split; [exact Hout|]. split; [|exact Hnth].
    intros name p Hin Hrg. rewrite Hother.
    + rewrite lookup_fmap, (lookup_named named name p Hnd Hin). reflexivity.
    + intros Hname. apply in_map_iff in Hname as ([n p'] & Hn & Hin').
      cbn [fst] in Hn. subst n. pose proof (Hsub _ _ Hin') as Hin''.
      assert (p' = p).
      { pose proof (lookup_named named name p Hnd Hin) as E1.
        pose proof (lookup_named named name p' Hnd Hin'') as E2. congruence. }
      subst p'. unfold trainable in Hin'. apply filter_In in Hin' as [_ Hrg'].
      cbn [snd] in Hrg'. congruence.
Qed.

(** X26.  With distinct parameter names and a noise vector that holds at
    least as many elements as the trainable parameters have, the loop of
    [forward_perturb] succeeds: a frozen parameter is handed on as it is, and
    the trainable parameter at position [i] becomes [param + epsilon * v],
    where [v] is the run of [v_flat] that starts where the runs of the
    trainable parameters before it end and is as long as the parameter; the
    runs go through [v_flat] in the order of [named_parameters()], without
    gap or overlap, and what lies beyond them is not read. *)
Theorem perturbed_parameters_slices (named : list (string * Param))
  (v_flat : list F) (epsilon : float) :
  List.NoDup (List.map fst named) ->
  (trainable_numel named <= List.length v_flat)%nat ->
  exists perturbed_params,
    perturbed_parameters named v_flat epsilon = Ok perturbed_params
    /\ forall i name p,
         nth_error named i = Some (name, p) ->
         perturbed_params !! name
         = Some (if requires_grad F p
                 then perturb epsilon p
                        (firstn (numel p)
                           (skipn (trainable_numel (firstn i named)) v_flat))
                 else data F p).
Proof.
  intros Hnd Hlen.
  destruct (perturbed_parameters_cases named v_flat epsilon Hnd Hlen)
    as (pp & Hpp & Hfrozen & Htrained).
  exists pp. split; [exact Hpp|]. intros i name p Hi.
  destruct (requires_grad F p) eqn:Hrg.
  - destruct (trainable_firstn named i name p Hi Hrg) as [Hj Hfirst].
    rewrite (Htrained _ name p Hj), Hfirst. reflexivity.
  - apply Hfrozen; [|exact Hrg]. eapply nth_error_In. exact Hi.
Qed.

(** X27.  A noise vector shorter than the trainable parameters makes
    [forward_perturb] raise (the [RuntimeError] of [view_as]); no loss is
    computed. *)
Theorem forward_perturb_short_noise (named : list (string * Param))
  (x y : Batch) (v_flat : list F) (epsilon : float) :
  List.NoDup (List.map fst named) ->
  (List.length v_flat < trainable_numel named)%nat ->
  forward_perturb named x y v_flat epsilon = Raise OtherError.
Proof.
  intros Hnd Hlen. unfold EdgeModel.forward_perturb, EdgeModel.perturbed_parameters.
  fold (trainable named). rewrite perturb_loop_short; [reflexivity| |lia|exact Hlen].
  intros name p Hin. apply lookup_named; [exact Hnd|].
  unfold trainable in Hin. now apply filter_In in Hin as [Hin _].
Qed.

(** X28.  [ClientRuntime.step] draws as many noise elements as [lora_a] and
    [lora_b] have parameters.  On a [RuthEdge] that is what [forward_perturb]
    consumes: the call succeeds, the first part of the noise perturbs
    [lora_a.weight], the rest [lora_b.weight], and the base layer and the head
    enter the forward pass as they are. *)
Theorem step_noise_fits_ruth_edge (m : RuthEdge F) (x y : Batch) (v : list F)
  (epsilon : float) :
  List.length v
  = (Runtime.sum_numel [List.length (lora_a_weight F m)]
     + Runtime.sum_numel [List.length (lora_b_weight F m)])%nat ->
  exists perturbed_params,
    forward_perturb (named_parameters F m) x y v epsilon
    = Ok (functional_loss perturbed_params x y)
    /\ perturbed_params !! "lora_a.weight"
       = Some (perturb epsilon (mkParam F (lora_a_weight F m) true)
                 (firstn (List.length (lora_a_weight F m)) v))
    /\ perturbed_params !! "lora_b.weight"
       = Some (perturb epsilon (mkParam F (lora_b_weight F m) true)
                 (skipn (List.length (lora_a_weight F m)) v))
    /\ perturbed_params !! "base_layer.weight" = Some (base_layer_weight F m)
    /\ perturbed_params !! "base_layer.bias" = Some (base_layer_bias F m)
    /\ perturbed_params !! "head.weight" = Some (head_weight F m)
    /\ perturbed_params !! "head.bias" = Some (head_bias F m).
Proof.
  intros Hlen. cbn [Runtime.sum_numel fold_left] in Hlen. rewrite !Nat.add_0_l in Hlen.
  destruct (perturbed_parameters_cases (named_parameters F m) v epsilon)
    as (pp & Hpp & Hfrozen & Htrained).
  - unfold named_parameters. cbn [List.map fst].
    repeat (constructor; [cbn; intros H; repeat destruct H as [H|H]; discriminate || exact H|]).
    constructor.
  - unfold trainable_numel, trainable, named_parameters. cbn. lia.
  - exists pp. unfold EdgeModel.forward_perturb. rewrite Hpp. cbn [bind].
    split; [reflexivity|].
    pose proof (Htrained 0%nat _ _ eq_refl) as Ha.
    pose proof (Htrained 1%nat _ _ eq_refl) as Hb.
    unfold trainable, named_parameters in Ha, Hb.
    cbn [List.filter snd requires_grad firstn List.map] in Ha, Hb.
    rewrite list_sum_cons in Hb. change (list_sum []) with 0%nat in Ha, Hb.
    unfold EdgeModel.numel in Ha, Hb. cbn [data] in Ha, Hb.
    rewrite Nat.add_0_r in Hb.
    split; [exact Ha|]. split.
    + rewrite Hb. do 2 f_equal. apply firstn_all2. rewrite List.length_skipn. lia.
    + assert (Hkeep : forall name w,
                In (name, mkParam F w false) (named_parameters F m) ->
                pp !! name = Some w)
        by (intros name w Hin; now apply (Hfrozen name (mkParam F w false))).
      repeat split; apply Hkeep; unfold named_parameters; cbn; tauto.
Qed.

End RuthEdge.

(** *** The theorems at concrete inputs (integer elements) *)

Definition small_edge : RuthEdge Z :=
  mkRuthEdge Z [1; 2]%Z [0]%Z [10; 20]%Z [30]%Z [5]%Z [6]%Z.

Definition picked_weights (pp : gmap string (list Z)) (x y : unit) : list (option (list Z)) :=
  [pp !! "lora_a.weight"; pp !! "lora_b.weight"; pp !! "head.bias"].

Lemma perturbed_parameters_slices_witness :
  exists perturbed_params,
    perturbed_parameters Z Z.add AggregatorProps.zscale (named_parameters Z small_edge)
      [1; 2; 3; 4]%Z 2%float = Ok perturbed_params
    /\ perturbed_params !! "lora_b.weight" = Some [36%Z].
Proof.
  destruct (perturbed_parameters_slices Z Z.add AggregatorProps.zscale
              (named_parameters Z small_edge) [1; 2; 3; 4]%Z 2%float)
    as (pp & Hpp & Hat).
  - unfold named_parameters. cbn [List.map fst].
    repeat (constructor; [cbn; intros H; repeat destruct H as [H|H]; discriminate || exact H|]).
    constructor.
  - vm_compute. lia.
  - exists pp. split; [exact Hpp|]. rewrite (Hat 3%nat _ _ eq_refl). reflexivity.
Defined.

Lemma forward_perturb_short_noise_witness :
  forward_perturb Z unit (list (option (list Z))) Z.add AggregatorProps.zscale
    picked_weights (named_parameters Z small_edge) tt tt [1; 2]%Z 2%float
  = Raise OtherError.
Proof.
  apply forward_perturb_short_noise.
  - unfold named_parameters. cbn [List.map fst].
    repeat (constructor; [cbn; intros H; repeat destruct H as [H|H]; discriminate || exact H|]).
    constructor.
  - vm_compute. lia.
Defined.

Lemma step_noise_fits_ruth_edge_witness :
  exists perturbed_params,
    forward_perturb Z unit (list (option (list Z))) Z.add AggregatorProps.zscale
      picked_weights (named_parameters Z small_edge) tt tt [1; 2; 3]%Z 2%float
    = Ok (picked_weights perturbed_params tt tt)
    /\ perturbed_params !! "lora_a.weight" = Some [12; 24]%Z
    /\ perturbed_params !! "lora_b.weight" = Some [36]%Z.
Proof.
  destruct (step_noise_fits_ruth_edge Z unit (list (option (list Z))) Z.add
              AggregatorProps.zscale picked_weights small_edge tt tt [1; 2; 3]%Z 2%float)
    as (pp & Hpp & Ha & Hb & _).
  - reflexivity.
  - exists pp. split; [exact Hpp|]. split; [exact Ha | exact Hb].
Defined.

End EdgeModelProps.

(** ** The embedding on known values *)

(** Published test vectors of the library functions, and the assertions of
    the repository's own tests replayed on the embedding. *)
Module RepoTests.

Import Verifier AggregatorProps AttestationProps VerifierProps CollectorProps.

(** *** Library functions *)

Example sha256_empty :
  Sha256.hexdigest [] =
  "e3b0c44298fc1c149afbf4c8996fb92427ae41e4649b934ca495991b7852b855".
Proof. vm_compute. reflexivity. Qed.

Example sha256_abc :
  Sha256.hexdigest (Codec.bytes_of_string "abc") =
  "ba7816bf8f01cfea414140de5dae2223b00361a396177a9cb410ff61f20015ad".
Proof. vm_compute. reflexivity. Qed.

Example sha256_two_blocks :
  Sha256.hexdigest
    (Codec.bytes_of_string "abcdbcdecdefdefgefghfghighijhijkijkljklmklmnlmnomnopnopq") =
  "248d6a61d20638b8e5c026930c3e6039a33ce45964ff2167f6ecedd419db06c1".
Proof. vm_compute. reflexivity. Qed.

Example sha256_round_constants :
  List.length Sha256.K = 64%nat
  /\ nth 0 Sha256.K 0%Z = 0x428a2f98%Z /\ nth 63 Sha256.K 0%Z = 0xc67178f2%Z
  /\ Sha256.ha Sha256.H0 = 0x6a09e667%Z /\ Sha256.hh Sha256.H0 = 0x5be0cd19%Z.
Proof. repeat split. Qed.

Example b64encode_hello :
  Codec.b64encode (Codec.bytes_of_string "hello") = "aGVsbG8=".
Proof. reflexivity. Qed.

Example b64decode_skips_blanks :
  Codec.b64decode (Codec.ustr_of_string "aGVs bG8= ")
  = Ok (Codec.bytes_of_string "hello").
Proof. reflexivity. Qed.

Example b64decode_incomplete :
  Codec.b64decode (Codec.ustr_of_string "aGVsb") = Raise ValueError.
Proof. reflexivity. Qed.

Example utf8_encode_euro :
  Codec.utf8_encode [8364%Z] = Ok [Byte.xe2; Byte.x82; Byte.xac].
Proof. reflexivity. Qed.

Example utf8_decode_overlong : Codec.utf8_decode [Byte.xc0; Byte.x80] = Raise UnicodeDecodeError.
Proof. reflexivity. Qed.

Example int_of_str_forms :
  int_of_str " 12 " = Ok 12%Z /\ int_of_str "-7" = Ok (-7)%Z
  /\ int_of_str "+7" = Ok 7%Z /\ int_of_str "1_000" = Ok 1000%Z
  /\ int_of_str "1__0" = Raise ValueError /\ int_of_str "" = Raise ValueError
  /\ int_of_str "x" = Raise ValueError.
Proof. repeat split. Qed.

Example slice_forms :
  slice [1; 2; 3; 4; 5]%Z 1 4 = [2; 3; 4]%Z
  /\ slice [1; 2; 3; 4; 5]%Z (-2) 7 = [4; 5]%Z
  /\ slice [1; 2; 3; 4; 5]%Z 3 2 = [].
Proof. repeat split. Qed.

Example int_of_float_forms :
  int_of_float 2.5%float = Ok 2%Z /\ int_of_float (-2.5)%float = Ok (-2)%Z
  /\ floor_of_float (-2.5)%float = Ok (-3)%Z
  /\ int_of_float (float_of_int 10 * 0.1)%float = Ok 1%Z
  /\ int_of_float (float_of_int 5 * 0.1)%float = Ok 0%Z
  /\ int_of_float infinity = Raise OverflowError.
Proof. repeat split. Qed.

(** *** [tests/test_prng.py] *)

Example test_prng_next_seed :
  fst (Prng.draw 4 (Prng.init [10; 20; 30]%Z)) = [Ok 10; Ok 20; Ok 30; Ok 10]%Z.
Proof. reflexivity. Qed.

(** *** [tests/test_aggregator.py], on one coordinate with integer elements *)

Example test_trimmed_mean_aggregation :
  Aggregator.aggregate Z 0%Z Z.add zdiv Z.leb trim_tenth ten_clients = Ok [1%Z].
Proof. vm_compute. reflexivity. Qed.

Example test_aggregation_no_trim :
  Aggregator.aggregate Z 0%Z Z.add zdiv Z.leb trim_tenth
    (Aggregator.mkTensor Z 1 [[1]; [2]; [3]; [4]; [5]]%Z) = Ok [3%Z].
Proof. vm_compute. reflexivity. Qed.

Example aggregate_of_nothing :
  Aggregator.aggregate Z 0%Z Z.add zdiv Z.leb (Aggregator.mk 3 0.1%float)
    (Aggregator.mkTensor Z 3 []) = Ok [0; 0; 0]%Z.
Proof. reflexivity. Qed.

(** *** [tests/test_runtime.py]: a small step size is clipped *)

Example test_clipping :
  match
    fst (Runtime.step unit unit float (fun _ d => repeat tt d) (fun x => x)
           (Runtime.init unit unit float RuntimeProps.probe_model (Prng.init [1%Z])
              (Runtime.Constant 1e-9%float) 0.5%float) tt tt)
  with
  | Ok r => Runtime.scalar r = 0.5%float /\ Runtime.seed_id r = 1%Z
  | Raise _ => False
  end.
Proof. vm_compute. split; reflexivity. Qed.

Example step_with_zero_epsilon :
  fst (Runtime.step unit unit float (fun _ d => repeat tt d) (fun x => x)
         (Runtime.init unit unit float RuntimeProps.probe_model (Prng.init [1%Z])
            (Runtime.Constant 0%float) 0.5%float) tt tt)
  = Raise ZeroDivisionError.
Proof. vm_compute. reflexivity. Qed.

(** *** [tests/test_attestation.py] *)

Example test_generate_binding_hash :
  Attestation.generate_binding_hash repr_stub
    (<["scalar" := Attestation.VFloat 0.5%float]> sample_payload)
  = Ok (Sha256.hexdigest (Codec.bytes_of_string "123:0.5:abc")).
Proof. vm_compute. reflexivity. Qed.

Example binding_hash_of_empty_payload :
  Attestation.generate_binding_hash repr_stub ∅
  = Ok "71546855d6279ef70d20909b292c42c2dcb02cd06bde01485da52d13e304ebf4".
Proof. vm_compute. reflexivity. Qed.

(** *** [tests/test_security.py], with the stand-in signature scheme *)

Definition verify_with (nonce : json) (integrity : bool) (u : ClientUpdate) : result bool :=
  Verifier.verify_update bool toy_from_public_bytes toy_verify repr_tenth
    (fun _ _ =>
       Response 200
         (Ok (JObj [("isValidSignature", JBool true); ("basicIntegrity", JBool integrity);
                    ("nonce", nonce)])))
    gate u toy_key.

Example test_security_flow_success :
  verify_with (JStr (Codec.ustr_of_string spec_nonce)) true spec_update = Ok true.
Proof. vm_compute. reflexivity. Qed.

(** The signature was made over another payload. *)
Example test_security_flow_tampered_signature :
  verify_with (JStr (Codec.ustr_of_string spec_nonce)) true
    (mkUpdate "device1" 7 43 0.1%float 0.5%float
       (toy_sign true spec_payload) mock_token) = Ok false.
Proof. vm_compute. reflexivity. Qed.

(** The update is signed again, the attestation still carries the old nonce. *)
Example test_security_flow_replayed_attestation :
  verify_with (JStr (Codec.ustr_of_string spec_nonce)) true
    (mkUpdate "device1" 7 43 0.1%float 0.5%float
       (toy_sign true (Codec.bytes_of_string "43:0.1:7")) mock_token) = Ok false.
Proof. vm_compute. reflexivity. Qed.

Example test_security_flow_integrity_fail :
  verify_with (JStr (Codec.ustr_of_string spec_nonce)) false spec_update = Ok false.
Proof. vm_compute. reflexivity. Qed.

(** *** [tests/test_async_aggregator.py] *)

Example test_submit_update :
  Collector.submit_commands stub_serialize genuine
  = [Collector.LPush "ruth:round:1:updates" []; Collector.Incr "ruth:round:1:count"]
  /\ fst (Collector.submit_update stub_serialize true ∅ genuine) = true.
Proof. split; vm_compute; reflexivity. Qed.

(** The counter reads 10 with the threshold at 10: the worker triggers the
    aggregation of round 1 and deletes both keys. *)
Example test_worker_aggregation_trigger :
  match
    Collector.run stub_serialize stub_parse 10
      (repeat (Collector.ASubmit genuine) 10 ++ Collector.poll_round 1)
      Collector.initial
  with
  | Some s =>
      Collector.invoked s = [(1, 10)]%Z
      /\ Collector.store s !! Collector.updates_key 1 = None
      /\ Collector.store s !! Collector.count_key 1 = None
  | None => False
  end.
Proof. vm_compute. repeat split. Qed.

(** With nine submissions the worker reads 9 and moves on. *)
Example quorum_not_reached :
  match
    Collector.run stub_serialize stub_parse 10
      (repeat (Collector.ASubmit genuine) 9
       ++ [Collector.AScan [Collector.count_key 1]; Collector.AGet])
      Collector.initial
  with
  | Some s => Collector.invoked s = [] /\ Collector.task s = Collector.Scanning []
  | None => False
  end.
Proof. vm_compute. repeat split. Qed.

End RepoTests.
